(** * DecisionToolBox (blackBox): a shallow embedding of the optimisation core

    The development follows the C++ sources of [src/blackBox]:

    - [Input.cpp]            [ratingDecay]        (decay table from the fitted curve)
    - [EnvImpact.cpp]        [calEnvImpact]       (valuation of one repair)
    - [FindOptSchedule.cpp]  [findOptEnvSchedule], [findOptCostSchedule]
                             (the dynamic programme and its backtracking),
                             [mergeFourSched]     (four-way merge of schedules)

    Conventions of the embedding.

    - A C++ [int] is a [Z]; signed overflow is undefined in C++ and no
      wrap-around is modelled.
    - A C++ [float] is an element of a type [F] that carries the operations the
      sources use (class [Arith]); the instance is IEEE binary32 ([binary32],
      executable).
    - The local arrays [M], [preX], [preY], [preRepair] are finite maps from
      index pairs; a cell the code reads before writing it holds an
      indeterminate value, which the embedding takes from an explicit
      parameter ([stack]).
    - A [while] loop whose termination is not evident from its text takes
      fuel; running out of fuel is the outcome [OutOfFuel].
    - An index outside the bounds of an array is undefined behaviour in
      C++; the finite maps accept every key, and a key that was never
      written reads as the indeterminate value.  [in_range] describes the
      inputs on which the indices stay inside the arrays, and [within] the
      tables whose written cells are inside them.
    - Dereferencing a past-the-end iterator is the outcome [Undefined]. *)

From Stdlib Require Import ZArith List Lia Bool String Sorted.
From Stdlib Require Import Floats.SpecFloat.
From stdpp Require Import base option list gmap sorting.

Local Open Scope Z_scope.

(** ** Outcomes of a run *)

Inductive outcome (A : Type) : Type :=
| Returned (a : A)      (* the function returns [a] *)
| Raised (msg : string) (* a [BlackBoxError] is thrown *)
| Undefined             (* the execution has undefined behaviour *)
| OutOfFuel.            (* the loop is still running when the fuel is spent *)

Arguments Returned {A} a.
Arguments Raised {A} msg.
Arguments Undefined {A}.
Arguments OutOfFuel {A}.

Definition outcome_map {A B : Type} (f : A -> B) (o : outcome A) : outcome B :=
  match o with
  | Returned a => Returned (f a)
  | Raised m => Raised m
  | Undefined => Undefined
  | OutOfFuel => OutOfFuel
  end.

(** ** Arithmetic on [float] values

    The operations the sources apply to [float] (and to the [double]
    intermediate results of [pow], [sqrt] and [floor]). *)

Class Arith (F : Type) : Type := {
  of_int : Z -> F;          (* an [int] operand converted to floating point *)
  fadd : F -> F -> F;
  fsub : F -> F -> F;
  fmul : F -> F -> F;
  fdiv : F -> F -> F;
  fopp : F -> F;
  fsqrt : F -> F;           (* [sqrt(x)] *)
  fpow : F -> Z -> F;       (* [pow(x, n)] with an [int] exponent *)
  ffloor : F -> Z;          (* [floor(x)] stored in an [int] *)
  fltb : F -> F -> bool;    (* [x < y] *)
  fleb : F -> F -> bool;    (* [x <= y] *)
  feqb : F -> F -> bool;    (* [x == y] *)
}.

(** [numeric_limits<float>::infinity()] *)
Class ArithInf (F : Type) : Type := {
  ArithInf_Arith :: Arith F;
  infinity : F;
}.

Declare Scope F_scope.
Delimit Scope F_scope with fl.
Notation "x + y" := (fadd x y) : F_scope.
Notation "x - y" := (fsub x y) : F_scope.
Notation "x * y" := (fmul x y) : F_scope.
Notation "x / y" := (fdiv x y) : F_scope.
Notation "- x" := (fopp x) : F_scope.
Notation "x <? y" := (fltb x y) : F_scope.
Notation "x <=? y" := (fleb x y) : F_scope.
Notation "x =? y" := (feqb x y) : F_scope.
Notation "x >? y" := (fltb y x) : F_scope.

(** *** IEEE binary32, round to nearest even

    [spec_float] with precision 24 and maximal exponent 128.  [pow] with an
    [int] exponent is computed by repeated multiplication; the conversion
    of a NaN or an infinity to [int] is undefined in C++ and yields 0
    here. *)

Definition binary32 : Type := spec_float.

Definition b32_of_int (z : Z) : binary32 := binary_normalize 24 128 z 0 false.

Definition b32_pow (x : binary32) (n : Z) : binary32 :=
  let p := Z.iter (Z.abs n) (fun acc => SFmul 24 128 acc x) (b32_of_int 1) in
  if n <? 0 then SFdiv 24 128 (b32_of_int 1) p else p.

Definition b32_floor (x : binary32) : Z :=
  match x with
  | S754_finite s m e => Z.shiftl (cond_Zopp s (Zpos m)) e
  | _ => 0
  end.

#[export] Instance binary32_Arith : Arith binary32 := {|
  of_int := b32_of_int;
  fadd := SFadd 24 128;
  fsub := SFsub 24 128;
  fmul := SFmul 24 128;
  fdiv := SFdiv 24 128;
  fopp := SFopp;
  fsqrt := SFsqrt 24 128;
  fpow := b32_pow;
  ffloor := b32_floor;
  fltb := SFltb;
  fleb := SFleb;
  feqb := SFeqb;
|}.

#[export] Instance binary32_ArithInf : ArithInf binary32 := {|
  ArithInf_Arith := binary32_Arith;
  infinity := S754_infinity false;
|}.

(** *** The value of a binary32 number

    Every finite binary32 number is an integer multiple of [2^-149];
    [b32_units x] is that integer.  [b32_round] is the rounding to
    nearest, ties to even, on these integers: an integer of more than 24
    binary digits loses its low digits ([rne m n] is [m / 2^n] rounded to
    the nearest integer, ties to even). *)

Definition b32_units (x : binary32) : Z :=
  match x with
  | S754_finite s m e => cond_Zopp s (Zpos m) * 2 ^ (e + 149)
  | _ => 0
  end.

Definition b32_is_finite (x : binary32) : bool :=
  match x with
  | S754_finite _ _ _ | S754_zero _ => true
  | _ => false
  end.

Definition rne (m n : Z) : Z :=
  let q := m / 2 ^ n in
  let r := m mod 2 ^ n in
  if (2 ^ n <? 2 * r) || ((2 * r =? 2 ^ n) && Z.odd q) then q + 1 else q.

Definition b32_round_pos (M : Z) : Z :=
  let n := Z.log2 M + 1 - 24 in
  if n <=? 0 then M else rne M n * 2 ^ n.

Definition b32_round (D : Z) : Z :=
  if D <? 0 then - b32_round_pos (- D) else b32_round_pos D.



(** *** Products, quotients and square roots

    The exact product, quotient or square root of binary32 numbers is not
    an integer in units of [2^-149].  It is read in units of [2^-(149+S)]
    and, where it is not an integer there either, with a last digit that
    is set when digits below it were cut ([sticky_div], [sticky_sqrt]):
    the rounding to nearest reads the digits below the last one kept only
    through their being all zero or not.  [b32_round_fine S V] rounds the
    magnitude [V] to 24 digits or to a multiple of [2^S], whichever is
    coarser; [loc_code] is the position of the part of a value below its
    mantissa, as [binary_round_aux] receives it. *)









(** ** Input.cpp, [ratingDecay] (lines 36-71)

    [coeff] is the array returned by [polyFit(3, ratings)]: the
    coefficients [a], [b], [c] of the fitted curve
    [rating = a*t^2 + b*t + c]. *)

Section DecayModel.
Context {F : Type} {AF : Arith F}.

(** [hi, hi-1, ..., lo]: the values of a loop [for (i = hi; i > lo-1; i--)]. *)
Definition countdown (hi lo : Z) : list Z :=
  map (fun k => hi - Z.of_nat k) (seq 0 (Z.to_nat (hi - lo + 1))).

(** [(-pow(b, 2)+4*a*c)/(4*a)]: the rating at the vertex of the parabola. *)
Definition vertex (a b c : F) : F :=
  ((- fpow b 2 + of_int 4 * a * c) / (of_int 4 * a))%fl.

Definition low_data : string := "Need more low condition rating data.".
Definition high_data : string := "Need more high condition rating data.".

(** Lines 46-55. *)
Definition validate (a b c : F) (limit : Z) : outcome unit :=
  if (a >? of_int 0)%fl then
    if (vertex a b c >? of_int limit)%fl then Raised low_data else Returned tt
  else
    if (vertex a b c <? of_int 9)%fl then Raised high_data else Returned tt.

(** Line 59-60: [c = coeff[2] - i; (-1*b -sqrt(pow(b, 2)-4*a*c))/(2*a)]. *)
Definition timePoint (a b c0 : F) (i : Z) : F :=
  let c := (c0 - of_int i)%fl in
  ((of_int (-1) * b - fsqrt (fpow b 2 - of_int 4 * a * c)) / (of_int 2 * a))%fl.

(** One-dimensional and two-dimensional arrays with an assignment. *)
Definition set1 {A : Type} (t : Z -> A) (i : Z) (v : A) : Z -> A :=
  fun i' => if decide (i' = i) then v else t i'.

Definition set2 {A : Type} (t : Z -> Z -> A) (i j : Z) (v : A) : Z -> Z -> A :=
  fun i' j' => if decide (i' = i /\ j' = j) then v else t i' j'.

(** Lines 57-62. [timePoints] is the uninitialised local array. *)
Definition fillTimePoints (a b c0 : F) (limit : Z) (timePoints : Z -> F) : Z -> F :=
  foldl (fun tp i => set1 tp i (timePoint a b c0 i)) timePoints (countdown 9 limit).

(** Lines 64-70. *)
Definition fillDecay (limit : Z) (timePoints : Z -> F) (ratingsDecay : Z -> Z -> Z)
  : Z -> Z -> Z :=
  foldl (fun rd i =>
           foldl (fun rd j => set2 rd i j (ffloor (timePoints j - timePoints i)%fl))
                 rd (countdown i limit))
        ratingsDecay (countdown 9 limit).

(** [ratingsDecay] is the caller's array (written in place), [timePoints]
    the indeterminate initial content of the local array. *)
Definition ratingDecay (timePoints : Z -> F) (ratingsDecay : Z -> Z -> Z)
    (coeff : F * F * F) (limit : Z) : outcome (Z -> Z -> Z) :=
  let '(a, b, c) := coeff in
  match validate a b c limit with
  | Returned _ =>
      Returned (fillDecay limit (fillTimePoints a b c limit timePoints) ratingsDecay)
  | Raised msg => Raised msg
  | Undefined => Undefined
  | OutOfFuel => OutOfFuel
  end.

End DecayModel.

(** ** Input.h: the input records *)

Module Input.

Record BridgeInfo (F : Type) : Type := mkBridgeInfo {
  bridgeWidth : F;
  bridgeLength : F;
  bridgeID : Z;
  bridgeAADT : F;
  bridgeAADTT : F;
  trafficGrowthRate : F;
  discountRate : F;
  startRating : Z;
  startYear : Z;
}.

Record RepairEnv (F : Type) : Type := mkRepairEnv {
  repairID : Z;
  LB : Z;
  UB : Z;
  improvement : Z;
  duration : Z;
  repairMean : F;
  trafficMean : F;
}.

Record ImpCoef (F : Type) : Type := mkImpCoef {
  condition : Z;
  coef : F;
}.

Arguments mkBridgeInfo {F}.
Arguments bridgeWidth {F}.
Arguments bridgeLength {F}.
Arguments bridgeID {F}.
Arguments bridgeAADT {F}.
Arguments bridgeAADTT {F}.
Arguments trafficGrowthRate {F}.
Arguments discountRate {F}.
Arguments startRating {F}.
Arguments startYear {F}.
Arguments mkRepairEnv {F}.
Arguments repairID {F}.
Arguments LB {F}.
Arguments UB {F}.
Arguments improvement {F}.
Arguments duration {F}.
Arguments repairMean {F}.
Arguments trafficMean {F}.
Arguments mkImpCoef {F}.
Arguments condition {F}.
Arguments coef {F}.

End Input.
Export Input.

Abbreviation RepairEnvMat F := (list (RepairEnv F)).
Abbreviation ImproveMat F := (list (ImpCoef F)).
(** [typedef map<int,float> CostMap] *)
Abbreviation CostMap F := (gmap Z F).

(** ** EnvImpact.cpp, [calEnvImpact] (lines 25-203) *)

Inductive category : Type :=
| One | Two | Three | Four | Five | Six | Seven | Eight | Nine | Ten | Eleven.

Definition categoryOne : list Z := [1; 7; 15; 16].
Definition categoryTwo : list Z := [2].
Definition categoryThree : list Z :=
  [3; 22; 23; 24; 25; 26; 27; 28; 29; 30; 31; 32; 33; 34; 45].
Definition categoryFour : list Z := [4; 10].
Definition categoryFive : list Z := [5].
Definition categorySix : list Z := [6; 37; 38; 39; 40].
Definition categorySeven : list Z := [8; 9; 41; 42; 43; 44; 46; 47; 48; 49; 50].
Definition categoryEight : list Z := [11; 51].
Definition categoryNine : list Z := [12; 13; 14].
Definition categoryTen : list Z := [17; 18; 19; 20; 21; 35; 36].
Definition categoryEleven : list Z := [0].

(** [set<int> s(array, array+n); s.count(repairID) == 1] *)
Definition count (array : list Z) (n : nat) (repairID : Z) : bool :=
  existsb (Z.eqb repairID) (firstn n array).

(** The chain of [if ... else if ...] at lines 69-199.  The set [three] is
    built from the first 14 of the 15 elements of [categoryThree] (line 51). *)
Definition categoryOf (repairID : Z) : option category :=
  if count categoryOne 4 repairID then Some One
  else if count categoryTwo 1 repairID then Some Two
  else if count categoryThree 14 repairID then Some Three
  else if count categoryFour 2 repairID then Some Four
  else if count categoryFive 1 repairID then Some Five
  else if count categorySix 5 repairID then Some Six
  else if count categorySeven 11 repairID then Some Seven
  else if count categoryEight 2 repairID then Some Eight
  else if count categoryNine 3 repairID then Some Nine
  else if count categoryTen 7 repairID then Some Ten
  else if count categoryEleven 1 repairID then Some Eleven
  else None.

Section Valuation.
Context {F : Type} {AF : Arith F}.

(** Lines 36-39: the last row of [impMat] whose condition is [rating];
    [impCoeff] keeps its indeterminate initial value when there is none. *)
Definition lookupImpCoeff (impCoeff : F) (rating : Z) (impMat : ImproveMat F) : F :=
  foldl (fun impCoeff e => if condition e =? rating then coef e else impCoeff)
        impCoeff impMat.

(** The condition of the catalog scan, the same in every category:
    [repairs[j].repairID == repairID && (rating <= repairs[j].UB && rating >= repairs[j].LB)]. *)
Definition applies (repairID rating : Z) (r : RepairEnv F) : bool :=
  (Input.repairID r =? repairID) && ((rating <=? UB r) && (rating >=? LB r)).

(** The formula of each category, for the first catalog row [r] that
    applies. *)
Definition formula (cat : category) (bridge : BridgeInfo F) (year : Z)
    (r : RepairEnv F) (impCoeff : F) : F :=
  let deckLength := bridgeLength bridge in
  let deckWidth := bridgeWidth bridge in
  let AADT := bridgeAADT bridge in
  let growthRate := trafficGrowthRate bridge in
  let meanRepair := repairMean r in
  let meanTraffic := trafficMean r in
  let days := of_int (duration r) in
  let growth := fpow (of_int 1 + growthRate)%fl year in
  match cat with
  | One => meanRepair * deckLength * deckWidth * impCoeff
           + meanTraffic * AADT * days * growth
  | Two => meanRepair * of_int 10 * deckWidth * impCoeff
           + meanTraffic * AADT * days * growth
  | Three => meanRepair * deckWidth * meanTraffic * AADT * days * growth
  | Four => meanRepair * deckLength * of_int 2 * impCoeff
  | Five => meanRepair * deckLength * deckWidth
  | Six => meanRepair * deckLength * deckWidth * impCoeff
  | Seven => of_int 0
  | Eight => meanRepair
  | Nine => meanRepair * deckLength * of_int 2 * impCoeff * meanTraffic * AADT
            * days * growth
  | Ten => meanRepair * deckLength * deckWidth + meanTraffic * AADT * days * growth
  | Eleven => meanRepair * deckLength * deckWidth * impCoeff * meanTraffic * AADT
              * days * growth
  end%fl.

(** [impCoeff] is the indeterminate initial value of the local variable of
    that name.  [CO2] starts as [0.0f] (line 42) and is assigned only inside
    the scan. *)
Definition calEnvImpact (impCoeff : F) (bridge : BridgeInfo F) (year repairID rating : Z)
    (repairs : RepairEnvMat F) (impMat : ImproveMat F) : F :=
  let impCoeff := lookupImpCoeff impCoeff rating impMat in
  let CO2 := of_int 0 in
  match categoryOf repairID with
  | Some Seven => of_int 0
  | Some cat =>
      match find (applies repairID rating) repairs with
      | Some r => formula cat bridge year r impCoeff
      | None => CO2
      end
  | None => CO2
  end.

End Valuation.

(** ** FindOptSchedule.h: [struct Pair], [RepairSchedule] *)

Module Pair.
Record t : Type := mk { repairID : Z; repairYear : Z }.
End Pair.

Abbreviation RepairSchedule := (list Pair.t).

(** ** FindOptSchedule.cpp, [findOptEnvSchedule] (lines 17-178) and
       [findOptCostSchedule] (lines 188-347)

    The two functions have the same text except at three places: the first
    value of [i] (lines 70 and 241), the value of a repair (lines 86/93 and
    257/265) and the comparison of the acceptance test (lines 106 and 275).
    The embedding is one function with the variant as a parameter. *)

Inductive variant (F : Type) : Type :=
| Env
| Cost (costs : CostMap F).

Arguments Env {F}.
Arguments Cost {F} costs.

(** The arrays [float M[101][9]] and [int preX[101][9], preY[101][9],
    preRepair[101][9]], indexed by pairs [(x, y)].  The map holds the
    cells written so far. *)
Record tables (F : Type) : Type := mkTables {
  M : gmap (Z * Z) F;
  preX : gmap (Z * Z) Z;
  preY : gmap (Z * Z) Z;
  preRepair : gmap (Z * Z) Z;
}.

Arguments mkTables {F}.
Arguments M {F}.
Arguments preX {F}.
Arguments preY {F}.
Arguments preRepair {F}.

(** The indeterminate values of the locals that the code may read before it
    writes them: the cells of the four arrays, [optFinalCondition] and the
    [impCoeff] of [calEnvImpact]. *)
Record stack (F : Type) : Type := mkStack {
  stack_M : Z -> Z -> F;
  stack_preX : Z -> Z -> Z;
  stack_preY : Z -> Z -> Z;
  stack_preRepair : Z -> Z -> Z;
  stack_optFinalCondition : Z;
  stack_impCoeff : F;
}.

Arguments mkStack {F}.
Arguments stack_M {F}.
Arguments stack_preX {F}.
Arguments stack_preY {F}.
Arguments stack_preRepair {F}.
Arguments stack_optFinalCondition {F}.
Arguments stack_impCoeff {F}.

(** The state of the loop over [j] (lines 80-114 and 250-283). *)
Record jstate (F : Type) : Type := mkJstate {
  js_tables : tables F;
  js_min : F;
  js_repairCost : F;
  js_repairId : Z;
}.

Arguments mkJstate {F}.
Arguments js_tables {F}.
Arguments js_min {F}.
Arguments js_repairCost {F}.
Arguments js_repairId {F}.

(** What one run leaves behind: the returned [minTotalCost], the caller's
    [optSchedule], and the rows written to the file
    ["Optimal Maintenance Schedule"] (for each final condition: the
    condition, its best estimate and the rows of the walk). *)
Record result (F : Type) : Type := mkResult {
  minTotalCost : F;
  optSchedule : RepairSchedule;
  ofile : list (Z * F * list (Z * Z * Z));
}.

Arguments mkResult {F}.
Arguments minTotalCost {F}.
Arguments optSchedule {F}.
Arguments ofile {F}.

Section Scheduler.
Context {F : Type} {AI : ArithInf F}.
Variable st : stack F.
Variable v : variant F.
Variable bridge : BridgeInfo F.
Variable ratingsDecay : Z -> Z -> Z.
Variable repairs : RepairEnvMat F.
Variable impMat : ImproveMat F.
Variable limit : Z.

(** Reading and writing the arrays. *)
Definition getM (T : tables F) (x y : Z) : F := default (stack_M st x y) (M T !! (x, y)).
Definition getX (T : tables F) (x y : Z) : Z := default (stack_preX st x y) (preX T !! (x, y)).
Definition getY (T : tables F) (x y : Z) : Z := default (stack_preY st x y) (preY T !! (x, y)).
Definition getRepair (T : tables F) (x y : Z) : Z :=
  default (stack_preRepair st x y) (preRepair T !! (x, y)).

Definition setM (T : tables F) (x y : Z) (c : F) : tables F :=
  mkTables (<[(x, y) := c]> (M T)) (preX T) (preY T) (preRepair T).

Definition setPre (T : tables F) (x y : Z) (px py pr : Z) : tables F :=
  mkTables (M T) (<[(x, y) := px]> (preX T)) (<[(x, y) := py]> (preY T))
           (<[(x, y) := pr]> (preRepair T)).

(** Lines 25-27. *)
Definition initM (T : tables F) : tables F :=
  foldl (fun T i => foldl (fun T j => setM T i j (of_int 0)) T (seqZ 0 9)) T (seqZ 0 101).

(** Lines 35-44: one row of the boundary. *)
Definition boundaryRow (rating year : Z) (T : tables F) : tables F :=
  foldl (fun T i =>
           setPre (setM T year i (if i >=? rating then of_int 0 else infinity))
                  year i (-1) 0 0)
        T (countdown 8 1).

(** Lines 33-46. *)
Definition boundary (T : tables F) : tables F :=
  let startRating := startRating bridge in
  foldl (fun T rating =>
           foldl (fun T year => boundaryRow rating year T) T
                 (seqZ (ratingsDecay startRating (rating + 1))
                       (ratingsDecay startRating rating
                        - ratingsDecay startRating (rating + 1) + 1)))
        T (countdown (startRating - 1) limit).

(** Lines 86/93 (impact) and 256-257/264-265 (cost): the value of repair
    [r] applied at rating [j] in year [yearDecay].  [costs[id]] on a
    [std::map] yields [0] for an absent key. *)
Definition repairValue (yearDecay : Z) (r : RepairEnv F) (j : Z) : F :=
  let e := calEnvImpact (stack_impCoeff st) bridge yearDecay (repairID r) j
                        repairs impMat in
  match v with
  | Env => e
  | Cost costs =>
      let factor := default (of_int 0) (costs !! repairID r) in
      (e * factor / fpow (discountRate bridge + of_int 1) yearDecay)%fl
  end.

(** Lines 81-99: the body of the loop over the catalog. *)
Definition kStep (i j yearDecay : Z) (acc : F * Z) (r : RepairEnv F) : F * Z :=
  let '(repairCost, repairId) := acc in
  if (i =? 7) && (improvement r =? 7) && ((j <=? UB r) && (j >=? LB r)) then
    let tempRepairCost := repairValue yearDecay r j in
    if (tempRepairCost <? repairCost)%fl then (tempRepairCost, repairID r) else acc
  else if (improvement r =? i - j) && ((j <=? UB r) && (j >=? LB r)) then
    let tempRepairCost := repairValue yearDecay r j in
    if (tempRepairCost <? repairCost)%fl then (tempRepairCost, repairID r) else acc
  else acc.

(** The comparison of lines 106 ([<=]) and 275 ([<]). *)
Definition improves (tempCost min : F) : bool :=
  match v with
  | Env => (tempCost <=? min)%fl
  | Cost _ => (tempCost <? min)%fl
  end.

(** Lines 106 and 275: the acceptance test. *)
Definition accepts (T : tables F) (yearDecay j : Z) (tempCost min : F) : bool :=
  improves tempCost min && negb (tempCost =? of_int 0)%fl
  && negb (getX T yearDecay j =? yearDecay).

(** Lines 80-114: the body of the loop over [j]. *)
Definition jStep (year rating i yearDecay : Z) (s : jstate F) (j : Z) : jstate F :=
  let '(repairCost, repairId) :=
    foldl (kStep i j yearDecay) (js_repairCost s, js_repairId s) repairs in
  let tempCost := (getM (js_tables s) yearDecay j + repairCost)%fl in
  if accepts (js_tables s) yearDecay j tempCost (js_min s) then
    mkJstate (setPre (js_tables s) year rating yearDecay j repairId)
             tempCost repairCost repairId
  else
    mkJstate (js_tables s) (js_min s) repairCost repairId.

(** Lines 70 and 241: the first value of [i]. *)
Definition iStart (rating : Z) : Z :=
  match v with
  | Env => rating + 1
  | Cost _ => rating
  end.

(** Lines 77-114: the body of the loop over [i] once [yearDecay >= 0].
    [repairCost] and [repairId] are declared here, outside the loop over
    [j]. *)
Definition iBody (year rating i yearDecay : Z) (T : tables F) (min : F)
  : tables F * F :=
  let s := foldl (jStep year rating i yearDecay)
                 (mkJstate T min infinity 0) (seqZ limit (i - limit)) in
  (js_tables s, js_min s).

(** Lines 70-115: the loop over [i], left by [break] when [yearDecay < 0]. *)
Fixpoint iLoop (year rating : Z) (ivals : list Z) (T : tables F) (min : F)
  : tables F * F :=
  match ivals with
  | [] => (T, min)
  | i :: ivals' =>
      let yearDecay := year - ratingsDecay i rating in
      if yearDecay <? 0 then (T, min)
      else
        let '(T', min') := iBody year rating i yearDecay T min in
        iLoop year rating ivals' T' min'
  end.

(** The values of [i] for which the body of the loop runs at the cell
    [(year, rating)]: those of the loop header up to the [break]. *)
Fixpoint untilBreak (year rating : Z) (ivals : list Z) : list Z :=
  match ivals with
  | [] => []
  | i :: ivals' =>
      if year - ratingsDecay i rating <? 0 then []
      else i :: untilBreak year rating ivals'
  end.

Definition considered (year rating : Z) : list Z :=
  untilBreak year rating (seqZ (iStart rating) (9 - iStart rating)).

(** Lines 57-121: one cell of the table. *)
Definition cell (year : Z) (T : tables F) (rating : Z) : tables F :=
  if (rating <=? startRating bridge)
     && (ratingsDecay (startRating bridge) rating >=? year)
  then T
  else
    let '(T', min) :=
      iLoop year rating (seqZ (iStart rating) (9 - iStart rating)) T infinity in
    setM T' year rating min.

(** Lines 54-122. *)
Definition fill (T : tables F) : tables F :=
  foldl (fun T year => foldl (cell year) T (seqZ limit (9 - limit))) T (seqZ 0 101).

(** The arrays when the filling is over. *)
Definition filled : tables F :=
  fill (boundary (initM (mkTables ∅ ∅ ∅ ∅))).

(** Lines 142-149: the walk printed for one final condition; the rows are
    [preX[x][y], preRepair[x][y], preY[x][y]]. *)
Fixpoint walk (fuel : nat) (T : tables F) (x y : Z) : option (list (Z * Z * Z)) :=
  if getX T x y >=? 0 then
    match fuel with
    | O => None
    | S fuel' =>
        cons (getX T x y, getRepair T x y, getY T x y)
          <$> walk fuel' T (getX T x y) (getY T x y)
    end
  else Some [].

(** Lines 159-171: the walk that collects [temp]. *)
Fixpoint collect (fuel : nat) (T : tables F) (x y : Z) : option RepairSchedule :=
  if (getX T x y >? -1) && (getRepair T x y >? 0) then
    match fuel with
    | O => None
    | S fuel' =>
        cons (Pair.mk (getRepair T x y) (getX T x y + startYear bridge))
          <$> collect fuel' T (getX T x y) (getY T x y)
    end
  else Some [].

(** Lines 127-150: the loop over the final conditions.  The state is
    [minTotalCost], [optFinalCondition] and the file. *)
Definition finalStep (fuel : nat) (T : tables F)
    (acc : option (F * Z * list (Z * F * list (Z * Z * Z)))) (i : Z)
  : option (F * Z * list (Z * F * list (Z * Z * Z))) :=
  '(minTotalCost, optFinalCondition, ofile) ← acc;
  let '(minTotalCost, optFinalCondition) :=
    if (getM T 100 i <? minTotalCost)%fl then (getM T 100 i, i)
    else (minTotalCost, optFinalCondition) in
  rows ← walk fuel T 100 i;
  Some (minTotalCost, optFinalCondition, ofile ++ [(i, getM T 100 i, rows)]).

Definition finals (fuel : nat) (T : tables F)
  : option (F * Z * list (Z * F * list (Z * Z * Z))) :=
  foldl (finalStep fuel T) (Some (infinity, stack_optFinalCondition st, []))
        (seqZ limit (8 - limit)).

(** The whole function; [optSchedule] is the caller's vector, passed by
    reference.  Lines 172-174 push [temp] from its last entry to its
    first. *)
Definition findOptSchedule (fuel : nat) (optSchedule : RepairSchedule)
  : outcome (result F) :=
  let T := filled in
  match finals fuel T with
  | None => OutOfFuel
  | Some (minTotalCost, optFinalCondition, ofile) =>
      match collect fuel T 100 optFinalCondition with
      | None => OutOfFuel
      | Some temp => Returned (mkResult minTotalCost (optSchedule ++ rev temp) ofile)
      end
  end.

End Scheduler.

Definition findOptEnvSchedule {F : Type} {AI : ArithInf F} (st : stack F)
    (bridge : BridgeInfo F) (ratingsDecay : Z -> Z -> Z) (repairs : RepairEnvMat F)
    (impMat : ImproveMat F) (limit : Z) (fuel : nat) (optSchedule : RepairSchedule)
  : outcome (result F) :=
  findOptSchedule st Env bridge ratingsDecay repairs impMat limit fuel optSchedule.

Definition findOptCostSchedule {F : Type} {AI : ArithInf F} (st : stack F)
    (bridge : BridgeInfo F) (ratingsDecay : Z -> Z -> Z) (repairs : RepairEnvMat F)
    (costs : CostMap F) (impMat : ImproveMat F) (limit : Z) (fuel : nat)
    (optSchedule : RepairSchedule) : outcome (result F) :=
  findOptSchedule st (Cost costs) bridge ratingsDecay repairs impMat limit fuel
                  optSchedule.

(** ** FindOptSchedule.cpp, [mergeFourSched] (lines 354-403)

    [itStart[i]], [itEnd[i]] and [ends[i]] are kept together in one cursor:
    [rest] is the range from [itStart[i]] to [itEnd[i]]. *)

Record cursor : Type := mkCursor { rest : RepairSchedule; ended : bool }.

(** Lines 379-387: the scan for the smallest year among the inputs whose
    [ends] flag is clear.  [itStart[i]->repairYear] on an empty range reads
    through a past-the-end iterator ([None]).  [i] is the loop counter, [cs]
    the cursors from index [i] on. *)
Fixpoint pickMin (i : nat) (cs : list cursor) (min : Z) (min_i : nat)
  : option (Z * nat) :=
  match cs with
  | [] => Some (min, min_i)
  | c :: cs' =>
      if ended c then pickMin (S i) cs' min min_i
      else match rest c with
           | [] => None
           | p :: _ =>
               if Pair.repairYear p <=? min
               then pickMin (S i) cs' (Pair.repairYear p) i
               else pickMin (S i) cs' min min_i
           end
  end.

(** Lines 394-398: step the chosen iterator and raise its flag at the end. *)
Definition advance (c : cursor) : cursor :=
  match rest c with
  | [] => c
  | _ :: tl => mkCursor tl (match tl with [] => true | _ => ended c end)
  end.

(** Lines 377-399: the [while] loop.  Each entry pushed on [result] is
    tagged with the index [min_i] it was taken from; the tag is ghost state
    (erased in [mergeFourSched]) used to state the order among equal years. *)
Fixpoint mergeLoop (fuel : nat) (cs : list cursor) (result : list (nat * Pair.t))
  : outcome (list (nat * Pair.t)) :=
  if forallb ended cs then Returned result
  else
    match fuel with
    | O => OutOfFuel
    | S fuel' =>
        match pickMin 0 cs 9999 5 with
        | None => Undefined
        | Some (_, min_i) =>
            if Nat.eqb min_i 5 then Returned result
            else
              match cs !! min_i with
              | Some c =>
                  match rest c with
                  | p :: _ =>
                      mergeLoop fuel' (<[min_i := advance c]> cs)
                                (result ++ [(min_i, p)])
                  | [] => Undefined
                  end
              | None => Undefined
              end
        end
    end.

Definition mergeTrace (vec1 vec2 vec3 vec4 : RepairSchedule)
  : outcome (list (nat * Pair.t)) :=
  mergeLoop (S (length vec1 + length vec2 + length vec3 + length vec4))
            [mkCursor vec1 false; mkCursor vec2 false;
             mkCursor vec3 false; mkCursor vec4 false] [].

Definition mergeFourSched (vec1 vec2 vec3 vec4 : RepairSchedule)
  : outcome RepairSchedule :=
  outcome_map (map snd) (mergeTrace vec1 vec2 vec3 vec4).

(** Orders on schedules. *)
Definition year_le (p q : Pair.t) : Prop := Pair.repairYear p <= Pair.repairYear q.

Definition ascending (s : RepairSchedule) : Prop := StronglySorted year_le s.

(** Orders on the tagged output of [mergeLoop]. *)
Definition code_order (a b : nat * Pair.t) : Prop :=
  Pair.repairYear (snd a) <= Pair.repairYear (snd b) /\
  (Pair.repairYear (snd a) = Pair.repairYear (snd b) -> (fst b <= fst a)%nat).

Definition lower_index_first (tr : list (nat * Pair.t)) : Prop :=
  StronglySorted
    (fun a b => Pair.repairYear (snd a) = Pair.repairYear (snd b) -> (fst a <= fst b)%nat) tr.

Definition higher_index_first (tr : list (nat * Pair.t)) : Prop :=
  StronglySorted
    (fun a b => Pair.repairYear (snd a) = Pair.repairYear (snd b) -> (fst b <= fst a)%nat) tr.

(** An entry tagged [k] is an entry of the [k]-th input. *)
Definition tags_sound (inputs : list RepairSchedule) (tr : list (nat * Pair.t)) : Prop :=
  Forall (fun a => exists v, inputs !! fst a = Some v /\ snd a ∈ v) tr.

Definition head_year (c : cursor) : option Z :=
  if ended c then None else Pair.repairYear <$> head (rest c).

Definition consistent (c : cursor) : Prop := ended c = true <-> rest c = [].

Definition remaining (cs : list cursor) : nat :=
  foldr (fun c n => (length (rest c) + n)%nat) 0%nat cs.

(** The loop invariant of [mergeLoop] for inputs in ascending order. *)
Definition merge_inv (cs : list cursor) (result : list (nat * Pair.t)) : Prop :=
  length cs = 4%nat /\
  Forall consistent cs /\
  Forall (fun c => ascending (rest c)) cs /\
  StronglySorted code_order result /\
  (forall a k c q, a ∈ result -> cs !! k = Some c -> q ∈ rest c -> code_order a (k, q)).

(** ** Sample inputs (binary32) *)

(** A bridge of 10 by 8 and a catalog with the single repair 5 (category
    five), applicable at ratings 4 to 6. *)
Definition bridge_10x8 : BridgeInfo binary32 :=
  mkBridgeInfo (b32_of_int 8) (b32_of_int 10) 1 (b32_of_int 1000) (b32_of_int 100)
               (b32_of_int 0) (b32_of_int 0) 7 2000.

Definition catalog_5 : RepairEnvMat binary32 :=
  [mkRepairEnv 5 4 6 2 1 (b32_of_int 1) (b32_of_int 0)].

(** ** Predecessor pointers

    [chain n] is the cell reached from [(x, y)] by following the recorded
    predecessor [n] times. *)
Definition chain {F : Type} (st : stack F) (T : tables F) (n : nat) (x y : Z) : Z * Z :=
  Nat.iter n (fun c => (getX st T c.1 c.2, getY st T c.1 c.2)) (x, y).

(** Every cell's recorded predecessor [(preX, preY)] satisfies [P]. *)
Definition pointers {F : Type} (st : stack F) (P : Z -> Z -> Z -> Z -> Prop)
    (T : tables F) : Prop :=
  forall x y, P x y (getX st T x y) (getY st T x y).

(** The predecessor is the sentinel, or an earlier year, or the same year
    at a lower rating; its rating is one of [limit..7]. *)
Definition descends (limit x y px py : Z) : Prop :=
  px < 0 \/ (limit <= py <= 7 /\ (px < x \/ (px = x /\ py < y))).

(** The predecessor is the sentinel or not a later year. *)
Definition not_later (x y px py : Z) : Prop := px < 0 \/ px <= x.

(** Decay tables in which one rating level takes at least a year: the
    entries read by the filling are at least 1 for [i > rating], and
    non-negative on the diagonal, which the cost variant reads. *)
Definition decay_positive {F : Type} (v : variant F) (ratingsDecay : Z -> Z -> Z)
    (limit : Z) : Prop :=
  (forall i rating, limit <= rating -> rating < i -> i <= 8 ->
                    1 <= ratingsDecay i rating) /\
  match v with
  | Env => True
  | Cost _ => forall rating, limit <= rating <= 8 -> 0 <= ratingsDecay rating rating
  end.

Definition decay_nonneg (ratingsDecay : Z -> Z -> Z) (limit : Z) : Prop :=
  forall i rating, limit <= rating -> rating <= i -> i <= 8 ->
                   0 <= ratingsDecay i rating.

(** The table [ratingDecay] derives from a steep curve
    ([rating = 9 - 100 t^2]): every rating is reached within the first
    year. *)
Definition decay_flat (i j : Z) : Z := 0.

(** A schedule-free bridge that starts at rating 7, an empty catalog, and a
    decay table with [ratingsDecay[5][4] = 0]: rating 5 falls to rating 4
    within the year. *)
Definition decay_zero_step (i j : Z) : Z :=
  if (i =? 5) && (j =? 4) then 0
  else if i =? 7 then (if j =? 6 then 100 else 0)
  else 101.

(** A decay table that gives every rating level 40 years: from the start
    rating 7 the floor 4 is reached after 120 years, beyond the horizon. *)
Definition decay_steep (i j : Z) : Z := 40 * (i - j).

(** The decay table of the curve [rating = 9 - t^2/100]: [sample_time r]
    is the time, in hundredths of a year, at which the curve reaches
    rating [r]. *)
Definition sample_time (r : Z) : Z :=
  match r with
  | 9 => 0 | 8 => 1000 | 7 => 1414 | 6 => 1732 | 5 => 2000
  | 4 => 2236 | 3 => 2449 | 2 => 2645 | 1 => 2828 | _ => 3000
  end.

Definition sample_decay (i j : Z) : Z := (sample_time j - sample_time i) / 100.

(** A stack whose indeterminate cells read as the sentinel. *)
Definition stack_sentinel : stack binary32 :=
  mkStack (fun _ _ => b32_of_int 0) (fun _ _ => -1) (fun _ _ => 0) (fun _ _ => 0)
          5 (b32_of_int 0).

(** A bridge with unit traffic, a catalog in which repair 0 (category
    eleven) raises rating 6 by one level and repair 5 raises ratings 4 and 5
    by two, and improvement coefficients 1. *)
Definition bridge_quiet : BridgeInfo binary32 :=
  mkBridgeInfo (b32_of_int 8) (b32_of_int 10) 1 (b32_of_int 1) (b32_of_int 1)
               (b32_of_int 0) (b32_of_int 0) 7 2000.

Definition catalog_0_5 : RepairEnvMat binary32 :=
  [mkRepairEnv 5 4 5 2 1 (b32_of_int 3) (b32_of_int 0);
   mkRepairEnv 0 6 6 1 1 (b32_of_int 2) (b32_of_int 1)].

Definition impMat_ones : ImproveMat binary32 :=
  [mkImpCoef 4 (b32_of_int 1); mkImpCoef 5 (b32_of_int 1); mkImpCoef 6 (b32_of_int 1)].

(** ** Records of the dynamic programme

    [preX], [preY] and [preRepair] are written together (lines 108-110 and
    277-279); [records Q] says that the three values recorded at every cell
    satisfy [Q]. *)
Definition records {F : Type} (st : stack F) (Q : Z -> Z -> Z -> Z -> Z -> Prop)
    (T : tables F) : Prop :=
  forall x y, Q x y (getX st T x y) (getY st T x y) (getRepair st T x y).

(** The record of a cell is the sentinel, or a year of the horizon not
    after the cell's, a rating of [limit..7] and a repair that is 0 or the
    [repairID] of a catalog row. *)
Definition planned {F : Type} (repairs : RepairEnvMat F) (limit : Z)
    (x y px py pr : Z) : Prop :=
  px < 0 \/
  (0 <= px <= x /\ limit <= py <= 7 /\ (pr = 0 \/ pr ∈ map Input.repairID repairs)).

(** The predecessor is the sentinel or a strictly earlier year. *)
Definition earlier (x y px py : Z) : Prop := px < 0 \/ px < x.

Definition year_lt (p q : Pair.t) : Prop := Pair.repairYear p < Pair.repairYear q.

Definition strictly_ascending (s : RepairSchedule) : Prop := StronglySorted year_lt s.

(** Two decay tables that agree on the cells [ratingDecay] writes. *)
Definition same_decay (limit : Z) (rd rd' : Z -> Z -> Z) : Prop :=
  forall i j, limit <= j -> j <= i -> i <= 9 -> rd i j = rd' i j.

(** The test of lines 58 and 229: the cell lies on the decay path of the
    start condition and keeps the value of the initialisation. *)
Definition on_boundary {F : Type} (bridge : BridgeInfo F) (ratingsDecay : Z -> Z -> Z)
    (year rating : Z) : bool :=
  (rating <=? startRating bridge) && (ratingsDecay (startRating bridge) rating >=? year).

(** Every cell written lies inside the arrays [M], [preX], [preY] and
    [preRepair], all of dimensions [101][9]. *)
Definition within {F : Type} (T : tables F) : Prop :=
  forall x y,
    is_Some (M T !! (x, y)) \/ is_Some (preX T !! (x, y)) \/
    is_Some (preY T !! (x, y)) \/ is_Some (preRepair T !! (x, y)) ->
    0 <= x <= 100 /\ 0 <= y <= 8.

(** The inputs on which every index of the filling, of the boundary and
    of the final loops is inside its array: a floor and a start rating
    that are ratings, and boundary rows [ratingsDecay[startRating][rating
    + 1] .. ratingsDecay[startRating][rating]] (lines 34-35) inside the
    horizon. *)
Definition in_range {F : Type} (bridge : BridgeInfo F) (ratingsDecay : Z -> Z -> Z)
    (limit : Z) : Prop :=
  0 <= limit /\ 0 <= startRating bridge <= 9 /\
  forall rating, limit <= rating < startRating bridge ->
    0 <= ratingsDecay (startRating bridge) (rating + 1) /\
    ratingsDecay (startRating bridge) rating <= 100.

(** ** Work of the filling

    The rows of the catalog that the filling visits: one for each pass of
    the loop over [k] (lines 81-99 and 251-270), and for each call of
    [calEnvImpact] the rows that its scan passes up to the first that
    applies (EnvImpact.cpp lines 69-199; no scan for the seventh category
    and for a [repairID] of no category).  The loops are those of [fill];
    which of them run does not depend on the content of the arrays. *)

Section Work.
Context {F : Type}.
Variable v : variant F.
Variable bridge : BridgeInfo F.
Variable ratingsDecay : Z -> Z -> Z.
Variable repairs : RepairEnvMat F.
Variable limit : Z.

Fixpoint scanned (repairID rating : Z) (rows : RepairEnvMat F) : nat :=
  match rows with
  | [] => 0
  | r :: rows' =>
      if applies repairID rating r then 1 else S (scanned repairID rating rows')
  end.

Definition calEnvImpact_visits (repairID rating : Z) : nat :=
  match categoryOf repairID with
  | Some Seven | None => 0
  | Some _ => scanned repairID rating repairs
  end.

(** One pass of the loop over [k]: the row itself and, when one of the two
    conditions of lines 85 and 91 holds, the call of [calEnvImpact]. *)
Definition kStep_visits (i j : Z) (r : RepairEnv F) : nat :=
  if ((i =? 7) && (improvement r =? 7) && ((j <=? UB r) && (j >=? LB r)))
     || ((improvement r =? i - j) && ((j <=? UB r) && (j >=? LB r)))
  then S (calEnvImpact_visits (repairID r) j)
  else 1.

Definition jStep_visits (i j : Z) : nat := sum_list_with (kStep_visits i j) repairs.

Definition iBody_visits (i : Z) : nat :=
  sum_list_with (jStep_visits i) (seqZ limit (i - limit)).

Definition cell_visits (year rating : Z) : nat :=
  if on_boundary bridge ratingsDecay year rating then 0
  else sum_list_with iBody_visits (considered v ratingsDecay year rating).

Definition fill_visits : nat :=
  sum_list_with (fun year => sum_list_with (cell_visits year) (seqZ limit (9 - limit)))
                (seqZ 0 101).

End Work.

(** A catalog of [2 n] rows: [n] rows of repair 6 followed by [n] rows of
    repair 5, all applicable at ratings 4 to 6 and raising the rating by
    two. *)
Definition catalog_blocks (n : nat) : RepairEnvMat binary32 :=
  replicate n (mkRepairEnv 6 4 6 2 1 (b32_of_int 1) (b32_of_int 0))
  ++ replicate n (mkRepairEnv 5 4 6 2 1 (b32_of_int 1) (b32_of_int 0)).

(** A value that is infinity or does not compare equal to 0. *)
Definition priced {F : Type} {AI : ArithInf F} (c : F) : Prop :=
  c = infinity \/ (c =? of_int 0)%fl = false.

(** The cells of [M] written so far cover the whole array. *)
Definition M_covered {F : Type} (T : tables F) : Prop :=
  forall x y, 0 <= x <= 100 -> 0 <= y <= 8 -> is_Some (M T !! (x, y)).

(** ** LCO.h and Input.h: the records of the input compilers

    [LCO.h] is generated from Slice definitions that are not part of the
    sources; [RepairInfo] is given the fields the sources read. *)

Module RepairInfo.
Record t (F : Type) : Type := mk {
  repairID : Z;
  avail : bool;
  duration : Z;
  cost : F;
}.
Arguments mk {F}.
Arguments repairID {F}.
Arguments avail {F}.
Arguments duration {F}.
Arguments cost {F}.
End RepairInfo.

Abbreviation RepairInfoMat F := (list (RepairInfo.t F)).

Module RepairBasicInfo.
Record t : Type := mk {
  repairID : Z;
  component : string;
  LB : Z;
  UB : Z;
  improvement : Z;
}.
End RepairBasicInfo.

Abbreviation RepairBasicInfoMat := (list RepairBasicInfo.t).

Module EnvCoef.
Record t (F : Type) : Type := mk {
  repairID : Z;
  repairMean : F;
  trafficMean : F;
}.
Arguments mk {F}.
Arguments repairID {F}.
Arguments repairMean {F}.
Arguments trafficMean {F}.
End EnvCoef.

Abbreviation EnvCoefMat F := (list (EnvCoef.t F)).

(** ** Input.cpp, [envInfoCompiler] (lines 229-277) and [readRepairCost]
       (lines 284-292) *)

Definition basic_not_found : string := "Repair Basic Info Not Found".
Definition env_not_found : string := "Repair Env Coeff Not Found".

Section Compilers.
Context {F : Type}.

(** Lines 242-253: the scan of [basicInfo], left by [break] at the first
    row with the repair's id and the requested component. *)
Fixpoint scanBasic (repairID : Z) (componentType : string)
    (basicInfo : RepairBasicInfoMat) (countBasic countBasicType : Z)
    (temp : RepairEnv F) : Z * Z * RepairEnv F :=
  match basicInfo with
  | [] => (countBasic, countBasicType, temp)
  | b :: basicInfo' =>
      if RepairBasicInfo.repairID b =? repairID then
        if String.eqb (RepairBasicInfo.component b) componentType then
          (countBasic + 1, countBasicType + 1,
           mkRepairEnv (Input.repairID temp) (RepairBasicInfo.LB b)
                       (RepairBasicInfo.UB b) (RepairBasicInfo.improvement b)
                       (Input.duration temp) (Input.repairMean temp)
                       (Input.trafficMean temp))
        else scanBasic repairID componentType basicInfo' (countBasic + 1)
                       countBasicType temp
      else scanBasic repairID componentType basicInfo' countBasic countBasicType temp
  end.

(** Lines 258-265: the scan of [envMat], left at the first row with the
    repair's id. *)
Fixpoint scanEnv (repairID : Z) (envMat : EnvCoefMat F) (countEnv : Z)
    (temp : RepairEnv F) : Z * RepairEnv F :=
  match envMat with
  | [] => (countEnv, temp)
  | e :: envMat' =>
      if EnvCoef.repairID e =? repairID then
        (countEnv + 1,
         mkRepairEnv (Input.repairID temp) (Input.LB temp) (Input.UB temp)
                     (Input.improvement temp) (Input.duration temp)
                     (EnvCoef.repairMean e) (EnvCoef.trafficMean e))
      else scanEnv repairID envMat' countEnv temp
  end.

(** Lines 233-273: the loop over [repairUserIn] from index [i] on.
    [temp0 i] is the indeterminate initial value of the local [temp] of
    iteration [i]. *)
Fixpoint envInfoLoop (temp0 : nat -> RepairEnv F) (componentType : string)
    (basicInfo : RepairBasicInfoMat) (envMat : EnvCoefMat F) (i : nat)
    (repairUserIn : RepairInfoMat F) (repairEnv : RepairEnvMat F)
  : outcome (RepairEnvMat F) :=
  match repairUserIn with
  | [] => Returned repairEnv
  | u :: repairUserIn' =>
      if RepairInfo.avail u then
        let temp :=
          mkRepairEnv (RepairInfo.repairID u) (Input.LB (temp0 i)) (Input.UB (temp0 i))
                      (Input.improvement (temp0 i)) (RepairInfo.duration u)
                      (Input.repairMean (temp0 i)) (Input.trafficMean (temp0 i)) in
        let '(countBasic, countBasicType, temp) :=
          scanBasic (RepairInfo.repairID u) componentType basicInfo 0 0 temp in
        if countBasic =? 0 then Raised basic_not_found
        else
          let '(countEnv, temp) := scanEnv (RepairInfo.repairID u) envMat 0 temp in
          if countEnv =? 0 then Raised env_not_found
          else if (countBasicType =? 1) && (countEnv =? 1)
               then envInfoLoop temp0 componentType basicInfo envMat (S i)
                                repairUserIn' (repairEnv ++ [temp])
               else envInfoLoop temp0 componentType basicInfo envMat (S i)
                                repairUserIn' repairEnv
      else envInfoLoop temp0 componentType basicInfo envMat (S i) repairUserIn'
                       repairEnv
  end.

Definition envInfoCompiler (temp0 : nat -> RepairEnv F) (repairUserIn : RepairInfoMat F)
    (componentType : string) (basicInfo : RepairBasicInfoMat) (envMat : EnvCoefMat F)
  : outcome (RepairEnvMat F) :=
  envInfoLoop temp0 componentType basicInfo envMat 0 repairUserIn [].

(** [costs[repairUserIn[i].repairID] = repairUserIn[i].cost] for the
    available repairs, in the order of [repairUserIn]. *)
Definition readRepairCost (repairUserIn : RepairInfoMat F) : CostMap F :=
  foldl (fun costs u =>
           if RepairInfo.avail u
           then <[RepairInfo.repairID u := RepairInfo.cost u]> costs
           else costs)
        ∅ repairUserIn.

(** The row [envInfoCompiler] builds for a repair: bounds and improvement
    of the first row of [basicInfo] with the repair's id and the requested
    component, means of the first row of [envMat] with the repair's id. *)
Definition compiledRow (componentType : string) (basicInfo : RepairBasicInfoMat)
    (envMat : EnvCoefMat F) (u : RepairInfo.t F) : option (RepairEnv F) :=
  if RepairInfo.avail u then
    b ← find (fun b => (RepairBasicInfo.repairID b =? RepairInfo.repairID u)
                       && String.eqb (RepairBasicInfo.component b) componentType)
             basicInfo;
    e ← find (fun e => EnvCoef.repairID e =? RepairInfo.repairID u) envMat;
    Some (mkRepairEnv (RepairInfo.repairID u) (RepairBasicInfo.LB b)
                      (RepairBasicInfo.UB b) (RepairBasicInfo.improvement b)
                      (RepairInfo.duration u) (EnvCoef.repairMean e)
                      (EnvCoef.trafficMean e))
  else None.

(** The repair has a row in [basicInfo] (for whatever component) and a row
    in [envMat]. *)
Definition documented (basicInfo : RepairBasicInfoMat) (envMat : EnvCoefMat F)
    (u : RepairInfo.t F) : Prop :=
  (exists b, b ∈ basicInfo /\ RepairBasicInfo.repairID b = RepairInfo.repairID u) /\
  (exists e, e ∈ envMat /\ EnvCoef.repairID e = RepairInfo.repairID u).

End Compilers.

(** ** LCO.h, [ComponentRatingMat]: the rating history of a component *)

Module ComponentRatingMat.
Record t : Type := mk { ratings : list Z; years : list Z }.
End ComponentRatingMat.

(** ** PolyFit.cpp

    The arrays are functions of their indices; the local arrays of
    [polyFit] start with indeterminate contents, and so does the local [p1]
    of [gaussianElimination] in every iteration (record [locals]). *)

Module PolyFit.

Record locals (Fl : Type) : Type := mkLocals {
  a0 : Z -> Fl;            (* [float a[10]] *)
  b0 : Z -> Z -> Fl;       (* [float b[10][10]] *)
  x0 : Z -> Fl;            (* [float x[15]] *)
  y0 : Z -> Fl;            (* [float y[15]] *)
  p1_0 : Z -> Z -> Fl;     (* [float p1] of the iteration [(k, i)] *)
}.
Arguments mkLocals {Fl}.
Arguments a0 {Fl}.
Arguments b0 {Fl}.
Arguments x0 {Fl}.
Arguments y0 {Fl}.
Arguments p1_0 {Fl}.

Section Fit.
Context {Fl : Type} {AF : Arith Fl}.

(** Lines 146-156.  [x] and [y] have 15 elements: a sixteenth sample is
    written past their end, and [ratings.years[i]] is read without a bound
    check. *)
Fixpoint readDataLoop (years : list Z) (rs : list Z) (i : Z) (x y : Z -> Fl)
  : outcome (Z * (Z -> Fl) * (Z -> Fl)) :=
  match rs with
  | [] => Returned (i, x, y)
  | r :: rs' =>
      match years !! Z.to_nat i, years !! 0%nat with
      | Some yi, Some y0 =>
          if 15 <=? i then Undefined
          else readDataLoop years rs' (i + 1) (set1 x i (of_int (yi - y0)))
                            (set1 y i (of_int r))
      | _, _ => Undefined
      end
  end.

Definition readData (x y : Z -> Fl) (ratings : ComponentRatingMat.t)
  : outcome (Z * (Z -> Fl) * (Z -> Fl)) :=
  readDataLoop (ComponentRatingMat.years ratings) (ComponentRatingMat.ratings ratings)
               0 x y.

(** Lines 66-72: the sum of [x[i]] raised to the power [k]. *)
Definition f (k n : Z) (x : Z -> Fl) : Fl :=
  foldl (fun sum i => (sum + fpow (x i) k)%fl) (of_int 0) (seqZ 0 n).

(** Lines 81-87. *)
Definition fy (k n : Z) (x y : Z -> Fl) : Fl :=
  foldl (fun sum i => (sum + y i * fpow (x i) k)%fl) (of_int 0) (seqZ 0 n).

(** Lines 132-138. *)
Definition F (l m : Z) (c : Z -> Fl) (b : Z -> Z -> Fl) : Fl :=
  foldl (fun sum i => (sum + b (l - 1)%Z i * c i)%fl) (of_int 0) (seqZ l (m - l + 1)).

(** Lines 102-106: row [i] minus [p1] times row [k], from column [k] on.
    [p1] keeps its indeterminate value when the pivot [b[k][k]] is 0. *)
Definition eliminate (p1 : Fl) (m k : Z) (b : Z -> Z -> Fl) (i : Z) : Z -> Z -> Fl :=
  let p1 := if negb (b k k =? of_int 0)%fl then (b i k / b k k)%fl else p1 in
  foldl (fun b j => set2 b i j (b i j - b k j * p1)%fl) b (seqZ k (m + 2 - k)).

(** Lines 96-124. *)
Definition gaussianElimination (p1 : Z -> Z -> Fl) (m : Z) (a : Z -> Fl)
    (b : Z -> Z -> Fl) : (Z -> Fl) * (Z -> Z -> Fl) :=
  let b := foldl (fun b k =>
                    foldl (fun b i => eliminate (p1 k i) m k b i) b
                          (seqZ (k + 1) (m - k)))
                 b (seqZ 1 (m - 1)) in
  let a := set1 a m (b m (m + 1)%Z / b m m)%fl in
  let a := foldl (fun a l =>
                    set1 a l ((b l (m + 1)%Z - F (l + 1)%Z m a b) / b l l)%fl)
                 a (countdown (m - 1) 1) in
  (a, b).

(** Lines 39-46: the augmented matrix of the normal equations. *)
Definition augmented (k n : Z) (x y : Z -> Fl) (b : Z -> Z -> Fl) : Z -> Z -> Fl :=
  let b := foldl (fun b i =>
                    set2 (foldl (fun b j => set2 b i j (f (i + j - 2) n x)) b (seqZ 1 k))
                         i (k + 1) (fy (i - 1) n x y))
                 b (seqZ 1 k) in
  set2 b 1 1 (of_int n).

(** Lines 30-57.  The result is [coeff[0], coeff[1], coeff[2]], that is
    [a[3], a[2], a[1]]. *)
Definition polyFit (st : locals Fl) (k : Z) (ratings : ComponentRatingMat.t)
  : outcome (Fl * Fl * Fl) :=
  match readData (x0 st) (y0 st) ratings with
  | Returned (n, x, y) =>
      let b := augmented k n x y (b0 st) in
      let a := (gaussianElimination (p1_0 st) k (a0 st) b).1 in
      Returned (a 3, a 2, a 1)
  | Raised msg => Raised msg
  | Undefined => Undefined
  | OutOfFuel => OutOfFuel
  end.

End Fit.
End PolyFit.

(** Input.cpp, [ratingDecay] with its call of [polyFit] (line 37). *)
Definition ratingDecayFit {F : Type} {AF : Arith F} (st : PolyFit.locals F)
    (timePoints : Z -> F) (ratingsDecay : Z -> Z -> Z)
    (ratings : ComponentRatingMat.t) (limit : Z) : outcome (Z -> Z -> Z) :=
  match PolyFit.polyFit st 3 ratings with
  | Returned coeff => ratingDecay timePoints ratingsDecay coeff limit
  | Raised msg => Raised msg
  | Undefined => Undefined
  | OutOfFuel => OutOfFuel
  end.

(** ** Output.cpp

    [SenStore.h] is generated code outside the sources; the enumerations
    are given the members the sources name. *)

Inductive EnvImpactType : Type :=
| EnvImpactTypeGHG | EnvImpactTypeOZONEDEP | EnvImpactTypeSOx | EnvImpactTypeEUTPOT
| EnvImpactTypeHEAVYMET | EnvImpactTypeCarcinogens | EnvImpactTypeSUMSMOG
| EnvImpactTypeWINSMOG | EnvImpactTypeEnergy | EnvImpactTypeSOLWASTE
| EnvImpactTypeCOST.

Inductive Unit : Type := UnitMJ | UnitMoneyUSD | UnitKILOGRAM.

(** Lines 52-92.  The [switch] has no [default]: [impactType] keeps its
    indeterminate initial value for another [optObj]. *)
Definition findEnvImpactType (impactType : EnvImpactType) (optObj : Z) : EnvImpactType :=
  match optObj with
  | 1 => EnvImpactTypeGHG
  | 2 => EnvImpactTypeOZONEDEP
  | 3 => EnvImpactTypeSOx
  | 4 => EnvImpactTypeEUTPOT
  | 5 => EnvImpactTypeHEAVYMET
  | 6 => EnvImpactTypeCarcinogens
  | 7 => EnvImpactTypeSUMSMOG
  | 8 => EnvImpactTypeWINSMOG
  | 9 => EnvImpactTypeEnergy
  | 10 => EnvImpactTypeSOLWASTE
  | 11 => EnvImpactTypeCOST
  | _ => impactType
  end.

(** Lines 99-114. *)
Definition findUnit (optObj : Z) : Unit :=
  match optObj with
  | 9 => UnitMJ
  | 11 => UnitMoneyUSD
  | _ => UnitKILOGRAM
  end.

(** [struct tm], the fields [sysDate] reads. *)
Record tm : Type := mkTm { tm_year : Z; tm_mon : Z; tm_mday : Z }.

(** Lines 127-133, on the [tm] that [localtime] returned. *)
Definition sysDate (ltm : tm) : Z :=
  let year := 1900 + tm_year ltm in
  let month := 1 + tm_mon ltm in
  let day := tm_mday ltm in
  year * 10000 + month * 100 + day.

(** Input.cpp line 399, [allAssess[j].mAssessmentDate/10000]: the year of
    a date in the format of [sysDate].  (The division truncates; for a
    date that is not negative the quotient is the same whether the field
    is an integer or a [double] converted to [int] afterwards.) *)
Definition assessmentYear (mAssessmentDate : Z) : Z := Z.quot mAssessmentDate 10000.

(** ** Input.h and LCO.h: the inputs of the service *)

Inductive StructureComponentType : Type :=
| StructureComponentTypeDeck
| StructureComponentTypeAbutment
| StructureComponentTypePinHanger
| StructureComponentTypeSpan
| StructureComponentTypeColumn
| StructureComponentTypeOther.   (* any other value of the enumeration *)

Module ServerInput.
Record t (F : Type) : Type := mk {
  bridgeWidth : F;
  bridgeLength : F;
  componentType : StructureComponentType;
}.
Arguments mk {F}.
Arguments bridgeWidth {F}.
Arguments bridgeLength {F}.
Arguments componentType {F}.
End ServerInput.

Module UserInput.
Record t (F : Type) : Type := mk {
  bridgeID : Z;
  componentID : Z;
  optObject : Z;
  ratingLowerLimit : Z;
  bridgeAADT : F;
  bridgeAADTT : F;
  startYear : Z;
  startRating : Z;
  discountRate : F;
  trafficGrowthRate : F;
}.
Arguments mk {F}.
Arguments bridgeID {F}.
Arguments componentID {F}.
Arguments optObject {F}.
Arguments ratingLowerLimit {F}.
Arguments bridgeAADT {F}.
Arguments bridgeAADTT {F}.
Arguments startYear {F}.
Arguments startRating {F}.
Arguments discountRate {F}.
Arguments trafficGrowthRate {F}.
End UserInput.

(** Input.cpp lines 209-222. *)
Definition bridgeInfoCompiler {F : Type} (userIn : UserInput.t F)
    (serverIn : ServerInput.t F) : BridgeInfo F :=
  mkBridgeInfo (ServerInput.bridgeWidth serverIn) (ServerInput.bridgeLength serverIn)
               (UserInput.bridgeID userIn) (UserInput.bridgeAADT userIn)
               (UserInput.bridgeAADTT userIn) (UserInput.trafficGrowthRate userIn)
               (UserInput.discountRate userIn) (UserInput.startRating userIn)
               (UserInput.startYear userIn).

(** ** blackBox.cpp, [BlackBoxI::optSchedule] (lines 26-160)

    The operation reads from the data server and from the data files, and
    writes to the data server.  The embedding takes what it reads as an
    argument ([reads]) and returns the arguments of the call of
    [writeToServer] together with the local [optSchedule]; it starts where
    all the reads have succeeded. *)

#[export] Instance outcome_bind : MBind outcome :=
  fun A B (k : A -> outcome B) (o : outcome A) =>
    match o with
    | Returned a => k a
    | Raised msg => Raised msg
    | Undefined => Undefined
    | OutOfFuel => OutOfFuel
    end.

Definition unidentified : string := "Unidentified ComponentType".

Module BlackBoxI.

(** What [readServerInput], [readRatings], [readRepairBasicInfo],
    [readEnvCoef] and [sysDate] return. *)
Record reads (F : Type) : Type := mkReads {
  serverIn : ServerInput.t F;
  ServerRatings : ComponentRatingMat.t;
  repairs : RepairBasicInfoMat;
  envCos : EnvCoefMat F;
  date : Z;
}.
Arguments mkReads {F}.
Arguments serverIn {F}.
Arguments ServerRatings {F}.
Arguments repairs {F}.
Arguments envCos {F}.
Arguments date {F}.

(** The indeterminate values of the locals of the functions called; the
    four calls of a scheduler and of [envInfoCompiler] each have their
    own. *)
Record indeterminate (F : Type) : Type := mkIndeterminate {
  impactType0 : EnvImpactType;
  fit : PolyFit.locals F;
  timePoints0 : Z -> F;
  ratingsDecay0 : Z -> Z -> Z;
  temp0 : Z -> nat -> RepairEnv F;
  stack0 : Z -> stack F;
}.
Arguments mkIndeterminate {F}.
Arguments impactType0 {F}.
Arguments fit {F}.
Arguments timePoints0 {F}.
Arguments ratingsDecay0 {F}.
Arguments temp0 {F}.
Arguments stack0 {F}.

(** The arguments of [writeToServer]. *)
Record written (F : Type) : Type := mkWritten {
  w_bridgeID : Z;
  w_componentID : Z;
  w_objective : Z;
  w_date : Z;
  w_indicator : EnvImpactType;
  w_unit : Unit;
  w_value : F;
}.
Arguments mkWritten {F}.
Arguments w_bridgeID {F}.
Arguments w_componentID {F}.
Arguments w_objective {F}.
Arguments w_date {F}.
Arguments w_indicator {F}.
Arguments w_unit {F}.
Arguments w_value {F}.

Section OptSchedule.
Context {F : Type} {AI : ArithInf F}.

(** Lines 47-62. *)
Definition impMat : ImproveMat F :=
  [mkImpCoef 4 (of_int 15 / of_int 100)%fl; mkImpCoef 5 (of_int 1 / of_int 10)%fl;
   mkImpCoef 6 (of_int 5 / of_int 100)%fl].

(** Lines 88-122: the catalogs of the component. *)
Definition catalogs (ind : indeterminate F) (io : reads F)
    (repairUserIn : RepairInfoMat F)
  : outcome (RepairEnvMat F * RepairEnvMat F * RepairEnvMat F * RepairEnvMat F) :=
  let compile k type :=
    envInfoCompiler (temp0 ind k) repairUserIn type (repairs io) (envCos io) in
  match ServerInput.componentType (serverIn io) with
  | StructureComponentTypeDeck =>
      envMat ← compile 1 "Deck"%string; Returned (envMat, [], [], [])
  | StructureComponentTypeAbutment =>
      envMat ← compile 1 "Foundation"%string; Returned (envMat, [], [], [])
  | StructureComponentTypePinHanger =>
      envMat ← compile 1 "PinHanger"%string; Returned (envMat, [], [], [])
  | StructureComponentTypeSpan =>
      envMat ← compile 1 "Deck"%string;
      envMat2 ← compile 2 "Barrier"%string;
      envMat3 ← compile 3 "Joint"%string;
      envMat4 ← compile 4 "Other"%string;
      Returned (envMat, envMat2, envMat3, envMat4)
  | StructureComponentTypeColumn =>
      envMat ← compile 1 "Column"%string; Returned (envMat, [], [], [])
  | StructureComponentTypeOther => Raised unidentified
  end.

(** Lines 131 and 144: one call of the scheduler of the objective, on an
    empty schedule. *)
Definition schedule (ind : indeterminate F) (k : Z) (optObj : Z) (bridge : BridgeInfo F)
    (ratingsDecay : Z -> Z -> Z) (envMat : RepairEnvMat F) (costs : CostMap F)
    (limit : Z) (fuel : nat) : outcome (result F) :=
  if optObj =? 11
  then findOptCostSchedule (stack0 ind k) bridge ratingsDecay envMat costs impMat limit
                           fuel []
  else findOptEnvSchedule (stack0 ind k) bridge ratingsDecay envMat impMat limit fuel [].

Definition optSchedule (ind : indeterminate F) (fuel : nat) (io : reads F)
    (userIn : UserInput.t F) (repairUserIn : RepairInfoMat F)
  : outcome (written F * RepairSchedule) :=
  let optObj := UserInput.optObject userIn in
  let objective := optObj - 1 in
  let impactType := findEnvImpactType (impactType0 ind) optObj in
  let unit := findUnit optObj in
  let limit := UserInput.ratingLowerLimit userIn in
  ratingsDecay ← ratingDecayFit (fit ind) (timePoints0 ind) (ratingsDecay0 ind)
                                (ServerRatings io) limit;
  let bridge := bridgeInfoCompiler userIn (serverIn io) in
  let costs := readRepairCost repairUserIn in
  '(envMat, envMat2, envMat3, envMat4) ← catalogs ind io repairUserIn;
  let write minCost :=
    mkWritten (UserInput.bridgeID userIn) (UserInput.componentID userIn) objective
              (date io) impactType unit minCost in
  r ← schedule ind 1 optObj bridge ratingsDecay envMat costs limit fuel;
  match ServerInput.componentType (serverIn io) with
  | StructureComponentTypeSpan =>
      r2 ← schedule ind 2 optObj bridge ratingsDecay envMat2 costs limit fuel;
      r3 ← schedule ind 3 optObj bridge ratingsDecay envMat3 costs limit fuel;
      r4 ← schedule ind 4 optObj bridge ratingsDecay envMat4 costs limit fuel;
      let minCost :=
        (minTotalCost r + minTotalCost r2 + minTotalCost r3 + minTotalCost r4)%fl in
      merged ← mergeFourSched (optSchedule r) (optSchedule r2)
                              (optSchedule r3) (optSchedule r4);
      Returned (write minCost, merged)
  | _ => Returned (write (minTotalCost r), optSchedule r)
  end.

(** The results of the four calls of the scheduler for a span: the decay
    table was derived, the four catalogs were compiled, and the call for
    the [k]-th catalog returned [rk]. *)
Definition span_runs (ind : indeterminate F) (fuel : nat) (io : reads F)
    (userIn : UserInput.t F) (repairUserIn : RepairInfoMat F)
    (r1 r2 r3 r4 : result F) : Prop :=
  let optObj := UserInput.optObject userIn in
  let limit := UserInput.ratingLowerLimit userIn in
  let bridge := bridgeInfoCompiler userIn (serverIn io) in
  let costs := readRepairCost repairUserIn in
  exists ratingsDecay envMat envMat2 envMat3 envMat4,
    ratingDecayFit (fit ind) (timePoints0 ind) (ratingsDecay0 ind) (ServerRatings io)
                   limit = Returned ratingsDecay /\
    catalogs ind io repairUserIn = Returned (envMat, envMat2, envMat3, envMat4) /\
    schedule ind 1 optObj bridge ratingsDecay envMat costs limit fuel = Returned r1 /\
    schedule ind 2 optObj bridge ratingsDecay envMat2 costs limit fuel = Returned r2 /\
    schedule ind 3 optObj bridge ratingsDecay envMat3 costs limit fuel = Returned r3 /\
    schedule ind 4 optObj bridge ratingsDecay envMat4 costs limit fuel = Returned r4.

End OptSchedule.
End BlackBoxI.

(** ** Sample inputs of the compilers *)

(** Repair 5 entered twice, repair 9 not available (and in no file),
    repair 6 a joint repair. *)
Definition user_repairs : RepairInfoMat binary32 :=
  [RepairInfo.mk 5 true 1 (b32_of_int 100); RepairInfo.mk 9 false 2 (b32_of_int 50);
   RepairInfo.mk 6 true 2 (b32_of_int 70); RepairInfo.mk 5 true 3 (b32_of_int 120)].

Definition basic_rows : RepairBasicInfoMat :=
  [RepairBasicInfo.mk 5 "Deck" 4 6 2; RepairBasicInfo.mk 6 "Joint" 3 7 1].

Definition env_rows : EnvCoefMat binary32 :=
  [EnvCoef.mk 5 (b32_of_int 11) (b32_of_int 12);
   EnvCoef.mk 6 (b32_of_int 13) (b32_of_int 14)].

(** ** Sample inputs of the service

    Four inspections, ten years apart, on the curve [9 - t^2/100]; one
    repair for each component type of a span. *)
Definition locals_b32 : PolyFit.locals binary32 :=
  PolyFit.mkLocals (fun _ => b32_of_int 0) (fun _ _ => b32_of_int 0)
                   (fun _ => b32_of_int 0) (fun _ => b32_of_int 0)
                   (fun _ _ => b32_of_int 0).

Definition history_decades : ComponentRatingMat.t :=
  ComponentRatingMat.mk [9; 8; 5; 0] [2000; 2010; 2020; 2030].

Definition indeterminate_b32 : BlackBoxI.indeterminate binary32 :=
  BlackBoxI.mkIndeterminate EnvImpactTypeGHG locals_b32 (fun _ => b32_of_int 0)
    (fun _ _ => 0) (fun _ _ => mkRepairEnv 0 0 0 0 0 (b32_of_int 0) (b32_of_int 0))
    (fun _ => stack_sentinel).

Definition service_basic : RepairBasicInfoMat :=
  [RepairBasicInfo.mk 5 "Deck" 4 6 2; RepairBasicInfo.mk 6 "Joint" 4 6 2;
   RepairBasicInfo.mk 17 "Barrier" 4 6 2; RepairBasicInfo.mk 11 "Other" 4 6 2].

Definition service_env : EnvCoefMat binary32 :=
  [EnvCoef.mk 5 (b32_of_int 1) (b32_of_int 2); EnvCoef.mk 6 (b32_of_int 3) (b32_of_int 4);
   EnvCoef.mk 17 (b32_of_int 5) (b32_of_int 6);
   EnvCoef.mk 11 (b32_of_int 7) (b32_of_int 8)].

(** [barrier] tells whether the barrier repair is available. *)
Definition service_user (barrier : bool) : RepairInfoMat binary32 :=
  [RepairInfo.mk 5 true 1 (b32_of_int 100); RepairInfo.mk 6 true 1 (b32_of_int 70);
   RepairInfo.mk 17 barrier 1 (b32_of_int 120); RepairInfo.mk 11 true 1 (b32_of_int 30)].

Definition service_reads (c : StructureComponentType) : BlackBoxI.reads binary32 :=
  BlackBoxI.mkReads (ServerInput.mk (b32_of_int 8) (b32_of_int 10) c) history_decades
                    service_basic service_env 20121208.

Definition service_input (optObject : Z) : UserInput.t binary32 :=
  UserInput.mk 3 1 optObject 4 (b32_of_int 1000) (b32_of_int 100) 2000 7
               (b32_of_int 0) (b32_of_int 0).

(** * Part II: properties *)

Section MergeFacts.

Lemma pickMin_spec cs : forall i min mi,
  Forall consistent cs ->
  exists m mi', pickMin i cs min mi = Some (m, mi') /\
    ((mi' = mi /\ m = min /\
      forall k c y, cs !! k = Some c -> head_year c = Some y -> min < y)
     \/
     (exists k c, mi' = (i + k)%nat /\ cs !! k = Some c /\ head_year c = Some m /\
        m <= min /\
        forall k' c' y, cs !! k' = Some c' -> head_year c' = Some y ->
                        m <= y /\ (y = m -> (k' <= k)%nat))).
Proof.
  induction cs as [|c cs IH]; intros i min mi Hok; simpl.
  - exists min, mi. split; [done|]. left. repeat split; auto.
    intros k c y Hk. by rewrite lookup_nil in Hk.
  - apply Forall_cons in Hok as [Hc Hok].
    destruct (ended c) eqn:He.
    + destruct (IH (S i) min mi Hok) as (m & mi' & Hp & Hs).
      exists m, mi'. split; [done|].
      destruct Hs as [(-> & -> & Hall) | (k & c0 & -> & Hk & Hh & Hle & Hall)].
      * left. repeat split; auto. intros [|k] c0 y Hk Hy; simpl in Hk.
        -- injection Hk as <-. unfold head_year in Hy. by rewrite He in Hy.
        -- eauto.
      * right. exists (S k), c0. repeat split; auto; try lia.
        -- destruct k' as [|k']; simpl in H.
           ++ injection H as <-. unfold head_year in H0. by rewrite He in H0.
           ++ eapply Hall; eauto.
        -- destruct k' as [|k']; simpl in H; [lia|].
           intros. destruct (Hall k' c' y H H0). lia.
    + destruct (rest c) as [|p tl] eqn:Hr.
      { destruct Hc as [_ Hc]. rewrite Hc in He; [done|done]. }
      assert (Hhc : head_year c = Some (Pair.repairYear p)).
      { unfold head_year. by rewrite He, Hr. }
      destruct (Z.leb_spec (Pair.repairYear p) min) as [Hle|Hgt].
      * destruct (IH (S i) (Pair.repairYear p) i Hok) as (m & mi' & Hp & Hs).
        exists m, mi'. split; [done|]. right.
        destruct Hs as [(-> & -> & Hall) | (k & c0 & -> & Hk & Hh & Hle' & Hall)].
        -- exists 0%nat, c. repeat split; auto; try lia.
           ++ destruct k' as [|k']; simpl in H.
              ** injection H as <-. rewrite Hhc in H0. injection H0 as <-. lia.
              ** specialize (Hall _ _ _ H H0). lia.
           ++ destruct k' as [|k']; [lia|]. simpl in H.
              specialize (Hall _ _ _ H H0). lia.
        -- exists (S k), c0. repeat split; auto; try lia.
           ++ destruct k' as [|k']; simpl in H.
              ** injection H as <-. rewrite Hhc in H0. injection H0 as <-. lia.
              ** eapply Hall; eauto.
           ++ destruct k' as [|k']; [lia|]. simpl in H.
              intros. destruct (Hall _ _ _ H H0). lia.
      * destruct (IH (S i) min mi Hok) as (m & mi' & Hp & Hs).
        exists m, mi'. split; [done|].
        destruct Hs as [(-> & -> & Hall) | (k & c0 & -> & Hk & Hh & Hle' & Hall)].
        -- left. repeat split; auto. intros [|k] c0 y Hk Hy; simpl in Hk.
           ++ injection Hk as <-. rewrite Hhc in Hy. injection Hy as <-. lia.
           ++ eauto.
        -- right. exists (S k), c0. repeat split; auto; try lia.
           ++ destruct k' as [|k']; simpl in H.
              ** injection H as <-. rewrite Hhc in H0. injection H0 as <-. lia.
              ** eapply Hall; eauto.
           ++ destruct k' as [|k']; [lia|]. simpl in H.
              intros. destruct (Hall _ _ _ H H0). lia.
Qed.


Lemma remaining_insert cs k c p tl :
  cs !! k = Some c -> rest c = p :: tl ->
  remaining cs = S (remaining (<[k := advance c]> cs)).
Proof.
  revert k. induction cs as [|c0 cs IH]; intros [|k] Hk Hr; simpl in *; try done.
  - injection Hk as ->. unfold advance. rewrite Hr. simpl. lia.
  - rewrite (IH k Hk Hr). lia.
Qed.

Lemma head_year_Some c y :
  head_year c = Some y ->
  ended c = false /\ exists p tl, rest c = p :: tl /\ Pair.repairYear p = y.
Proof.
  unfold head_year. destruct (ended c); [done|]. destruct (rest c) as [|p tl]; [done|].
  simpl. intros [= <-]. eauto.
Qed.

Lemma forallb_ended_false cs :
  forallb ended cs = false -> exists k c, cs !! k = Some c /\ ended c = false.
Proof.
  induction cs as [|c cs IH]; simpl; [done|].
  destruct (ended c) eqn:He; simpl.
  - intros H. destruct (IH H) as (k & c' & ? & ?). by exists (S k), c'.
  - intros _. by exists 0%nat, c.
Qed.

Lemma mergeLoop_sorted fuel : forall cs result,
  merge_inv cs result -> (remaining cs < fuel)%nat ->
  exists tr, mergeLoop fuel cs result = Returned tr /\ StronglySorted code_order tr.
Proof.
  induction fuel as [|fuel IH]; intros cs result Hinv Hfuel; [lia|].
  destruct Hinv as (Hlen & Hcons & Hasc & Hres & Hbound).
  simpl. destruct (forallb ended cs) eqn:Hall; [exists result; by split|].
  destruct (pickMin_spec cs 0 9999 5 Hcons) as (m & mi' & -> & Hs).
  destruct Hs as [(-> & _ & _) | (k & c & -> & Hk & Hh & Hle & Hmin)]; [simpl; exists result; by split|].
  simpl. assert (Hk4 : (k < 4)%nat).
  { rewrite <- Hlen. by apply lookup_lt_Some in Hk. }
  destruct (Nat.eqb_spec k 5) as [|_]; [lia|].
  rewrite Hk. destruct (head_year_Some _ _ Hh) as (He & p & tl & Hr & Hy).
  rewrite Hr. apply IH.
  - assert (Hsc : ascending (p :: tl)).
    { rewrite <- Hr. exact (Forall_lookup_1 _ _ _ _ Hasc Hk). }
    apply StronglySorted_inv in Hsc as [Htl Hptl].
    split; [|split; [|split; [|split]]].
    + by rewrite length_insert.
    + apply Forall_insert; [done|]. unfold advance, consistent. rewrite Hr. simpl.
      destruct tl; simpl; [done|]. rewrite He. split; done.
    + apply Forall_insert; [done|]. unfold advance. by rewrite Hr.
    + apply StronglySorted_app_2; [|done|repeat constructor].
      intros a b Ha Hb. apply list_elem_of_singleton in Hb as ->.
      eapply Hbound; eauto. rewrite Hr. left.
    + intros a k' c' q Ha Hk' Hq.
      assert (Hq' : exists c0, cs !! k' = Some c0 /\ q ∈ rest c0 /\
                               (k' = k -> q ∈ tl)).
      { destruct (decide (k = k')) as [<-|Hne].
        - rewrite list_lookup_insert_eq in Hk' by (by eapply lookup_lt_Some).
          injection Hk' as <-. unfold advance in Hq. rewrite Hr in Hq. simpl in Hq.
          exists c. rewrite Hr. split; [done|]. split; [by right|done].
        - rewrite list_lookup_insert_ne in Hk' by done.
          exists c'. split; [done|]. split; [done|]. intros ->. done. }
      destruct Hq' as (c0 & Hk0 & Hq0 & Hsame).
      apply elem_of_app in Ha as [Ha|Ha]; [eapply Hbound; eauto|].
      apply list_elem_of_singleton in Ha as ->. unfold code_order; simpl.
      destruct (decide (k' = k)) as [->|Hne].
      * specialize (Hsame eq_refl). rewrite Forall_forall in Hptl.
        apply Hptl in Hsame. unfold year_le in Hsame. split; [done|lia].
      * destruct (ended c0) eqn:He0.
        { assert (rest c0 = []) as Hnil.
          { by apply (Forall_lookup_1 _ _ _ _ Hcons Hk0). }
          rewrite Hnil in Hq0. by apply elem_of_nil in Hq0. }
        destruct (rest c0) as [|p0 tl0] eqn:Hr0; [by apply elem_of_nil in Hq0|].
        assert (Hh0 : head_year c0 = Some (Pair.repairYear p0)).
        { unfold head_year. by rewrite He0, Hr0. }
        destruct (Hmin _ _ _ Hk0 Hh0) as [Hm1 Hm2].
        assert (Pair.repairYear p0 <= Pair.repairYear q) as Hpq.
        { assert (Hsc0 : ascending (p0 :: tl0)).
          { rewrite <- Hr0. exact (Forall_lookup_1 _ _ _ _ Hasc Hk0). }
          apply StronglySorted_inv in Hsc0 as [_ Hall0].
          apply elem_of_cons in Hq0 as [->|Hq0]; [lia|].
          rewrite Forall_forall in Hall0. by apply Hall0. }
        split; [lia|]. intros Heq. apply Hm2. lia.
  - rewrite (remaining_insert cs k c p tl Hk Hr) in Hfuel. lia.
Qed.


Lemma ascending_map_snd (tr : list (nat * Pair.t)) :
  StronglySorted code_order tr -> ascending (map snd tr).
Proof.
  induction 1 as [|a l Hl IH Ha]; simpl; constructor; [done|].
  apply Forall_fmap. eapply Forall_impl; [exact Ha|]. by intros b [Hb _].
Qed.

Lemma higher_index_first_of_code_order (tr : list (nat * Pair.t)) :
  StronglySorted code_order tr -> higher_index_first tr.
Proof.
  induction 1 as [|a l Hl IH Ha]; constructor; [done|].
  eapply Forall_impl; [exact Ha|]. by intros b [_ Hb].
Qed.

(** The ghost tags are sound: an entry tagged [k] is an entry of the
    [k]-th input. *)
Lemma mergeLoop_tags (inputs : list RepairSchedule) fuel : forall cs result tr,
  (forall k c, cs !! k = Some c -> exists v, inputs !! k = Some v /\ rest c ⊆ v) ->
  tags_sound inputs result ->
  mergeLoop fuel cs result = Returned tr ->
  tags_sound inputs tr.
Proof.
  induction fuel as [|fuel IH]; intros cs result tr Hcs Hres; simpl.
  - destruct (forallb ended cs); [by intros [= <-]|done].
  - destruct (forallb ended cs); [by intros [= <-]|].
    destruct (pickMin 0 cs 9999 5) as [[m k]|]; [|done].
    destruct (Nat.eqb k 5); [by intros [= <-]|].
    destruct (cs !! k) as [c|] eqn:Hk; [|done].
    destruct (rest c) as [|p tl] eqn:Hr; [done|].
    destruct (Hcs k c Hk) as (v & Hv & Hsub).
    apply IH.
    + intros k' c' Hk'. destruct (decide (k = k')) as [<-|Hne].
      * rewrite list_lookup_insert_eq in Hk' by (by eapply lookup_lt_Some).
        injection Hk' as <-. exists v. split; [done|].
        unfold advance. rewrite Hr. simpl. rewrite Hr in Hsub.
        intros q Hq. apply Hsub. by right.
      * rewrite list_lookup_insert_ne in Hk' by done. eauto.
    + apply Forall_app. split; [done|]. constructor; [|constructor].
      exists v. split; [done|]. apply Hsub. rewrite Hr. left.
Qed.

End MergeFacts.

(** C2 (amended).  For four non-empty inputs, each in ascending order of
    [repairYear], [mergeFourSched] returns a schedule in ascending order of
    [repairYear]; among entries of equal [repairYear] taken from different
    inputs, the entry of the HIGHER-indexed input comes first (the scan at
    line 383 compares with [<=], so a later input with the same year
    replaces an earlier one). *)
Theorem mergeFourSched_ascending_higher_index_first
    (vec1 vec2 vec3 vec4 : RepairSchedule) :
  vec1 <> [] -> vec2 <> [] -> vec3 <> [] -> vec4 <> [] ->
  ascending vec1 -> ascending vec2 -> ascending vec3 -> ascending vec4 ->
  exists tr,
    mergeTrace vec1 vec2 vec3 vec4 = Returned tr /\
    mergeFourSched vec1 vec2 vec3 vec4 = Returned (map snd tr) /\
    tags_sound [vec1; vec2; vec3; vec4] tr /\
    ascending (map snd tr) /\
    higher_index_first tr.
Proof.
  intros N1 N2 N3 N4 A1 A2 A3 A4.
  destruct (mergeLoop_sorted
              (S (length vec1 + length vec2 + length vec3 + length vec4))
              [mkCursor vec1 false; mkCursor vec2 false;
               mkCursor vec3 false; mkCursor vec4 false] []) as (tr & Htr & Hs).
  - split; [done|]. split; [|split; [|split]].
    + repeat constructor; simpl; try done; by intros ->.
    + by repeat constructor.
    + constructor.
    + intros a k c q Ha. by apply elem_of_nil in Ha.
  - simpl. lia.
  - exists tr. unfold mergeFourSched, mergeTrace. rewrite Htr. simpl.
    split; [done|]. split; [done|]. split; [|split].
    + eapply mergeLoop_tags; [| |exact Htr]; [|constructor].
      intros [|[|[|[|k]]]] c Hk; simpl in Hk; try done;
        injection Hk as <-; simpl; eauto.
    + by apply ascending_map_snd.
    + by apply higher_index_first_of_code_order.
Qed.

(** The theorem on a merge in which inputs 2 and 3 share the year 2005. *)
Lemma mergeFourSched_ascending_higher_index_first_witness :
  exists tr,
    mergeTrace [Pair.mk 1 2001; Pair.mk 1 2010] [Pair.mk 2 2005]
               [Pair.mk 3 2005] [Pair.mk 4 2020] = Returned tr /\
    mergeFourSched [Pair.mk 1 2001; Pair.mk 1 2010] [Pair.mk 2 2005]
                   [Pair.mk 3 2005] [Pair.mk 4 2020] = Returned (map snd tr) /\
    tags_sound [[Pair.mk 1 2001; Pair.mk 1 2010]; [Pair.mk 2 2005];
                [Pair.mk 3 2005]; [Pair.mk 4 2020]] tr /\
    ascending (map snd tr) /\
    higher_index_first tr.
Proof.
  apply mergeFourSched_ascending_higher_index_first;
    try discriminate; repeat constructor; unfold year_le; simpl; lia.
Defined.

(** C2 (counterexample).  Inputs 1 and 2 both hold an entry of year 2020;
    the entry of input 2 is pushed before the entry of input 1. *)
Lemma mergeFourSched_lower_index_not_first :
  ascending [Pair.mk 1 2020] /\ ascending [Pair.mk 2 2020] /\
  ascending [Pair.mk 3 2030] /\ ascending [Pair.mk 4 2040] /\
  mergeTrace [Pair.mk 1 2020] [Pair.mk 2 2020] [Pair.mk 3 2030] [Pair.mk 4 2040]
  = Returned [(1%nat, Pair.mk 2 2020); (0%nat, Pair.mk 1 2020);
              (2%nat, Pair.mk 3 2030); (3%nat, Pair.mk 4 2040)] /\
  mergeFourSched [Pair.mk 1 2020] [Pair.mk 2 2020] [Pair.mk 3 2030] [Pair.mk 4 2040]
  = Returned [Pair.mk 2 2020; Pair.mk 1 2020; Pair.mk 3 2030; Pair.mk 4 2040] /\
  ~ lower_index_first [(1%nat, Pair.mk 2 2020); (0%nat, Pair.mk 1 2020);
                       (2%nat, Pair.mk 3 2030); (3%nat, Pair.mk 4 2040)].
Proof.
  repeat split; try (repeat constructor).
  intros H. apply StronglySorted_inv in H as [_ H].
  apply Forall_inv in H. simpl in H. specialize (H eq_refl). lia.
Qed.

Lemma pickMin_past_the_end cs : forall i min min_i,
  Exists (fun c => ended c = false /\ rest c = []) cs ->
  pickMin i cs min min_i = None.
Proof.
  induction cs as [|c cs IH]; intros i min min_i Hex; [by apply Exists_nil in Hex|].
  simpl. apply Exists_cons in Hex as [[He Hr]|Hex].
  - by rewrite He, Hr.
  - destruct (ended c); [by apply IH|].
    destruct (rest c); [done|]. destruct (_ <=? _); by apply IH.
Qed.

Lemma mergeLoop_past_the_end fuel cs result :
  Exists (fun c => ended c = false /\ rest c = []) cs ->
  mergeLoop (S fuel) cs result = Undefined.
Proof.
  intros Hex. cbn [mergeLoop].
  rewrite (pickMin_past_the_end cs 0 9999 5 Hex).
  destruct (forallb ended cs) eqn:Hall; [|done].
  rewrite forallb_forall in Hall. apply Exists_exists in Hex as (c & Hc & He & _).
  apply list_elem_of_In in Hc. apply Hall in Hc. congruence.
Qed.

(** C8 (the code at the failing inputs).  [ends[j]] starts as [false] for
    every input (lines 372-374), so the first scan reads
    [itStart[j]->repairYear] of an empty input: with four empty schedules,
    and with one non-empty schedule at any of the four positions, the run is
    undefined instead of returning the empty, respectively the non-empty,
    schedule. *)
Theorem mergeFourSched_empty_input_undefined :
  mergeFourSched [] [] [] [] = Undefined /\
  forall v : RepairSchedule,
    mergeFourSched v [] [] [] = Undefined /\
    mergeFourSched [] v [] [] = Undefined /\
    mergeFourSched [] [] v [] = Undefined /\
    mergeFourSched [] [] [] v = Undefined.
Proof.
  split; [reflexivity|]. intros v.
  assert (Hbad : forall c : cursor,
             c = mkCursor [] false -> ended c = false /\ rest c = []) by (by intros c ->).
  unfold mergeFourSched, mergeTrace.
  rewrite !mergeLoop_past_the_end; [done|..].
  - apply Exists_cons_hd. by apply Hbad.
  - apply Exists_cons_hd. by apply Hbad.
  - apply Exists_cons_hd. by apply Hbad.
  - apply Exists_cons_tl, Exists_cons_hd. by apply Hbad.
Qed.

(** ** [ratingDecay] *)

Section DecayFacts.
Context {F : Type} {AF : Arith F}.

Lemma elem_of_countdown hi lo k : k ∈ countdown hi lo <-> lo <= k <= hi.
Proof.
  unfold countdown. rewrite list_elem_of_fmap. split.
  - intros (n & -> & Hn). apply list_elem_of_In, in_seq in Hn. lia.
  - intros Hk. exists (Z.to_nat (hi - k)). split; [lia|].
    apply list_elem_of_In, in_seq. lia.
Qed.

Lemma foldl_set1 {A : Type} (f : Z -> A) (l : list Z) : forall (t : Z -> A) k,
  foldl (fun t i => set1 t i (f i)) t l k = if decide (k ∈ l) then f k else t k.
Proof.
  induction l as [|x l IH]; intros t k; simpl.
  - destruct (decide (k ∈ [])) as [H|_]; [by apply elem_of_nil in H|done].
  - rewrite IH. unfold set1.
    destruct (decide (k ∈ l)) as [Hl|Hl], (decide (k ∈ x :: l)) as [Hxl|Hxl];
      try done.
    + exfalso. apply Hxl. by right.
    + apply elem_of_cons in Hxl as [->|?]; [|done]. by rewrite decide_True.
    + rewrite decide_False; [done|]. intros ->. apply Hxl. left.
Qed.

Lemma foldl_set2_row {A : Type} (g : Z -> A) (i : Z) (l : list Z) :
  forall (t : Z -> Z -> A) i' j',
  foldl (fun t j => set2 t i j (g j)) t l i' j'
  = if decide (i' = i /\ j' ∈ l) then g j' else t i' j'.
Proof.
  induction l as [|x l IH]; intros t i' j'; simpl.
  - destruct (decide (i' = i /\ j' ∈ [])) as [[_ H]|_]; [by apply elem_of_nil in H|done].
  - rewrite IH. unfold set2.
    destruct (decide (i' = i /\ j' ∈ l)) as [[-> Hl]|Hl].
    + rewrite decide_True; [done|]. split; [done|by right].
    + destruct (decide (i' = i /\ j' = x)) as [[-> ->]|Hx].
      * rewrite decide_True; [done|]. split; [done|left].
      * rewrite decide_False; [done|]. intros [-> Hj].
        apply elem_of_cons in Hj as [->|Hj]; [by apply Hx|by apply Hl].
Qed.

Lemma foldl_set2 {A : Type} (g : Z -> Z -> A) (row : Z -> list Z) (l : list Z) :
  forall (t : Z -> Z -> A) i' j',
  foldl (fun t i => foldl (fun t j => set2 t i j (g i j)) t (row i)) t l i' j'
  = if decide (i' ∈ l /\ j' ∈ row i') then g i' j' else t i' j'.
Proof.
  induction l as [|x l IH]; intros t i' j'; simpl.
  - destruct (decide (i' ∈ [] /\ j' ∈ row i')) as [[H _]|_]; [by apply elem_of_nil in H|done].
  - rewrite IH, foldl_set2_row.
    destruct (decide (i' ∈ l /\ j' ∈ row i')) as [[Hl Hr]|Hl].
    + rewrite decide_True; [done|]. split; [by right|done].
    + destruct (decide (i' = x /\ j' ∈ row x)) as [[-> Hr]|Hx].
      * rewrite decide_True; [done|]. split; [left|done].
      * rewrite decide_False; [done|]. intros [Hi Hr].
        apply elem_of_cons in Hi as [->|Hi]; [by apply Hx|by apply Hl].
Qed.

(** The two loops of lines 57-70 in closed form. *)
Lemma fillTimePoints_spec (a b c0 : F) limit tp i :
  limit <= i <= 9 -> fillTimePoints a b c0 limit tp i = timePoint a b c0 i.
Proof.
  intros Hi. unfold fillTimePoints.
  rewrite (foldl_set1 (timePoint a b c0)). rewrite decide_True; [done|].
  by apply elem_of_countdown.
Qed.

Lemma fillDecay_spec limit (tp : Z -> F) rd i j :
  limit <= j -> j <= i -> i <= 9 ->
  fillDecay limit tp rd i j = ffloor (tp j - tp i)%fl.
Proof.
  intros H1 H2 H3. unfold fillDecay.
  rewrite (foldl_set2 (fun i j => ffloor (tp j - tp i)%fl) (fun i => countdown i limit)).
  rewrite decide_True; [done|]. split; apply elem_of_countdown; lia.
Qed.

Lemma fillDecay_frame limit (tp : Z -> F) rd i j :
  ~ (limit <= j /\ j <= i /\ i <= 9) -> fillDecay limit tp rd i j = rd i j.
Proof.
  intros H. unfold fillDecay.
  rewrite (foldl_set2 (fun i j => ffloor (tp j - tp i)%fl) (fun i => countdown i limit)).
  rewrite decide_False; [done|]. rewrite !elem_of_countdown. lia.
Qed.

Lemma ratingDecay_Returned tp rd0 (a b c : F) limit rd :
  ratingDecay tp rd0 (a, b, c) limit = Returned rd ->
  validate a b c limit = Returned tt /\
  forall i j, limit <= j -> j <= i -> i <= 9 ->
              rd i j = ffloor (timePoint a b c j - timePoint a b c i)%fl.
Proof.
  unfold ratingDecay. destruct (validate a b c limit) as [[]| | |] eqn:Hv; try done.
  intros [= <-]. split; [done|]. intros i j H1 H2 H3.
  rewrite fillDecay_spec by done. rewrite !fillTimePoints_spec by lia. done.
Qed.

(** C1 (amended).  The derivation fails with the low-range error exactly
    when the fitted parabola opens upward ([a > 0]) and its vertex rating is
    strictly ABOVE the floor [limit]; it fails with the high-range error
    exactly when [a > 0] does not hold and the vertex rating is strictly
    BELOW 9; in every other case (upward with vertex at or below the floor,
    not upward with vertex at or above 9) it succeeds.  The statement holds
    for every arithmetic [F]. *)
Theorem ratingDecay_raises_iff tp rd0 (a b c : F) limit :
  (ratingDecay tp rd0 (a, b, c) limit = Raised low_data <->
     (a >? of_int 0)%fl = true /\ (vertex a b c >? of_int limit)%fl = true) /\
  (ratingDecay tp rd0 (a, b, c) limit = Raised high_data <->
     (a >? of_int 0)%fl = false /\ (vertex a b c <? of_int 9)%fl = true) /\
  ((exists rd, ratingDecay tp rd0 (a, b, c) limit = Returned rd) <->
     ((a >? of_int 0)%fl = true /\ (vertex a b c >? of_int limit)%fl = false) \/
     ((a >? of_int 0)%fl = false /\ (vertex a b c <? of_int 9)%fl = false)).
Proof.
  unfold ratingDecay, validate.
  destruct (a >? of_int 0)%fl, (vertex a b c >? of_int limit)%fl,
    (vertex a b c <? of_int 9)%fl; simpl;
    repeat split; try discriminate; try tauto; eauto;
    try (intros [rd Hrd]; discriminate);
    try (intros [[? ?]|[? ?]]; discriminate).
Qed.

End DecayFacts.

(** C1 (counterexample), in binary32.  With [a = 1], [b = 0], [c = 3] and
    floor 4 the parabola opens upward and its vertex rating 3 is below the
    floor, yet the derivation succeeds; with [c = 5] the vertex rating 5
    exceeds the floor and the derivation fails with the low-range error.
    With [a = -1], [b = 0], [c = 8] the vertex rating 8 is below 9 and the
    derivation fails with the high-range error; with [c = 9] the vertex
    rating is 9 and the derivation succeeds. *)
Lemma ratingDecay_validation_inverted :
  ((b32_of_int 1 >? b32_of_int 0)%fl = true /\
   (vertex (b32_of_int 1) (b32_of_int 0) (b32_of_int 3) <? b32_of_int 4)%fl = true /\
   exists rd, ratingDecay (fun _ => b32_of_int 0) (fun _ _ => 0)
                          (b32_of_int 1, b32_of_int 0, b32_of_int 3) 4 = Returned rd) /\
  ((vertex (b32_of_int 1) (b32_of_int 0) (b32_of_int 5) >? b32_of_int 4)%fl = true /\
   ratingDecay (fun _ => b32_of_int 0) (fun _ _ => 0)
               (b32_of_int 1, b32_of_int 0, b32_of_int 5) 4 = Raised low_data) /\
  ((b32_of_int (-1) >? b32_of_int 0)%fl = false /\
   (vertex (b32_of_int (-1)) (b32_of_int 0) (b32_of_int 8) <? b32_of_int 9)%fl = true /\
   ratingDecay (fun _ => b32_of_int 0) (fun _ _ => 0)
               (b32_of_int (-1), b32_of_int 0, b32_of_int 8) 4 = Raised high_data) /\
  ((vertex (b32_of_int (-1)) (b32_of_int 0) (b32_of_int 9) <? b32_of_int 9)%fl = false /\
   exists rd, ratingDecay (fun _ => b32_of_int 0) (fun _ _ => 0)
                          (b32_of_int (-1), b32_of_int 0, b32_of_int 9) 4 = Returned rd).
Proof.
  repeat split; try (vm_compute; reflexivity); eexists; reflexivity.
Qed.

(** The table of the curve [rating = 9 - t^2] with floor 5, in binary32. *)
Example ratingDecay_binary32_ex :
  exists rd : Z -> Z -> Z,
    ratingDecay (fun _ => b32_of_int 0) (fun _ _ => 0)
                (b32_of_int (-1), b32_of_int 0, b32_of_int 9) 5 = Returned rd /\
    map (rd 9) [9; 8; 7; 6; 5] = [0; 1; 1; 1; 2].
Proof. eexists. split; [reflexivity|]. vm_compute. reflexivity. Qed.

(** ** Rounding in binary32

    The results of [SFsub] on finite numbers, read as integers in units
    of [2^-149]. *)

(** *** Digits, shifts and the shift register of the rounding *)

Lemma digits2_pos_log2 (m : positive) :
  Zpos (digits2_pos m) = Z.log2 (Zpos m) + 1.
Proof.
  induction m as [m IH|m IH|]; simpl digits2_pos; [| |reflexivity].
  - rewrite Pos2Z.inj_succ, IH. change (Z.pos m~1) with (2 * Z.pos m + 1).
    rewrite Z.log2_succ_double by lia. lia.
  - rewrite Pos2Z.inj_succ, IH. change (Z.pos m~0) with (2 * Z.pos m).
    rewrite Z.log2_double by lia. lia.
Qed.

Lemma log2_bounds (M : Z) : 0 < M -> 2 ^ Z.log2 M <= M < 2 ^ (Z.log2 M + 1).
Proof. intros H. replace (Z.log2 M + 1) with (Z.succ (Z.log2 M)) by lia. by apply Z.log2_spec. Qed.













(** *** [binary_round_aux] *)

Lemma fexp32 (x : Z) : fexp 24 128 x = Z.max (x - 24) (-149).
Proof. reflexivity. Qed.




(** *** [binary_round] and [binary_normalize] *)




Lemma b32_round_0 : b32_round 0 = 0.
Proof. reflexivity. Qed.


(** *** Numbers in canonical form *)

Lemma valid_finite (s : bool) (m : positive) (e : Z) :
  valid_binary 24 128 (S754_finite s m e) = true ->
  -149 <= e /\ Z.log2 (Zpos m) + 1 <= 24 /\ (-149 < e -> Z.log2 (Zpos m) = 23).
Proof.
  cbn [valid_binary]. unfold bounded, canonical_mantissa.
  intros [H _]%andb_true_iff. apply Z.eqb_eq in H.
  rewrite digits2_pos_log2, fexp32 in H. lia.
Qed.



(** *** [SFsub] *)


(** *** [floor] *)


(** *** The order *)

Lemma valid_lt (m1 m2 : positive) (e1 e2 : Z) :
  valid_binary 24 128 (S754_finite false m1 e1) = true ->
  valid_binary 24 128 (S754_finite false m2 e2) = true ->
  e1 < e2 -> Zpos m1 * 2 ^ (e1 + 149) < Zpos m2 * 2 ^ (e2 + 149).
Proof.
  intros (H1 & L1 & _)%valid_finite (H2 & _ & N2)%valid_finite He.
  pose proof (log2_bounds (Zpos m1) ltac:(lia)) as B1.
  pose proof (log2_bounds (Zpos m2) ltac:(lia)) as B2.
  rewrite N2 in B2 by lia.
  assert (Zpos m1 < 2 ^ 24).
  { eapply Z.lt_le_trans; [apply B1|]. apply Z.pow_le_mono_r; lia. }
  assert (A : 2 ^ 24 * 2 ^ (e1 + 149) <= 2 ^ 23 * 2 ^ (e2 + 149)).
  { rewrite <- !Z.pow_add_r by lia. apply Z.pow_le_mono_r; lia. }
  assert (0 < 2 ^ (e1 + 149)) by lia. assert (0 < 2 ^ (e2 + 149)) by lia.
  nia.
Qed.

Lemma SFleb_units (x y : binary32) :
  valid_binary 24 128 x = true -> valid_binary 24 128 y = true ->
  b32_is_finite x = true -> b32_is_finite y = true ->
  SFleb x y = true -> b32_units x <= b32_units y.
Proof.
  intros Vx Vy Fx Fy. unfold SFleb, SFcompare.
  destruct x as [sx|sx| |sx mx ex]; try done;
    destruct y as [sy|sy| |sy my ey]; try done.
  - destruct (valid_finite _ _ _ Vy) as (He & _). assert (0 < 2 ^ (ey + 149)) by lia.
    destruct sy; [done|]. intros _. cbn. lia.
  - destruct (valid_finite _ _ _ Vx) as (He & _). assert (0 < 2 ^ (ex + 149)) by lia.
    destruct sx; [|done]. intros _. cbn. lia.
  - destruct (valid_finite _ _ _ Vx) as (Hex & _).
    destruct (valid_finite _ _ _ Vy) as (Hey & _).
    assert (0 < 2 ^ (ex + 149)) by lia. assert (0 < 2 ^ (ey + 149)) by lia.
    assert (Vx' : valid_binary 24 128 (S754_finite false mx ex) = true) by done.
    assert (Vy' : valid_binary 24 128 (S754_finite false my ey) = true) by done.
    unfold b32_units. destruct sx, sy; cbn [cond_Zopp]; try done.
    + destruct (Z.compare_spec ex ey) as [->|Hlt|Hgt]; [| done|].
      * rewrite Pos.compare_cont_spec. cbn [Pos.switch_Eq].
        destruct (Pos.compare_spec mx my); try done; intros _; nia.
      * intros _. pose proof (valid_lt _ _ _ _ Vy' Vx' Hgt). lia.
    + intros _. nia.
    + destruct (Z.compare_spec ex ey) as [->|Hlt|Hgt]; [| |done].
      * rewrite Pos.compare_cont_spec. cbn [Pos.switch_Eq].
        destruct (Pos.compare_spec mx my); try done; intros _; nia.
      * intros _. pose proof (valid_lt _ _ _ _ Vx' Vy' Hlt). lia.
Qed.

(** *** The rounding is monotone *)






(** *** [floor] of a difference *)


(** ** Rounding with a location

    [binary_round_aux] on a mantissa [m] with a location [l] rounds the
    integer [4 * m + loc_code l], whose two low digits stand for the part of
    the value below [m]. *)








(** *** Values with the same digits above a position

    The rounding at a position above [k] reads the digits below [k] only
    through their being all zero or not. *)






(** *** The rounding is monotone *)







(** *** From the sign and the magnitude to the signed value *)



(** *** [SFmul] *)



(** *** [SFdiv] *)












(** *** [SFsqrt] *)







(** *** The results are in canonical form *)








(** *** A finite result has finite operands *)





(** *** The operations keep the order *)











(** ** The decay table in binary32 *)

(** *** The time points (line 60) *)




(** *** The table (lines 64-70) *)





(** ** [calEnvImpact] *)

Section ValuationFacts.
Context {F : Type} {AF : Arith F}.

Lemma applies_spec (repairID rating : Z) (r : RepairEnv F) :
  applies repairID rating r = true <->
  Input.repairID r = repairID /\ LB r <= rating <= UB r.
Proof. unfold applies. rewrite !andb_true_iff. lia. Qed.

Lemma find_applies_None (repairID rating : Z) (repairs : RepairEnvMat F) :
  (forall r, r ∈ repairs ->
             ~ (Input.repairID r = repairID /\ LB r <= rating <= UB r)) ->
  find (applies repairID rating) repairs = None.
Proof.
  induction repairs as [|r repairs IH]; intros Hno; simpl; [done|].
  destruct (applies repairID rating r) eqn:Hr.
  - apply applies_spec in Hr. exfalso. apply (Hno r); [left|done].
  - apply IH. intros r' Hr'. apply Hno. by right.
Qed.

(** C4 (amended).  For every call of [calEnvImpact], whatever the category
    of [repairID]: when no catalog row has that [repairID] with bounds
    [LB..UB] containing [rating], the function returns [0.0f], the value
    its local [CO2] is initialised with at line 42.  The result is a
    function of the arguments alone (the embedding is a total function: no
    exception is raised and nothing is kept from one call to the next), so
    it is a defined "no contribution" value and not a value reused from an
    earlier iteration; it is independent of the indeterminate [impCoeff]. *)
Theorem calEnvImpact_no_match (impCoeff : F) (bridge : BridgeInfo F)
    (year repairID rating : Z) (repairs : RepairEnvMat F) (impMat : ImproveMat F) :
  (forall r, r ∈ repairs ->
             ~ (Input.repairID r = repairID /\ LB r <= rating <= UB r)) ->
  calEnvImpact impCoeff bridge year repairID rating repairs impMat = of_int 0.
Proof.
  intros Hno. unfold calEnvImpact. rewrite (find_applies_None _ _ _ Hno).
  destruct (categoryOf repairID) as [[]|]; reflexivity.
Qed.

End ValuationFacts.

(** The theorem on the catalog [catalog_5] (repair 5, ratings 4 to 6) at
    rating 7. *)
Lemma calEnvImpact_no_match_witness :
  calEnvImpact (b32_of_int 3) bridge_10x8 0 5 7 catalog_5 [] = b32_of_int 0.
Proof.
  refine (calEnvImpact_no_match (b32_of_int 3) bridge_10x8 0 5 7 catalog_5 [] _).
  intros r Hr. apply list_elem_of_singleton in Hr as ->. simpl. lia.
Defined.

(** C4 (counterexample).  Two calls in a row: the first, at rating 5, finds
    the row and returns [1 * 10 * 8 = 80]; the second, at rating 7, finds no
    row and returns [0], not the 80 of the call before it. *)
Lemma calEnvImpact_not_stale :
  calEnvImpact (b32_of_int 3) bridge_10x8 0 5 5 catalog_5 [] = b32_of_int 80 /\
  find (applies 5 7) catalog_5 = None /\
  calEnvImpact (b32_of_int 3) bridge_10x8 0 5 7 catalog_5 [] = b32_of_int 0 /\
  calEnvImpact (b32_of_int 3) bridge_10x8 0 5 7 catalog_5 []
  <> calEnvImpact (b32_of_int 3) bridge_10x8 0 5 5 catalog_5 [].
Proof. repeat split; try (vm_compute; reflexivity). vm_compute. discriminate. Qed.

(** ** The dynamic programme *)

Section SchedulerFacts.
Context {F : Type} {AI : ArithInf F}.
Variable st : stack F.
Variable v : variant F.
Variable bridge : BridgeInfo F.
Variable ratingsDecay : Z -> Z -> Z.
Variable repairs : RepairEnvMat F.
Variable impMat : ImproveMat F.
Variable limit : Z.

Local Abbreviation kStep' := (kStep st v bridge repairs impMat).
Local Abbreviation jStep' := (jStep st v bridge repairs impMat).
Local Abbreviation iBody' := (iBody st v bridge repairs impMat limit).
Local Abbreviation iLoop' := (iLoop st v bridge ratingsDecay repairs impMat limit).
Local Abbreviation cell' := (cell st v bridge ratingsDecay repairs impMat limit).
Local Abbreviation fill' := (fill st v bridge ratingsDecay repairs impMat limit).
Local Abbreviation boundary' := (boundary bridge ratingsDecay limit).
Local Abbreviation filled' := (filled st v bridge ratingsDecay repairs impMat limit).
Local Abbreviation considered' := (considered v ratingsDecay).

(** *** Reading after writing *)

Lemma getX_setPre T x y px py pr x' y' :
  getX st (setPre T x y px py pr) x' y'
  = if decide ((x', y') = (x, y)) then px else getX st T x' y'.
Proof.
  unfold getX, setPre; simpl. rewrite lookup_insert.
  destruct (decide ((x, y) = (x', y'))) as [->|Hne].
  - by rewrite decide_True.
  - rewrite decide_False; [done|]. congruence.
Qed.

Lemma getY_setPre T x y px py pr x' y' :
  getY st (setPre T x y px py pr) x' y'
  = if decide ((x', y') = (x, y)) then py else getY st T x' y'.
Proof.
  unfold getY, setPre; simpl. rewrite lookup_insert.
  destruct (decide ((x, y) = (x', y'))) as [->|Hne].
  - by rewrite decide_True.
  - rewrite decide_False; [done|]. congruence.
Qed.

Lemma getRepair_setPre T x y px py pr x' y' :
  getRepair st (setPre T x y px py pr) x' y'
  = if decide ((x', y') = (x, y)) then pr else getRepair st T x' y'.
Proof.
  unfold getRepair, setPre; simpl. rewrite lookup_insert.
  destruct (decide ((x, y) = (x', y'))) as [->|Hne].
  - by rewrite decide_True.
  - rewrite decide_False; [done|]. congruence.
Qed.

(** *** The acceptance test *)

(** C5.  In the body of the loop over [j] of both variants, with
    [tempCost = M[yearDecay][j] + repairCost] the tentative value:
    - when [tempCost] improves on the current minimum ([<=] in the impact
      variant, [<] in the cost variant), [tempCost != 0] and
      [preX[yearDecay][j] != yearDecay], it becomes the minimum and
      [(yearDecay, j, repairId)] is recorded for [(year, rating)];
    - in every other case the minimum and the arrays are left as they
      were, so a replacement happens only for a non-zero [tempCost] and a
      predecessor whose own predecessor year differs from [yearDecay];
    - the comparison is [<=] for the impact variant and [<] for the cost
      variant. *)
Theorem jStep_acceptance (year rating i yearDecay : Z) (s : jstate F) (j : Z) :
  let rc := foldl (kStep' i j yearDecay) (js_repairCost s, js_repairId s) repairs in
  let tempCost := (getM st (js_tables s) yearDecay j + fst rc)%fl in
  let s' := jStep' year rating i yearDecay s j in
  (improves v tempCost (js_min s) = true /\
   (tempCost =? of_int 0)%fl = false /\
   getX st (js_tables s) yearDecay j <> yearDecay ->
   js_min s' = tempCost /\
   js_tables s' = setPre (js_tables s) year rating yearDecay j (snd rc)) /\
  (~ (improves v tempCost (js_min s) = true /\
      (tempCost =? of_int 0)%fl = false /\
      getX st (js_tables s) yearDecay j <> yearDecay) ->
   js_min s' = js_min s /\ js_tables s' = js_tables s) /\
  (forall a b : F, improves (@Env F) a b = (a <=? b)%fl) /\
  (forall (costs : CostMap F) (a b : F), improves (Cost costs) a b = (a <? b)%fl).
Proof.
  cbn zeta. unfold jStep, accepts.
  destruct (foldl _ _ repairs) as [repairCost repairId]. cbn [fst snd].
  destruct (improves v _ _) eqn:E1; destruct (feqb _ _) eqn:E2;
    destruct (Z.eqb_spec (getX st (js_tables s) yearDecay j) yearDecay) as [E3|E3];
    cbn [andb negb js_min js_tables];
    (split; [|split; [|split]]); try reflexivity;
    try (intros (H1 & H2 & H3); first [done | congruence]);
    try (intros Hn; split; reflexivity);
    try (intros Hn; exfalso; apply Hn; auto).
Qed.

(** *** The range of [i] *)

Lemma iLoop_untilBreak (year rating : Z) (ivals : list Z) : forall T min,
  iLoop' year rating ivals T min
  = foldl (fun a i => iBody' year rating i (year - ratingsDecay i rating) a.1 a.2)
          (T, min) (untilBreak ratingsDecay year rating ivals).
Proof.
  induction ivals as [|i ivals IH]; intros T min; [reflexivity|].
  cbn [iLoop untilBreak].
  destruct (year - ratingsDecay i rating <? 0); [reflexivity|].
  cbn [foldl fst snd].
  destruct (iBody _ _ _ _ _ _ _ _ _ _ _) as [T' min']. apply IH.
Qed.

(** The body of the loop over [i] at a cell runs exactly for the values
    in [considered], in that order. *)
Lemma cell_considered (year rating : Z) (T : tables F) :
  cell' year T rating
  = if (rating <=? startRating bridge)
       && (ratingsDecay (startRating bridge) rating >=? year)
    then T
    else
      let a := foldl (fun a i =>
                        iBody' year rating i (year - ratingsDecay i rating) a.1 a.2)
                     (T, infinity) (considered' year rating) in
      setM a.1 year rating a.2.
Proof.
  unfold cell, considered. destruct (_ && _); [done|].
  rewrite iLoop_untilBreak. by destruct (foldl _ _ _).
Qed.

Lemma elem_of_untilBreak (year rating : Z) (ivals : list Z) (i : Z) :
  i ∈ untilBreak ratingsDecay year rating ivals -> i ∈ ivals.
Proof.
  induction ivals as [|i0 ivals IH]; simpl; [done|].
  destruct (_ <? 0); [by intros ?%elem_of_nil|].
  intros [->|?]%elem_of_cons; [left|right; auto].
Qed.

(** C6 (amended).  At every cell that is not fixed by the boundary the
    impact variant considers only prior ratings [i] with
    [rating + 1 <= i <= 8]; the cost variant considers only [i] with
    [rating <= i <= 8], and it does consider [i = rating] whenever
    [rating <= 8] and [year - ratingsDecay[rating][rating] >= 0]. *)
Theorem considered_range (year rating : Z) :
  (forall i, i ∈ considered v ratingsDecay year rating ->
             match v with
             | Env => rating + 1 <= i <= 8
             | Cost _ => rating <= i <= 8
             end) /\
  match v with
  | Env => rating ∉ considered v ratingsDecay year rating
  | Cost _ => rating ∈ considered v ratingsDecay year rating <->
              rating <= 8 /\ 0 <= year - ratingsDecay rating rating
  end.
Proof.
  assert (Hin : forall i, i ∈ considered' year rating ->
                          iStart v rating <= i <= 8).
  { intros i Hi. apply elem_of_untilBreak, elem_of_seqZ in Hi. lia. }
  split.
  - intros i Hi. apply Hin in Hi. destruct v; simpl in Hi; lia.
  - destruct v as [|costs].
    + intros Hi. apply Hin in Hi. simpl in Hi. lia.
    + split.
      * intros Hi. pose proof (Hin _ Hi) as Hr. simpl in Hr.
        split; [lia|]. unfold considered in Hi. simpl in Hi.
        rewrite seqZ_cons in Hi by lia. simpl in Hi.
        destruct (Z.ltb_spec (year - ratingsDecay rating rating) 0) as [Hlt|Hge];
          [by apply elem_of_nil in Hi|done].
      * intros [Hr Hy]. unfold considered. simpl.
        rewrite seqZ_cons by lia. simpl.
        destruct (Z.ltb_spec (year - ratingsDecay rating rating) 0) as [Hlt|Hge];
          [lia|left].
Qed.

(** *** Predecessor pointers written by the filling *)

Section Pointers.
Variable P : Z -> Z -> Z -> Z -> Prop.
Hypothesis P_sentinel : forall x y, P x y (-1) 0.
Hypothesis P_transition : forall year rating i j,
  0 <= year <= 100 -> limit <= rating <= 8 ->
  iStart v rating <= i <= 8 -> limit <= j < i ->
  0 <= year - ratingsDecay i rating ->
  P year rating (year - ratingsDecay i rating) j.

Lemma pointers_setM T x y c : pointers st P T -> pointers st P (setM T x y c).
Proof. intros H x' y'. apply H. Qed.

Lemma pointers_setPre T x y px py pr :
  pointers st P T -> P x y px py -> pointers st P (setPre T x y px py pr).
Proof.
  intros H Hp x' y'. rewrite getX_setPre, getY_setPre.
  destruct (decide ((x', y') = (x, y))) as [[= -> ->]|_]; [done|apply H].
Qed.

Lemma foldl_invariant {A B : Type} (I : A -> Prop) (f : A -> B -> A) (l : list B) :
  (forall a b, b ∈ l -> I a -> I (f a b)) -> forall a, I a -> I (foldl f a l).
Proof.
  induction l as [|b l IH]; intros Hf a Ha; simpl; [done|].
  apply IH; [|apply Hf; [left|done]]. intros a' b' Hb'. apply Hf. by right.
Qed.

Lemma pointers_initM T : pointers st P T -> pointers st P (initM T).
Proof.
  unfold initM. apply (foldl_invariant (pointers st P)). intros T1 i _.
  apply (foldl_invariant (pointers st P)). intros T2 j _. apply pointers_setM.
Qed.

Lemma pointers_boundary T : pointers st P T -> pointers st P (boundary' T).
Proof.
  unfold boundary. apply (foldl_invariant (pointers st P)). intros T1 rating _.
  apply (foldl_invariant (pointers st P)). intros T2 year _.
  unfold boundaryRow. apply (foldl_invariant (pointers st P)). intros T3 i _ H3.
  apply pointers_setPre; [by apply pointers_setM|apply P_sentinel].
Qed.

Lemma pointers_jStep year rating i s j :
  P year rating (year - ratingsDecay i rating) j ->
  pointers st P (js_tables s) ->
  pointers st P (js_tables (jStep' year rating i (year - ratingsDecay i rating) s j)).
Proof.
  intros Hp Hs. unfold jStep. destruct (foldl _ _ repairs) as [rc rid].
  destruct (accepts _ _ _ _ _ _); simpl; [by apply pointers_setPre|done].
Qed.

Lemma pointers_iBody year rating i T min :
  0 <= year <= 100 -> limit <= rating <= 8 -> iStart v rating <= i <= 8 ->
  0 <= year - ratingsDecay i rating ->
  pointers st P T ->
  pointers st P (iBody' year rating i (year - ratingsDecay i rating) T min).1.
Proof.
  intros Hy Hr Hi Hd HT. unfold iBody. simpl.
  apply (foldl_invariant (fun s => pointers st P (js_tables s))); [|done].
  intros s j Hj Hs. apply pointers_jStep; [|done].
  apply elem_of_seqZ in Hj. apply P_transition; lia.
Qed.

Lemma pointers_cell year rating T :
  0 <= year <= 100 -> limit <= rating <= 8 ->
  pointers st P T -> pointers st P (cell' year T rating).
Proof.
  intros Hy Hr HT. rewrite cell_considered. destruct (_ && _); [done|].
  cbn zeta. apply pointers_setM.
  apply (foldl_invariant (fun a : tables F * F => pointers st P a.1)); [|done].
  intros [T1 min1] i Hi H1. cbn [fst snd] in *.
  assert (Hi' : iStart v rating <= i <= 8).
  { apply elem_of_untilBreak, elem_of_seqZ in Hi. lia. }
  assert (Hd : 0 <= year - ratingsDecay i rating).
  { clear -Hi. unfold considered in Hi.
    induction (seqZ (iStart v rating) (9 - iStart v rating)) as [|i0 l IH];
      simpl in Hi; [by apply elem_of_nil in Hi|].
    destruct (Z.ltb_spec (year - ratingsDecay i0 rating) 0) as [?|Hge];
      [by apply elem_of_nil in Hi|].
    apply elem_of_cons in Hi as [->|Hi]; [done|by apply IH]. }
  by apply pointers_iBody.
Qed.

Lemma pointers_fill T : pointers st P T -> pointers st P (fill' T).
Proof.
  unfold fill. apply (foldl_invariant (pointers st P)). intros T1 year Hy.
  apply (foldl_invariant (pointers st P)). intros T2 rating Hr.
  apply elem_of_seqZ in Hy, Hr. apply pointers_cell; lia.
Qed.

(** Every cell of the filled arrays satisfies [P] as soon as the cells never
    written do. *)
Lemma pointers_filled :
  (forall x y, P x y (stack_preX st x y) (stack_preY st x y)) ->
  pointers st P filled'.
Proof.
  intros Hst. unfold filled. apply pointers_fill, pointers_boundary, pointers_initM.
  intros x y. unfold getX, getY; simpl. rewrite !lookup_empty. apply Hst.
Qed.

End Pointers.

(** *** Termination of the walks *)

Lemma descends_filled :
  decay_positive v ratingsDecay limit ->
  (forall x y, stack_preX st x y < 0) ->
  pointers st (descends limit) filled'.
Proof.
  intros [Hpos Hdiag] Hst. apply pointers_filled.
  - intros x y. by left.
  - intros year rating i j Hy Hr Hi Hj Hd. right. split; [lia|].
    destruct (decide (i = rating)) as [->|Hne].
    + destruct v as [|costs]; simpl in Hi; [lia|].
      specialize (Hdiag rating ltac:(lia)). lia.
    + assert (rating < i) by (destruct v; simpl in Hi; lia).
      specialize (Hpos i rating ltac:(lia) ltac:(lia) ltac:(lia)). lia.
  - intros x y. left. apply Hst.
Qed.

Section Walks.
Variable T : tables F.
Hypothesis HT : pointers st (descends limit) T.

Lemma walk_in_range (n : nat) : forall x y,
  limit <= y <= 7 -> x * (8 - limit) + (y - limit) < Z.of_nat n ->
  is_Some (walk st n T x y).
Proof.
  induction n as [|n IH]; intros x y Hy Hn; simpl.
  - destruct (Z.geb_spec (getX st T x y) 0) as [Hge|Hlt]; [|by eexists].
    exfalso. destruct (HT x y) as [?|[? ?]]; nia.
  - destruct (Z.geb_spec (getX st T x y) 0) as [Hge|Hlt]; [|by eexists].
    apply fmap_is_Some. destruct (HT x y) as [?|[Hpy Hpx]]; [lia|].
    apply IH; [done|]. nia.
Qed.

Lemma walk_terminates (n : nat) (x y : Z) :
  Z.max 0 (x + 1) * (8 - limit) < Z.of_nat n -> is_Some (walk st n T x y).
Proof.
  intros Hn. destruct n as [|n]; simpl.
  - destruct (Z.geb_spec (getX st T x y) 0) as [Hge|Hlt]; [|by eexists].
    exfalso. destruct (HT x y) as [?|[? ?]]; nia.
  - destruct (Z.geb_spec (getX st T x y) 0) as [Hge|Hlt]; [|by eexists].
    apply fmap_is_Some. destruct (HT x y) as [?|[Hpy Hpx]]; [lia|].
    apply walk_in_range; [done|]. nia.
Qed.

Lemma collect_in_range (n : nat) : forall x y,
  limit <= y <= 7 -> x * (8 - limit) + (y - limit) < Z.of_nat n ->
  is_Some (collect st bridge n T x y).
Proof.
  induction n as [|n IH]; intros x y Hy Hn; simpl.
  - destruct (Z.gtb_spec (getX st T x y) (-1)) as [Hge|Hlt]; [|by eexists].
    exfalso. destruct (HT x y) as [?|[? ?]]; nia.
  - destruct (Z.gtb_spec (getX st T x y) (-1)) as [Hge|Hlt]; [|by eexists].
    destruct (getRepair st T x y >? 0); simpl; [|by eexists].
    apply fmap_is_Some. destruct (HT x y) as [?|[Hpy Hpx]]; [lia|].
    apply IH; [done|]. nia.
Qed.

Lemma collect_terminates (n : nat) (x y : Z) :
  Z.max 0 (x + 1) * (8 - limit) < Z.of_nat n -> is_Some (collect st bridge n T x y).
Proof.
  intros Hn. destruct n as [|n]; simpl.
  - destruct (Z.gtb_spec (getX st T x y) (-1)) as [Hge|Hlt]; [|by eexists].
    exfalso. destruct (HT x y) as [?|[? ?]]; nia.
  - destruct (Z.gtb_spec (getX st T x y) (-1)) as [Hge|Hlt]; [|by eexists].
    destruct (getRepair st T x y >? 0); simpl; [|by eexists].
    apply fmap_is_Some. destruct (HT x y) as [?|[Hpy Hpx]]; [lia|].
    apply collect_in_range; [done|]. nia.
Qed.

Lemma finals_terminates (n : nat) :
  101 * (8 - limit) < Z.of_nat n -> is_Some (finals st limit n T).
Proof.
  intros Hn. unfold finals. apply (foldl_invariant is_Some); [|by eexists].
  intros acc i _ [[[m o] f] ->]. unfold finalStep. simpl.
  destruct (walk_terminates n 100 i) as [rows ->]; [lia|].
  destruct (_ <? _)%fl; simpl; by eexists.
Qed.

End Walks.

(** *** The walk of the reconstruction *)

Lemma chain_succ_r (T : tables F) (n : nat) (x y : Z) :
  chain st T (S n) x y = chain st T n (getX st T x y) (getY st T x y).
Proof. unfold chain. by rewrite Nat.iter_succ_r. Qed.

(** [collect] returns the entries of the cells met along the chain, in
    the order of the walk, up to the first cell whose predecessor year is
    not above -1 or whose repair is not above 0. *)
Lemma collect_spec (T : tables F) (fuel : nat) : forall x y temp,
  collect st bridge fuel T x y = Some temp ->
  (forall n p, temp !! n = Some p ->
     let c := chain st T n x y in
     getX st T c.1 c.2 > -1 /\ getRepair st T c.1 c.2 > 0 /\
     p = Pair.mk (getRepair st T c.1 c.2) (getX st T c.1 c.2 + startYear bridge)) /\
  (let c := chain st T (length temp) x y in
   getX st T c.1 c.2 <= -1 \/ getRepair st T c.1 c.2 <= 0).
Proof.
  induction fuel as [|fuel IH]; intros x y temp; simpl.
  - destruct (Z.gtb_spec (getX st T x y) (-1)) as [Hx|Hx];
      destruct (Z.gtb_spec (getRepair st T x y) 0) as [Hr|Hr]; simpl; try done;
      intros [= <-]; (split; [by intros n p ?|simpl; lia]).
  - destruct (Z.gtb_spec (getX st T x y) (-1)) as [Hx|Hx];
      destruct (Z.gtb_spec (getRepair st T x y) 0) as [Hr|Hr]; simpl;
      try (intros [= <-]; (split; [by intros n p ?|simpl; lia])).
    destruct (collect st bridge fuel T _ _) as [temp'|] eqn:Hc; [|done].
    simpl. intros [= <-]. destruct (IH _ _ _ Hc) as [Hent Hstop]. split.
    + intros [|n] p Hn; simpl in Hn.
      * injection Hn as <-. simpl. split; [lia|]. split; [lia|done].
      * rewrite chain_succ_r. by apply Hent.
    + rewrite length_cons, chain_succ_r. apply Hstop.
Qed.

(** C3 (amended).  In both variants, when the function returns, the
    entries appended to [optSchedule] are those of the cells met along the
    chain of predecessors that starts at [(100, optFinalCondition)], taken
    only as long as the predecessor year is above -1 AND the elected
    [repairID] is above 0: every appended entry has a positive [repairID],
    and the walk ENDS at the first cell whose [repairID] is 0 (or whose
    predecessor year is the sentinel), so that cell and all the cells behind
    it, genuine repairs included, contribute nothing. *)
Theorem reconstruction_stops_at_repairID_0 (fuel : nat) (old : RepairSchedule)
    (r : result F) :
  findOptSchedule st v bridge ratingsDecay repairs impMat limit fuel old
  = Returned r ->
  exists (y : Z) (temp : RepairSchedule),
    optSchedule r = old ++ rev temp /\
    (forall n p, temp !! n = Some p ->
       let c := chain st filled' n 100 y in
       getX st filled' c.1 c.2 > -1 /\ getRepair st filled' c.1 c.2 > 0 /\
       p = Pair.mk (getRepair st filled' c.1 c.2)
                   (getX st filled' c.1 c.2 + startYear bridge)) /\
    (let c := chain st filled' (length temp) 100 y in
     getX st filled' c.1 c.2 <= -1 \/ getRepair st filled' c.1 c.2 <= 0).
Proof.
  unfold findOptSchedule.
  destruct (finals _ _ _ _) as [[[m y] f]|]; [|done].
  destruct (collect _ _ _ _ _ _) as [temp|] eqn:Hc; [|done].
  intros [= <-]. exists y, temp. split; [done|]. exact (collect_spec _ _ _ _ _ Hc).
Qed.

(** *** The caller's schedule *)

Lemma StronglySorted_rev {A : Type} (R : relation A) (l : list A) :
  StronglySorted (flip R) l -> StronglySorted R (rev l).
Proof.
  induction 1 as [|a l Hl IH Ha]; simpl; [constructor|].
  apply StronglySorted_app_2; [|done|repeat constructor].
  intros b c Hb Hc. apply list_elem_of_singleton in Hc as ->.
  apply list_elem_of_In, in_rev, list_elem_of_In in Hb.
  rewrite Forall_forall in Ha. by apply Ha.
Qed.

Lemma collect_years (T : tables F) (fuel : nat) :
  pointers st not_later T ->
  forall x y temp, collect st bridge fuel T x y = Some temp ->
    Forall (fun p => Pair.repairYear p <= x + startYear bridge) temp /\
    StronglySorted (flip year_le) temp.
Proof.
  intros HT. induction fuel as [|fuel IH]; intros x y temp; simpl.
  - destruct (_ && _); [done|]. intros [= <-]. split; constructor.
  - destruct (Z.gtb_spec (getX st T x y) (-1)) as [Hx|Hx]; simpl;
      [|intros [= <-]; split; constructor].
    destruct (getRepair st T x y >? 0); [|intros [= <-]; split; constructor].
    destruct (collect st bridge fuel T _ _) as [temp'|] eqn:Hc; [|done].
    simpl. intros [= <-]. destruct (IH _ _ _ Hc) as [Hle Hs].
    assert (Hpx : getX st T x y <= x) by (destruct (HT x y); lia).
    split.
    + constructor; [simpl; lia|].
      eapply Forall_impl; [exact Hle|]. intros p Hp. simpl in Hp. lia.
    + constructor; [done|].
      eapply Forall_impl; [exact Hle|]. intros p Hp. unfold flip, year_le.
      cbn in *. lia.
Qed.

Lemma not_later_filled :
  decay_nonneg ratingsDecay limit ->
  (forall x y, stack_preX st x y < 0) ->
  pointers st not_later filled'.
Proof.
  intros Hd Hst. apply pointers_filled.
  - intros x y. by left.
  - intros year rating i j Hy Hr Hi Hj Hyd. right.
    assert (rating <= i) by (destruct v; simpl in Hi; lia).
    specialize (Hd i rating ltac:(lia) ltac:(lia) ltac:(lia)). lia.
  - intros x y. left. apply Hst.
Qed.

(** C10.  When [findOptEnvSchedule] / [findOptCostSchedule] returns, the
    caller's [optSchedule] is its former content followed by the new
    entries: every former entry is still at its position, and the returned
    cost and the file do not depend on the former content.  The new entries
    are the collected entries in the order opposite to the backward walk,
    that is from the earliest transition of the chain to the latest; they
    are in ascending order of [repairYear] when the decay table has no
    negative entry and the cells of [preX] that are never written hold a
    negative value.  (A negative entry [ratingsDecay[i][rating]] that the
    filling uses makes it read [M[yearDecay][j]] with [yearDecay > 100] at
    the row of year 100, and a cell of [preX] that was never written is
    indeterminate: the source gives such runs no meaning.) *)
Theorem findOptSchedule_appends (fuel : nat) (old : RepairSchedule) (r : result F) :
  findOptSchedule st v bridge ratingsDecay repairs impMat limit fuel old
  = Returned r ->
  exists (y : Z) (temp : RepairSchedule),
    collect st bridge fuel filled' 100 y = Some temp /\
    optSchedule r = old ++ rev temp /\
    (forall n p, old !! n = Some p -> optSchedule r !! n = Some p) /\
    (forall old' : RepairSchedule,
       findOptSchedule st v bridge ratingsDecay repairs impMat limit fuel old'
       = Returned (mkResult (minTotalCost r) (old' ++ rev temp) (ofile r))) /\
    (decay_nonneg ratingsDecay limit -> (forall x y, stack_preX st x y < 0) ->
     ascending (rev temp)).
Proof.
  unfold findOptSchedule.
  destruct (finals _ _ _ _) as [[[m y] f]|]; [|done].
  destruct (collect _ _ _ _ _ _) as [temp|] eqn:Hc; [|done].
  intros [= <-]. exists y, temp. simpl.
  split; [done|]. split; [done|]. split; [|split; [done|]].
  - intros n p Hn. by apply lookup_app_l_Some.
  - intros Hd Hst. apply StronglySorted_rev.
    by apply (collect_years _ _ (not_later_filled Hd Hst) _ _ _ Hc).
Qed.

End SchedulerFacts.

(** ** Bounds of the filling *)

Section Bounds.
Context {F : Type} {AI : ArithInf F}.
Variable st : stack F.
Variable v : variant F.
Variable bridge : BridgeInfo F.
Variable ratingsDecay : Z -> Z -> Z.
Variable repairs : RepairEnvMat F.
Variable impMat : ImproveMat F.
Variable limit : Z.

(** *** The cells written *)

Lemma within_setM (T : tables F) x y c :
  within T -> 0 <= x <= 100 -> 0 <= y <= 8 -> within (setM T x y c).
Proof.
  intros HT Hx Hy x' y' H. destruct (decide ((x, y) = (x', y'))) as [[= <- <-]|Hne];
    [done|].
  apply HT. unfold setM in H; cbn in H. by rewrite lookup_insert_ne in H.
Qed.

Lemma within_setPre (T : tables F) x y px py pr :
  within T -> 0 <= x <= 100 -> 0 <= y <= 8 -> within (setPre T x y px py pr).
Proof.
  intros HT Hx Hy x' y' H. destruct (decide ((x, y) = (x', y'))) as [[= <- <-]|Hne];
    [done|].
  apply HT. unfold setPre in H; cbn in H. by rewrite !lookup_insert_ne in H.
Qed.

Lemma within_initM (T : tables F) : within T -> within (initM T).
Proof.
  unfold initM. apply (foldl_invariant within). intros T1 i Hi.
  apply (foldl_invariant within). intros T2 j Hj H2.
  apply elem_of_seqZ in Hi, Hj. apply within_setM; [done|lia|lia].
Qed.

Lemma within_boundary (T : tables F) :
  in_range bridge ratingsDecay limit -> within T ->
  within (boundary bridge ratingsDecay limit T).
Proof.
  intros (Hl & Hs & Hrows). unfold boundary.
  apply (foldl_invariant within). intros T1 rating Hr.
  apply (foldl_invariant within). intros T2 year Hy.
  unfold boundaryRow. apply (foldl_invariant within). intros T3 i Hi H3.
  apply elem_of_countdown in Hr, Hi. apply elem_of_seqZ in Hy.
  destruct (Hrows rating ltac:(lia)) as [H0 H100].
  apply within_setPre; [apply within_setM; [done|lia|lia]|lia|lia].
Qed.

Lemma within_jStep year rating i yearDecay s j :
  0 <= year <= 100 -> 0 <= rating <= 8 -> within (js_tables s) ->
  within (js_tables (jStep st v bridge repairs impMat year rating i yearDecay s j)).
Proof.
  intros Hy Hr Hs. unfold jStep. destruct (foldl _ _ repairs) as [rc rid].
  destruct (accepts _ _ _ _ _ _ _); cbn [js_tables]; [by apply within_setPre|done].
Qed.

Lemma within_iBody year rating i yearDecay T min :
  0 <= year <= 100 -> 0 <= rating <= 8 -> within T ->
  within (iBody st v bridge repairs impMat limit year rating i yearDecay T min).1.
Proof.
  intros Hy Hr HT. unfold iBody. cbn [fst].
  apply (foldl_invariant (fun s => within (js_tables s))); [|done].
  intros s j _ Hs. by apply within_jStep.
Qed.

Lemma within_iLoop year rating (ivals : list Z) : forall T min,
  0 <= year <= 100 -> 0 <= rating <= 8 -> within T ->
  within (iLoop st v bridge ratingsDecay repairs impMat limit year rating ivals T min).1.
Proof.
  induction ivals as [|i ivals IH]; intros T min Hy Hr HT; [done|].
  cbn [iLoop]. destruct (_ <? 0); [done|].
  pose proof (within_iBody year rating i (year - ratingsDecay i rating) T min Hy Hr HT)
    as H.
  destruct (iBody _ _ _ _ _ _ _ _ _ _ _ _) as [T' min']. by apply IH.
Qed.

Lemma within_cell year rating T :
  0 <= year <= 100 -> 0 <= rating <= 8 -> within T ->
  within (cell st v bridge ratingsDecay repairs impMat limit year T rating).
Proof.
  intros Hy Hr HT. unfold cell. destruct (_ && _); [done|].
  pose proof (within_iLoop year rating (seqZ (iStart v rating) (9 - iStart v rating))
                T infinity Hy Hr HT) as H.
  destruct (iLoop _ _ _ _ _ _ _ _ _ _ _ _) as [T' min']. by apply within_setM.
Qed.

Lemma within_filled :
  in_range bridge ratingsDecay limit ->
  within (filled st v bridge ratingsDecay repairs impMat limit).
Proof.
  intros Hin. unfold filled, fill.
  apply (foldl_invariant within).
  - intros T1 year Hy. apply (foldl_invariant within). intros T2 rating Hr.
    apply elem_of_seqZ in Hy, Hr. destruct Hin as (Hl & _).
    apply within_cell; lia.
  - apply within_boundary; [done|]. apply within_initM.
    intros x y. cbn. rewrite !lookup_empty. intros [H|[H|[H|H]]]; by destruct H.
Qed.

(** *** The rows visited *)

Lemma sum_list_with_le {A : Type} (f : A -> nat) (c : nat) (l : list A) :
  (forall x, x ∈ l -> (f x <= c)%nat) -> (sum_list_with f l <= length l * c)%nat.
Proof.
  induction l as [|a l IH]; intros H; cbn; [lia|].
  pose proof (H a ltac:(left)). assert (forall x, x ∈ l -> (f x <= c)%nat)
    by (intros x Hx; apply H; by right).
  specialize (IH ltac:(done)). lia.
Qed.

Lemma scanned_le (repairID rating : Z) (rows : RepairEnvMat F) :
  (scanned repairID rating rows <= length rows)%nat.
Proof.
  induction rows as [|r rows IH]; cbn; [lia|]. destruct (applies _ _ r); lia.
Qed.

Lemma kStep_visits_le (i j : Z) (r : RepairEnv F) :
  (kStep_visits repairs i j r <= S (length repairs))%nat.
Proof.
  unfold kStep_visits, calEnvImpact_visits.
  pose proof (scanned_le (repairID r) j repairs).
  destruct (_ || _); [|lia]. destruct (categoryOf _) as [[]|]; lia.
Qed.

Lemma jStep_visits_le (i j : Z) :
  (jStep_visits repairs i j <= length repairs * S (length repairs))%nat.
Proof.
  unfold jStep_visits. apply sum_list_with_le. intros r _. apply kStep_visits_le.
Qed.

Lemma iBody_visits_le (i : Z) : 0 <= limit -> i <= 8 ->
  (iBody_visits repairs limit i <= 8 * (length repairs * S (length repairs)))%nat.
Proof.
  intros Hl Hi. unfold iBody_visits.
  etransitivity; [apply sum_list_with_le; intros j _; apply jStep_visits_le|].
  rewrite length_seqZ. apply Nat.mul_le_mono_r. lia.
Qed.

Lemma untilBreak_length (year rating : Z) (ivals : list Z) :
  (length (untilBreak ratingsDecay year rating ivals) <= length ivals)%nat.
Proof.
  induction ivals as [|i ivals IH]; cbn; [lia|]. destruct (_ <? 0); cbn; lia.
Qed.

Lemma cell_visits_le (year rating : Z) : 0 <= limit -> limit <= rating ->
  (cell_visits v bridge ratingsDecay repairs limit year rating
   <= 9 * (8 * (length repairs * S (length repairs))))%nat.
Proof.
  intros Hl Hr. unfold cell_visits. destruct (on_boundary _ _ _ _); [lia|].
  etransitivity.
  - apply sum_list_with_le. intros i Hi. apply iBody_visits_le; [done|].
    apply elem_of_untilBreak, elem_of_seqZ in Hi. lia.
  - apply Nat.mul_le_mono_r. unfold considered.
    etransitivity; [apply untilBreak_length|]. rewrite length_seqZ.
    destruct v; cbn; lia.
Qed.

Lemma fill_visits_le : 0 <= limit ->
  (fill_visits v bridge ratingsDecay repairs limit
   <= 101 * 9 * 72 * (length repairs * (length repairs + 1)))%nat.
Proof.
  intros Hl. unfold fill_visits.
  etransitivity.
  - apply (sum_list_with_le _ (9 * (9 * (8 * (length repairs * S (length repairs)))))).
    intros year _. etransitivity.
    + apply sum_list_with_le. intros rating Hr. apply elem_of_seqZ in Hr.
      apply cell_visits_le; lia.
    + apply Nat.mul_le_mono_r. rewrite length_seqZ. lia.
  - rewrite length_seqZ. change (Z.to_nat 101) with 101%nat. lia.
Qed.

(** *** The cells of the walks *)

Lemma chain_within (T : tables F) (y0 : Z) (n : nat) :
  pointers st (descends limit) T -> 0 <= limit -> 0 <= y0 <= 8 ->
  (forall k, (k < n)%nat ->
             0 <= getX st T (chain st T k 100 y0).1 (chain st T k 100 y0).2) ->
  0 <= (chain st T n 100 y0).1 <= 100 /\ 0 <= (chain st T n 100 y0).2 <= 8.
Proof.
  intros HT Hl Hy. induction n as [|n IH]; intros Hgo; [cbn; lia|].
  destruct IH as [Hx Hy']; [intros k Hk; apply Hgo; lia|].
  pose proof (Hgo n ltac:(lia)) as Hn.
  unfold chain in *. cbn [Nat.iter nat_rect] in *. unfold Nat.iter in *.
  cbn [fst snd].
  destruct (HT (nat_rect _ (100, y0) (fun _ c => (getX st T c.1 c.2, getY st T c.1 c.2)) n).1
               (nat_rect _ (100, y0) (fun _ c => (getX st T c.1 c.2, getY st T c.1 c.2)) n).2)
    as [Hneg|[Hpy Hpx]]; lia.
Qed.

(** C9 (amended).  On the inputs whose indices stay inside the arrays (a
    floor of at least 0, a start rating of 0 to 9, boundary rows inside
    the horizon of 100 years) and whose decay table gives every single
    rating level at least one year ([ratingsDecay[i][rating] >= 1] for
    [limit <= rating < i <= 8], and a non-negative diagonal in the cost
    variant), both variants return, provided the cells of [preX] that the
    filling never writes hold a negative value and [optFinalCondition],
    when it is never assigned, holds a rating:

    - the filling is made of counted loops; it writes only cells of the
      [101][9] arrays, and it visits at most [101 * 9 * 72 * n * (n + 1)]
      catalog rows for a catalog of [n] rows: the bound on the work is the
      state space times a QUADRATIC factor in the catalog size, because
      every applicable row of the loop over the catalog calls
      [calEnvImpact], which scans the catalog again;
    - each walk over a final condition and the walk of the reconstruction
      halt within [101 * (8 - limit)] steps, and every cell they read lies
      inside the arrays. *)
Theorem findOptSchedule_terminates (fuel : nat) (optSchedule : RepairSchedule) :
  in_range bridge ratingsDecay limit ->
  decay_positive v ratingsDecay limit ->
  (forall x y, stack_preX st x y < 0) ->
  0 <= stack_optFinalCondition st <= 8 ->
  101 * (8 - limit) < Z.of_nat fuel ->
  (exists r, findOptSchedule st v bridge ratingsDecay repairs impMat limit fuel
                             optSchedule = Returned r) /\
  within (filled st v bridge ratingsDecay repairs impMat limit) /\
  (fill_visits v bridge ratingsDecay repairs limit
   <= 101 * 9 * 72 * (length repairs * (length repairs + 1)))%nat /\
  forall (y0 : Z) (n : nat),
    limit <= y0 <= 7 \/ y0 = stack_optFinalCondition st ->
    let T := filled st v bridge ratingsDecay repairs impMat limit in
    (forall k, (k < n)%nat ->
               0 <= getX st T (chain st T k 100 y0).1 (chain st T k 100 y0).2) ->
    0 <= (chain st T n 100 y0).1 <= 100 /\ 0 <= (chain st T n 100 y0).2 <= 8.
Proof.
  intros Hin Hd Hst Ho Hfuel.
  pose proof (descends_filled st v bridge ratingsDecay repairs impMat limit Hd Hst)
    as HT.
  split; [|split; [by apply within_filled|split]].
  - unfold findOptSchedule.
    destruct (finals_terminates st limit _ HT fuel Hfuel) as [[[m o] f] ->].
    destruct (collect_terminates st bridge limit _ HT fuel 100 o) as [temp ->]; [lia|].
    by eexists.
  - apply fill_visits_le. by destruct Hin.
  - intros y0 n Hy0 T. apply chain_within; [done|by destruct Hin|].
    destruct Hin as (Hl & _). lia.
Qed.

End Bounds.

(** ** Runs of the two variants in binary32 *)

(** The sample decay table is the one [ratingDecay] derives in binary32
    from the curve [rating = 9 - t^2/100] with floor 4. *)
Example sample_decay_ratingDecay :
  exists rd : Z -> Z -> Z,
    ratingDecay (fun _ => b32_of_int 0) (fun _ _ => 0)
      (SFdiv 24 128 (b32_of_int (-1)) (b32_of_int 100), b32_of_int 0, b32_of_int 9) 4
    = Returned rd /\
    map (fun i => map (rd i) (seqZ 4 (i - 3))) (seqZ 4 6)
    = map (fun i => map (sample_decay i) (seqZ 4 (i - 3))) (seqZ 4 6).
Proof. eexists. split; [reflexivity|]. vm_compute. reflexivity. Qed.

Lemma sample_decay_positive (v : variant binary32) : decay_positive v sample_decay 4.
Proof.
  split.
  - intros i rating H1 H2 H3.
    assert (Hr : rating = 4 \/ rating = 5 \/ rating = 6 \/ rating = 7) by lia.
    assert (Hi : i = 5 \/ i = 6 \/ i = 7 \/ i = 8) by lia.
    destruct Hr as [-> | [-> | [-> | ->]]], Hi as [-> | [-> | [-> | ->]]];
      try lia; vm_compute; discriminate.
  - destruct v; [done|]. intros rating Hr.
    assert (Hr' : rating = 4 \/ rating = 5 \/ rating = 6 \/ rating = 7 \/ rating = 8)
      by lia.
    destruct Hr' as [->|[-> | [-> | [-> | ->]]]]; vm_compute; discriminate.
Qed.

Lemma sample_decay_nonneg : decay_nonneg sample_decay 4.
Proof.
  intros i rating H1 H2 H3.
  assert (Hr : rating = 4 \/ rating = 5 \/ rating = 6 \/ rating = 7 \/ rating = 8)
    by lia.
  assert (Hi : i = 4 \/ i = 5 \/ i = 6 \/ i = 7 \/ i = 8) by lia.
  destruct Hr as [->|[-> | [-> | [-> | ->]]]], Hi as [->|[-> | [-> | [-> | ->]]]];
    try lia; vm_compute; discriminate.
Qed.

(** The comparison of the acceptance test on a tie. *)
Example improves_tie :
  improves (@Env binary32) (b32_of_int 80) (b32_of_int 80) = true /\
  improves (Cost (∅ : CostMap binary32)) (b32_of_int 80) (b32_of_int 80) = false.
Proof. split; reflexivity. Qed.

(** C6 (counterexample).  Cost variant, sample table, cell [(100, 7)]: the
    cell is not fixed by the boundary, [i = rating = 7] is considered, and
    the predecessor recorded for the cell is the year 100 itself,
    [100 - ratingsDecay[7][7]], which no [i > 7] can yield since
    [ratingsDecay[8][7] = 4]. *)
Lemma cost_variant_considers_i_equal_rating :
  (7 <=? startRating bridge_10x8) && (sample_decay (startRating bridge_10x8) 7 >=? 100)
  = false /\
  considered (Cost ({[5 := b32_of_int 1]} : CostMap binary32)) sample_decay 100 7
  = [7; 8] /\
  7 ∈ considered (Cost ({[5 := b32_of_int 1]} : CostMap binary32)) sample_decay 100 7 /\
  sample_decay 7 7 = 0 /\ sample_decay 8 7 = 4 /\
  getX stack_sentinel
       (filled stack_sentinel (Cost {[5 := b32_of_int 1]}) bridge_10x8 sample_decay
               catalog_5 [] 4) 100 7 = 100.
Proof.
  assert (Hc : considered (Cost ({[5 := b32_of_int 1]} : CostMap binary32))
                          sample_decay 100 7 = [7; 8]) by (vm_compute; reflexivity).
  split; [reflexivity|]. split; [exact Hc|]. split; [rewrite Hc; left|].
  split; [reflexivity|]. split; [reflexivity|]. vm_compute. reflexivity.
Qed.

Lemma sample_in_range : in_range bridge_10x8 sample_decay 4.
Proof.
  split; [lia|]. split; [cbn; lia|]. intros rating Hr. cbn in Hr.
  assert (H : rating = 4 \/ rating = 5 \/ rating = 6) by lia.
  destruct H as [->|[->| ->]]; vm_compute; split; discriminate.
Qed.

(** The theorem on the impact variant with the sample table, whose
    entries off the diagonal are at least 2, and the catalog of one row:
    the run returns and visits at most [101 * 9 * 72 * 2] rows. *)
Lemma findOptSchedule_terminates_witness :
  (exists r,
     findOptSchedule stack_sentinel Env bridge_10x8 sample_decay catalog_5 [] 4 500 []
     = Returned r) /\
  within (filled stack_sentinel Env bridge_10x8 sample_decay catalog_5 [] 4) /\
  (fill_visits (Env : variant binary32) bridge_10x8 sample_decay catalog_5 4
   <= 101 * 9 * 72 * (1 * (1 + 1)))%nat.
Proof.
  destruct (findOptSchedule_terminates stack_sentinel Env bridge_10x8 sample_decay
              catalog_5 [] 4 500 []) as (H1 & H2 & H3 & _).
  - apply sample_in_range.
  - apply sample_decay_positive.
  - intros x y. simpl. lia.
  - simpl. lia.
  - simpl. lia.
  - split; [exact H1|]. split; [exact H2|exact H3].
Defined.

(** A cell that is its own predecessor keeps the walk going for ever. *)
Lemma walk_self_loop {F : Type} (st : stack F) (T : tables F) (x y : Z) :
  getX st T x y = x -> getY st T x y = y -> 0 <= x ->
  forall fuel, walk st fuel T x y = None.
Proof.
  intros Hx Hy H0 fuel. induction fuel as [|fuel IH]; simpl; rewrite Hx.
  - destruct (Z.geb_spec x 0); [done|lia].
  - destruct (Z.geb_spec x 0); [|lia]. rewrite Hy, IH. done.
Qed.

Lemma walk_None_step {F : Type} (st : stack F) (T : tables F) (x y : Z) :
  0 <= getX st T x y ->
  (forall fuel, walk st fuel T (getX st T x y) (getY st T x y) = None) ->
  forall fuel, walk st fuel T x y = None.
Proof.
  intros H0 Hn fuel. destruct fuel as [|fuel]; simpl.
  - destruct (Z.geb_spec (getX st T x y) 0); [done|lia].
  - destruct (Z.geb_spec (getX st T x y) 0); [|lia]. by rewrite Hn.
Qed.

Lemma foldl_finalStep_None {F : Type} {AI : ArithInf F} (st : stack F) (fuel : nat)
    (T : tables F) (l : list Z) :
  foldl (finalStep st fuel T) None l = None.
Proof. induction l as [|i l IH]; simpl; [done|exact IH]. Qed.

Lemma finals_walk_None {F : Type} {AI : ArithInf F} (st : stack F) (T : tables F)
    (limit : Z) (fuel : nat) :
  limit <= 7 -> walk st fuel T 100 limit = None -> finals st limit fuel T = None.
Proof.
  intros Hl Hw. unfold finals. rewrite seqZ_cons by lia. simpl. rewrite Hw.
  destruct (_ <? _)%fl; simpl; apply foldl_finalStep_None.
Qed.

(** The first walk of the loop over the final conditions starts at
    [(100, limit)]; if it does not halt, the function does not return. *)
Lemma findOptSchedule_walk_None {F : Type} {AI : ArithInf F} (st : stack F)
    (v : variant F) (bridge : BridgeInfo F) (ratingsDecay : Z -> Z -> Z)
    (repairs : RepairEnvMat F) (impMat : ImproveMat F) (limit : Z) (fuel : nat)
    (optSchedule : RepairSchedule) :
  limit <= 7 ->
  walk st fuel (filled st v bridge ratingsDecay repairs impMat limit) 100 limit = None ->
  findOptSchedule st v bridge ratingsDecay repairs impMat limit fuel optSchedule
  = OutOfFuel.
Proof.
  intros Hl Hw. unfold findOptSchedule.
  rewrite (finals_walk_None st _ limit fuel Hl Hw). reflexivity.
Qed.

Lemma decay_zero_step_preX (st : stack binary32) :
  getX st (filled st Env bridge_10x8 decay_zero_step [] [] 4) 100 4 = 100.
Proof. vm_compute. reflexivity. Qed.

Lemma decay_zero_step_preY (st : stack binary32) :
  getY st (filled st Env bridge_10x8 decay_zero_step [] [] 4) 100 4 = 4.
Proof. vm_compute. reflexivity. Qed.

Lemma decay_zero_step_out_of_fuel (st : stack binary32) (fuel : nat) :
  findOptEnvSchedule st bridge_10x8 decay_zero_step [] [] 4 fuel [] = OutOfFuel.
Proof.
  unfold findOptEnvSchedule. apply findOptSchedule_walk_None; [lia|].
  apply walk_self_loop; [|  |lia].
  - apply decay_zero_step_preX.
  - apply decay_zero_step_preY.
Qed.

(** *** The rows visited for a catalog of two blocks *)

Lemma sum_list_with_replicate {A : Type} (f : A -> nat) (n : nat) (x : A) :
  sum_list_with f (replicate n x) = (n * f x)%nat.
Proof. induction n as [|n IH]; cbn; [done|]. rewrite IH. lia. Qed.

Lemma scanned_blocks (n : nat) : (0 < n)%nat ->
  scanned 5 4 (catalog_blocks n) = S n.
Proof.
  intros Hn. unfold catalog_blocks.
  assert (H : forall k rest,
            scanned 5 4 (replicate k (mkRepairEnv 6 4 6 2 1 (b32_of_int 1) (b32_of_int 0))
                         ++ rest)
            = (k + scanned 5 4 rest)%nat).
  { induction k as [|k IH]; intros rest; [done|]. cbn [replicate app scanned].
    change (applies 5 4 (mkRepairEnv 6 4 6 2 1 (b32_of_int 1) (b32_of_int 0)))
      with false. cbn iota. by rewrite IH. }
  rewrite H. destruct n as [|n]; [lia|]. cbn. lia.
Qed.

Lemma jStep_visits_blocks (n : nat) :
  (n * (n + 2) <= jStep_visits (catalog_blocks n) 6 4)%nat.
Proof.
  destruct n as [|n]; [lia|]. unfold jStep_visits.
  unfold catalog_blocks at 2. rewrite sum_list_with_app, !sum_list_with_replicate.
  assert (H : kStep_visits (catalog_blocks (S n)) 6 4
                (mkRepairEnv 5 4 6 2 1 (b32_of_int 1) (b32_of_int 0))
              = S (scanned 5 4 (catalog_blocks (S n)))) by reflexivity.
  rewrite H, scanned_blocks by lia. lia.
Qed.

Lemma fill_visits_blocks (n : nat) :
  (n * (n + 2)
   <= fill_visits (Env : variant binary32) bridge_10x8 sample_decay (catalog_blocks n) 4)%nat.
Proof.
  etransitivity; [apply jStep_visits_blocks|].
  unfold fill_visits.
  etransitivity; [|apply (sum_list_with_in 100); apply elem_of_seqZ; lia].
  etransitivity; [|apply (sum_list_with_in 4); apply elem_of_seqZ; lia].
  unfold cell_visits.
  change (on_boundary bridge_10x8 sample_decay 100 4) with false. cbn iota.
  assert (Hc : considered (Env : variant binary32) sample_decay 100 4 = [5; 6; 7; 8])
    by (vm_compute; reflexivity).
  rewrite Hc.
  etransitivity; [|apply (sum_list_with_in 6); set_solver].
  unfold iBody_visits.
  apply (sum_list_with_in 4 (jStep_visits (catalog_blocks n) 6)).
  apply elem_of_seqZ. lia.
Qed.

(** C9 (counterexample).  Two inputs inside the bounds of the arrays, and
    one outside.

    The walks.  Impact variant, start rating 7, floor 4, empty catalog,
    decay table [decay_zero_step].  The boundary initialises every row (no
    indeterminate cell is read).  At the cell [(100, 4)] the only
    candidate is [i = 5], [j = 4] with [yearDecay = 100 - 0]: its value is
    [inf <= inf], it is not 0, and [preX[100][4]] is still -1, so the
    cell records itself as its predecessor.  The walk printed for the
    final condition 4 never leaves it: whatever the fuel and the
    indeterminate values, the function does not return.

    The work.  With the catalogs [catalog_blocks n] of [2 n] rows, at the
    cell [(100, 4)], [i = 6] and [j = 4] each of the [n] rows of repair 5
    calls [calEnvImpact], whose scan passes the [n] rows of repair 6
    first: the filling visits at least [n * (n + 2)] rows, which no
    constant times the state space times the catalog size bounds.

    The arrays.  Start rating 7, floor 4 and the decay table
    [decay_steep], which gives every rating level 40 years: the boundary
    (lines 33-46) initialises the years 80 to 120 for rating 4, and
    [M[120][1]] lies outside [M[101][9]]. *)
Lemma findOptSchedule_bound_fails :
  (in_range bridge_10x8 decay_zero_step 4 /\
   ~ exists (st : stack binary32) (fuel : nat) (r : result binary32),
       findOptEnvSchedule st bridge_10x8 decay_zero_step [] [] 4 fuel [] = Returned r) /\
  (in_range bridge_10x8 sample_decay 4 /\
   ~ exists C : nat, forall n : nat,
       (fill_visits (Env : variant binary32) bridge_10x8 sample_decay (catalog_blocks n) 4
        <= 101 * 9 * C * length (catalog_blocks n))%nat) /\
  (decay_positive (Env : variant binary32) decay_steep 4 /\
   forall st : stack binary32,
     ~ within (filled st Env bridge_10x8 decay_steep [] [] 4)).
Proof.
  split; [|split]; split.
  - split; [lia|]. split; [cbn; lia|]. intros rating Hr. cbn in Hr.
    assert (H : rating = 4 \/ rating = 5 \/ rating = 6) by lia.
    destruct H as [->|[->| ->]]; vm_compute; split; discriminate.
  - intros (st & fuel & r & Hr). rewrite decay_zero_step_out_of_fuel in Hr.
    discriminate.
  - apply sample_in_range.
  - intros [C H]. specialize (H (1818 * C + 1)%nat).
    pose proof (fill_visits_blocks (1818 * C + 1)) as Hlow.
    unfold catalog_blocks in H at 2. rewrite length_app, !length_replicate in H.
    nia.
  - split; [|done]. intros i rating H1 H2 H3. unfold decay_steep. lia.
  - intros st H. destruct (H 120 1) as [? _]; [|lia]. left.
    vm_compute. by eexists.
Qed.

(** The same happens with a table [ratingDecay] itself produces.  The curve
    [rating = 9 - 100 t^2] passes the validation and gives the table
    [decay_flat]; only the row of year 0 is then initialised by the
    boundary, and with the indeterminate values of [stack_sentinel] the cell
    [(100, 7)] becomes its own predecessor in both variants. *)
Example ratingDecay_decay_flat :
  exists rd : Z -> Z -> Z,
    ratingDecay (fun _ => b32_of_int 0) (fun _ _ => 0)
                (b32_of_int (-100), b32_of_int 0, b32_of_int 9) 4 = Returned rd /\
    map (fun i => map (rd i) (seqZ 4 (i - 3))) (seqZ 4 6)
    = map (fun i => map (decay_flat i) (seqZ 4 (i - 3))) (seqZ 4 6).
Proof. eexists. split; [reflexivity|]. vm_compute. reflexivity. Qed.

Example findOptEnvSchedule_decay_flat (fuel : nat) :
  findOptEnvSchedule stack_sentinel bridge_10x8 decay_flat catalog_5 [] 4 fuel []
  = OutOfFuel.
Proof.
  unfold findOptEnvSchedule. apply findOptSchedule_walk_None; [lia|].
  apply walk_None_step; [vm_compute; discriminate|].
  apply walk_self_loop; [vm_compute; reflexivity|vm_compute; reflexivity|].
  vm_compute. discriminate.
Qed.

Example findOptCostSchedule_decay_flat (fuel : nat) :
  findOptCostSchedule stack_sentinel bridge_10x8 decay_flat catalog_5
                      {[5 := b32_of_int 1]} [] 4 fuel []
  = OutOfFuel.
Proof.
  unfold findOptCostSchedule. apply findOptSchedule_walk_None; [lia|].
  apply walk_self_loop; [vm_compute; reflexivity|vm_compute; reflexivity|lia].
Qed.

(** The theorem on a run of the impact variant with the catalog
    [catalog_0_5]. *)
Lemma reconstruction_stops_at_repairID_0_witness :
  exists (r : result binary32) (y : Z) (temp : RepairSchedule),
    findOptSchedule stack_sentinel Env bridge_quiet sample_decay catalog_0_5
                    impMat_ones 4 200 [] = Returned r /\
    optSchedule r = [] ++ rev temp /\
    (forall n p, temp !! n = Some p ->
       let T := filled stack_sentinel Env bridge_quiet sample_decay catalog_0_5
                       impMat_ones 4 in
       let c := chain stack_sentinel T n 100 y in
       getX stack_sentinel T c.1 c.2 > -1 /\ getRepair stack_sentinel T c.1 c.2 > 0 /\
       p = Pair.mk (getRepair stack_sentinel T c.1 c.2)
                   (getX stack_sentinel T c.1 c.2 + startYear bridge_quiet)) /\
    (let T := filled stack_sentinel Env bridge_quiet sample_decay catalog_0_5
                     impMat_ones 4 in
     let c := chain stack_sentinel T (length temp) 100 y in
     getX stack_sentinel T c.1 c.2 <= -1 \/ getRepair stack_sentinel T c.1 c.2 <= 0).
Proof.
  assert (Hr : exists r, findOptSchedule stack_sentinel Env bridge_quiet sample_decay
                           catalog_0_5 impMat_ones 4 200 [] = Returned r)
    by (vm_compute; eexists; reflexivity).
  destruct Hr as [r Hr].
  destruct (reconstruction_stops_at_repairID_0 stack_sentinel Env bridge_quiet
              sample_decay catalog_0_5 impMat_ones 4 200 [] r Hr)
    as (y & temp & H1 & H2 & H3).
  exists r, y, temp. split; [exact Hr|]. split; [exact H1|]. split; [exact H2|exact H3].
Defined.

(** C3 (counterexample).  Impact variant; repair 0 (category eleven, 6 to
    7, value 160) and repair 5 (4 or 5 up by two, value 240).  The best
    final condition is 4 with value 4480.  The walk printed to the file for
    it lists the whole chain: four transitions with [repairID] 0 (years 92,
    89, 86, 83) and behind them sixteen genuine repairs with [repairID] 5
    (years 80 down to 5).  The walk of the reconstruction stops at the
    first of them: the returned [optSchedule] is empty, the sixteen repairs
    5 are cut off.  The run does not depend on the indeterminate values. *)
Lemma reconstruction_cut_off_by_repairID_0 :
  exists r : result binary32,
    (forall st : stack binary32,
       findOptEnvSchedule st bridge_quiet sample_decay catalog_0_5 impMat_ones 4 200 []
       = Returned r) /\
    minTotalCost r = b32_of_int 4480 /\
    ofile r !! 0%nat
    = Some (4, b32_of_int 4480,
            [(92, 0, 6); (89, 0, 6); (86, 0, 6); (83, 0, 6); (80, 5, 5); (75, 5, 5);
             (70, 5, 5); (65, 5, 5); (60, 5, 5); (55, 5, 5); (50, 5, 5); (45, 5, 5);
             (40, 5, 5); (35, 5, 5); (30, 5, 5); (25, 5, 5); (20, 5, 5); (15, 5, 5);
             (10, 5, 5); (5, 5, 5)]) /\
    optSchedule r = [].
Proof.
  eexists. split; [intros st; vm_compute; reflexivity|].
  split; [vm_compute; reflexivity|]. split; reflexivity.
Qed.

(** The theorem on a run of the impact variant whose caller's schedule
    already holds one entry. *)
Lemma findOptSchedule_appends_witness :
  exists (r : result binary32) (y : Z) (temp : RepairSchedule),
    findOptSchedule stack_sentinel Env bridge_10x8 sample_decay catalog_5 [] 4 200
                    [Pair.mk 9 1999] = Returned r /\
    collect stack_sentinel bridge_10x8 200
      (filled stack_sentinel Env bridge_10x8 sample_decay catalog_5 [] 4) 100 y
    = Some temp /\
    optSchedule r = [Pair.mk 9 1999] ++ rev temp /\
    (forall n p, [Pair.mk 9 1999] !! n = Some p -> optSchedule r !! n = Some p) /\
    (forall old' : RepairSchedule,
       findOptSchedule stack_sentinel Env bridge_10x8 sample_decay catalog_5 [] 4 200
                       old'
       = Returned (mkResult (minTotalCost r) (old' ++ rev temp) (ofile r))) /\
    ascending (rev temp).
Proof.
  assert (Hr : exists r, findOptSchedule stack_sentinel Env bridge_10x8 sample_decay
                           catalog_5 [] 4 200 [Pair.mk 9 1999] = Returned r)
    by (vm_compute; eexists; reflexivity).
  destruct Hr as [r Hr].
  destruct (findOptSchedule_appends stack_sentinel Env bridge_10x8 sample_decay
              catalog_5 [] 4 200 [Pair.mk 9 1999] r Hr)
    as (y & temp & H1 & H2 & H3 & H4 & H5).
  exists r, y, temp. split; [exact Hr|]. split; [exact H1|]. split; [exact H2|].
  split; [exact H3|]. split; [exact H4|].
  apply H5; [apply sample_decay_nonneg|intros x y'; simpl; lia].
Defined.

(** The result of that run, spelled out. *)
Example findOptEnvSchedule_appends_ex :
  exists r : result binary32,
    findOptEnvSchedule stack_sentinel bridge_10x8 sample_decay catalog_5 [] 4 200
                       [Pair.mk 9 1999] = Returned r /\
    minTotalCost r = b32_of_int 1120 /\
    optSchedule r
    = map (fun p => Pair.mk p.1 p.2)
        [(9, 1999); (5, 2003); (5, 2010); (5, 2017); (5, 2024); (5, 2031); (5, 2038);
         (5, 2045); (5, 2052); (5, 2059); (5, 2066); (5, 2073); (5, 2080); (5, 2084);
         (5, 2088)].
Proof.
  eexists. split; [vm_compute; reflexivity|]. split; vm_compute; reflexivity.
Qed.

(** ** Further properties *)

Section Further.
Context {F : Type} {AI : ArithInf F}.

(** [ratingDecay] writes the cells [ratingsDecay[i][j]] with
    [limit <= j <= i <= 9] and no other: every other cell of the caller's
    array keeps its content. *)
Theorem ratingDecay_frame (tp : Z -> F) (rd0 : Z -> Z -> Z) (a b c : F) (limit : Z)
    (rd : Z -> Z -> Z) :
  ratingDecay tp rd0 (a, b, c) limit = Returned rd ->
  forall i j, ~ (limit <= j /\ j <= i /\ i <= 9) -> rd i j = rd0 i j.
Proof.
  unfold ratingDecay. destruct (validate a b c limit) as [[]| | |]; try done.
  intros [= <-] i j Hij. by apply fillDecay_frame.
Qed.

(** [categoryThree] lists 45 as its fifteenth element, but the set [three]
    is built from the first 14 (line 51): a call for [repairID] 45 enters
    no branch and returns [0.0f], whatever the catalog holds. *)
Theorem calEnvImpact_repairID_45 (impCoeff : F) (bridge : BridgeInfo F)
    (year rating : Z) (repairs : RepairEnvMat F) (impMat : ImproveMat F) :
  In 45 categoryThree /\ categoryOf 45 = None /\
  calEnvImpact impCoeff bridge year 45 rating repairs impMat = of_int 0.
Proof.
  split; [|split; reflexivity]. unfold categoryThree. simpl. tauto.
Qed.

(** [repairCost] and [repairId] are declared outside the loop over [j]
    (lines 77-78 and 247-248): at a rating [j] at which no catalog row is
    applicable, the repair elected for the ratings below [j] is kept, the
    tentative value is [M[yearDecay][j]] plus that kept [repairCost], and
    it is the kept [repairId] that is recorded when the value is
    accepted. *)
Theorem jStep_keeps_repair (st : stack F) (v : variant F) (bridge : BridgeInfo F)
    (repairs : RepairEnvMat F) (impMat : ImproveMat F)
    (year rating i yearDecay : Z) (s : jstate F) (j : Z) :
  (forall r, r ∈ repairs -> ~ (LB r <= j <= UB r)) ->
  let tempCost := (getM st (js_tables s) yearDecay j + js_repairCost s)%fl in
  let s' := jStep st v bridge repairs impMat year rating i yearDecay s j in
  js_repairCost s' = js_repairCost s /\
  js_repairId s' = js_repairId s /\
  (accepts st v (js_tables s) yearDecay j tempCost (js_min s) = true ->
   js_min s' = tempCost /\
   js_tables s' = setPre (js_tables s) year rating yearDecay j (js_repairId s)) /\
  (accepts st v (js_tables s) yearDecay j tempCost (js_min s) = false ->
   js_min s' = js_min s /\ js_tables s' = js_tables s).
Proof.
  intros Hno. cbn zeta.
  assert (Hk : forall l : RepairEnvMat F,
             (forall r, r ∈ l -> ~ (LB r <= j <= UB r)) ->
             forall acc,
               foldl (kStep st v bridge repairs impMat i j yearDecay) acc l = acc).
  { induction l as [|r l IH]; intros Hl acc; [done|]. cbn [foldl].
    assert (Hr : (j <=? UB r) && (j >=? LB r) = false).
    { apply andb_false_iff.
      destruct (Z.leb_spec j (UB r)); [|by left].
      destruct (Z.geb_spec j (LB r)); [|by right].
      exfalso. apply (Hl r); [left|lia]. }
    unfold kStep at 2. destruct acc as [rc rid]. rewrite Hr, !andb_false_r.
    apply IH. intros r' Hr'. apply Hl. by right. }
  unfold jStep. rewrite (Hk repairs Hno).
  destruct (accepts _ _ _ _ _ _ _) eqn:Ha; cbn [js_repairCost js_repairId js_min js_tables];
    (split; [done|]); (split; [done|]); split; intros ?; done.
Qed.

End Further.

(** [ratingDecay_frame] on the curve [rating = 9 - t^2/100]. *)
Lemma ratingDecay_frame_witness :
  exists rd : Z -> Z -> Z,
    ratingDecay (fun _ => b32_of_int 0) (fun i j => i + j)
      (SFdiv 24 128 (b32_of_int (-1)) (b32_of_int 100), b32_of_int 0, b32_of_int 9) 4
    = Returned rd /\
    rd 3 2 = 5 /\ rd 5 6 = 11.
Proof.
  eexists. split; [reflexivity|].
  split;
    refine (ratingDecay_frame (fun _ => b32_of_int 0) (fun i j => i + j)
              (SFdiv 24 128 (b32_of_int (-1)) (b32_of_int 100)) (b32_of_int 0)
              (b32_of_int 9) 4 _ eq_refl _ _ _); lia.
Defined.

(** [jStep_keeps_repair] in the impact variant: year 20, rating 6, [i = 8],
    [yearDecay = 13]; the catalog holds repair 5 only, applicable at ratings
    4 to 6; at [j = 7] the repair elected at [j = 6] is kept. *)
Lemma jStep_keeps_repair_witness :
  js_repairCost
    (jStep stack_sentinel Env bridge_10x8 catalog_5 [] 20 6 8 13
           (mkJstate (mkTables ∅ ∅ ∅ ∅) (b32_of_int 80) (b32_of_int 80) 5) 7)
  = b32_of_int 80 /\
  js_repairId
    (jStep stack_sentinel Env bridge_10x8 catalog_5 [] 20 6 8 13
           (mkJstate (mkTables ∅ ∅ ∅ ∅) (b32_of_int 80) (b32_of_int 80) 5) 7)
  = 5.
Proof.
  destruct (jStep_keeps_repair stack_sentinel Env bridge_10x8 catalog_5 [] 20 6 8 13
              (mkJstate (mkTables ∅ ∅ ∅ ∅) (b32_of_int 80) (b32_of_int 80) 5) 7)
    as (H1 & H2 & _).
  - intros r Hr. apply list_elem_of_singleton in Hr as ->. simpl. lia.
  - split; [exact H1|exact H2].
Defined.

(** *** [mergeFourSched] keeps every entry below the year 10000 *)

Lemma concat_rest_insert (cs : list cursor) : forall k c p tl,
  cs !! k = Some c -> rest c = p :: tl ->
  concat (map rest cs) ≡ₚ p :: concat (map rest (<[k := advance c]> cs)).
Proof.
  induction cs as [|c0 cs IH]; intros [|k] c p tl Hk Hr; simpl in *; try done.
  - injection Hk as ->. unfold advance. rewrite Hr. simpl. done.
  - rewrite (IH k c p tl Hk Hr). by rewrite Permutation_middle.
Qed.

Lemma concat_rest_ended (cs : list cursor) :
  Forall consistent cs -> forallb ended cs = true -> concat (map rest cs) = [].
Proof.
  induction 1 as [|c cs Hc Hcs IH]; simpl; [done|].
  intros [He Hall]%andb_true_iff. apply Hc in He. rewrite He. simpl. by apply IH.
Qed.

Lemma mergeLoop_complete (fuel : nat) : forall cs result,
  length cs = 4%nat ->
  Forall consistent cs ->
  Forall (fun c => Forall (fun q => Pair.repairYear q <= 9999) (rest c)) cs ->
  (remaining cs < fuel)%nat ->
  exists tr, mergeLoop fuel cs result = Returned tr /\
             map snd tr ≡ₚ map snd result ++ concat (map rest cs).
Proof.
  induction fuel as [|fuel IH]; intros cs result Hlen Hcons Hyear Hfuel; [lia|].
  simpl. destruct (forallb ended cs) eqn:Hall.
  { exists result. split; [done|].
    by rewrite (concat_rest_ended cs Hcons Hall), app_nil_r. }
  destruct (pickMin_spec cs 0 9999 5 Hcons) as (m & mi' & -> & Hs).
  destruct Hs as [(-> & _ & Hgt) | (k & c & -> & Hk & Hh & Hle & Hmin)].
  - exfalso. destruct (forallb_ended_false cs Hall) as (k & c & Hk & He).
    destruct (rest c) as [|p tl] eqn:Hr.
    + pose proof (Forall_lookup_1 _ _ _ _ Hcons Hk) as [_ Hc].
      rewrite Hc in He; done.
    + assert (Hy : head_year c = Some (Pair.repairYear p)).
      { unfold head_year. by rewrite He, Hr. }
      specialize (Hgt k c _ Hk Hy).
      pose proof (Forall_lookup_1 _ _ _ _ Hyear Hk) as Hc. cbv beta in Hc.
      rewrite Hr in Hc.
      apply Forall_cons in Hc as [Hp _]. lia.
  - simpl. assert (Hk4 : (k < 4)%nat).
    { rewrite <- Hlen. by apply lookup_lt_Some in Hk. }
    destruct (Nat.eqb_spec k 5) as [|_]; [lia|].
    rewrite Hk. destruct (head_year_Some _ _ Hh) as (He & p & tl & Hr & Hy).
    rewrite Hr.
    destruct (IH (<[k := advance c]> cs) (result ++ [(k, p)])) as (tr & Htr & Hperm).
    + by rewrite length_insert.
    + apply Forall_insert; [done|]. unfold advance, consistent. rewrite Hr. simpl.
      destruct tl; simpl; [done|]. rewrite He. split; done.
    + apply Forall_insert; [done|]. unfold advance. rewrite Hr. simpl.
      pose proof (Forall_lookup_1 _ _ _ _ Hyear Hk) as Hc. cbv beta in Hc.
      rewrite Hr in Hc.
      by apply Forall_cons in Hc as [_ Hc].
    + rewrite (remaining_insert cs k c p tl Hk Hr) in Hfuel. lia.
    + exists tr. split; [done|]. rewrite Hperm, map_app. simpl.
      rewrite (concat_rest_insert cs k c p tl Hk Hr).
      rewrite <- app_assoc. simpl. done.
Qed.

(** For four non-empty inputs whose years do not exceed 9999 (the initial
    value of [min] at line 379), [mergeFourSched] returns a rearrangement of
    all their entries: none is lost and none is repeated. *)
Theorem mergeFourSched_permutation (vec1 vec2 vec3 vec4 : RepairSchedule) :
  vec1 <> [] -> vec2 <> [] -> vec3 <> [] -> vec4 <> [] ->
  Forall (fun q => Pair.repairYear q <= 9999) (vec1 ++ vec2 ++ vec3 ++ vec4) ->
  exists out, mergeFourSched vec1 vec2 vec3 vec4 = Returned out /\
              out ≡ₚ vec1 ++ vec2 ++ vec3 ++ vec4.
Proof.
  intros N1 N2 N3 N4 Hy.
  apply Forall_app in Hy as [Hy1 Hy]. apply Forall_app in Hy as [Hy2 Hy].
  apply Forall_app in Hy as [Hy3 Hy4].
  destruct (mergeLoop_complete
              (S (length vec1 + length vec2 + length vec3 + length vec4))
              [mkCursor vec1 false; mkCursor vec2 false;
               mkCursor vec3 false; mkCursor vec4 false] []) as (tr & Htr & Hperm).
  - done.
  - repeat constructor; simpl; try done; by intros ->.
  - by repeat constructor.
  - simpl. lia.
  - exists (map snd tr). unfold mergeFourSched, mergeTrace. rewrite Htr.
    split; [done|]. rewrite Hperm. simpl. by rewrite app_nil_r.
Qed.

Lemma mergeFourSched_permutation_witness :
  exists out,
    mergeFourSched [Pair.mk 1 2001; Pair.mk 1 2010] [Pair.mk 2 2005]
                   [Pair.mk 3 2005] [Pair.mk 4 2020] = Returned out /\
    out ≡ₚ [Pair.mk 1 2001; Pair.mk 1 2010] ++ [Pair.mk 2 2005]
            ++ [Pair.mk 3 2005] ++ [Pair.mk 4 2020].
Proof.
  apply mergeFourSched_permutation; try discriminate.
  repeat constructor; simpl; lia.
Defined.

(** An entry whose year exceeds 9999 is never selected: the scan leaves
    [min_i] at 5 and the loop is left with that entry, and all entries
    behind it, unmerged. *)
Example mergeFourSched_year_10000 :
  mergeFourSched [Pair.mk 1 10000; Pair.mk 1 10001] [Pair.mk 2 2005]
                 [Pair.mk 3 2003] [Pair.mk 4 2020]
  = Returned [Pair.mk 3 2003; Pair.mk 2 2005; Pair.mk 4 2020].
Proof. reflexivity. Qed.

(** ** The schedulers: what is recorded and what is read *)

Section SchedulerRecords.
Context {F : Type} {AI : ArithInf F}.
Variable st : stack F.
Variable v : variant F.
Variable bridge : BridgeInfo F.
Variable ratingsDecay : Z -> Z -> Z.
Variable repairs : RepairEnvMat F.
Variable impMat : ImproveMat F.
Variable limit : Z.

Local Abbreviation filled_ := (filled st v bridge ratingsDecay repairs impMat limit).

(** *** The three values recorded at a cell *)

Section Records.
Variable Q : Z -> Z -> Z -> Z -> Z -> Prop.
Hypothesis Q_sentinel : forall x y, Q x y (-1) 0 0.
Hypothesis Q_transition : forall year rating i j pr,
  0 <= year <= 100 -> limit <= rating <= 8 ->
  iStart v rating <= i <= 8 -> limit <= j < i ->
  0 <= year - ratingsDecay i rating ->
  pr = 0 \/ pr ∈ map Input.repairID repairs ->
  Q year rating (year - ratingsDecay i rating) j pr.

Lemma records_setM T x y c : records st Q T -> records st Q (setM T x y c).
Proof. intros H x' y'. apply H. Qed.

Lemma records_setPre T x y px py pr :
  records st Q T -> Q x y px py pr -> records st Q (setPre T x y px py pr).
Proof.
  intros H Hq x' y'. rewrite getX_setPre, getY_setPre, getRepair_setPre.
  destruct (decide ((x', y') = (x, y))) as [[= -> ->]|_]; [done|apply H].
Qed.

Lemma records_initM T : records st Q T -> records st Q (initM T).
Proof.
  unfold initM. apply (foldl_invariant (records st Q)). intros T1 i _.
  apply (foldl_invariant (records st Q)). intros T2 j _. apply records_setM.
Qed.

Lemma records_boundary T :
  records st Q T -> records st Q (boundary bridge ratingsDecay limit T).
Proof.
  unfold boundary. apply (foldl_invariant (records st Q)). intros T1 rating _.
  apply (foldl_invariant (records st Q)). intros T2 year _.
  unfold boundaryRow. apply (foldl_invariant (records st Q)). intros T3 i _ H3.
  apply records_setPre; [by apply records_setM|apply Q_sentinel].
Qed.

(** The repair elected by the loop over the catalog is the one elected
    before it, or the [repairID] of a row. *)
Lemma kStep_repairId i j yearDecay (l : RepairEnvMat F) : forall acc,
  l ⊆ repairs ->
  acc.2 = 0 \/ acc.2 ∈ map Input.repairID repairs ->
  (foldl (kStep st v bridge repairs impMat i j yearDecay) acc l).2 = 0 \/
  (foldl (kStep st v bridge repairs impMat i j yearDecay) acc l).2
    ∈ map Input.repairID repairs.
Proof.
  induction l as [|r l IH]; intros acc Hl Hacc; [done|]. cbn [foldl].
  apply IH; [intros r' Hr'; apply Hl; by right|].
  assert (Hr : Input.repairID r ∈ map Input.repairID repairs).
  { apply (list_elem_of_fmap_2 Input.repairID). apply Hl. left. }
  unfold kStep. destruct acc as [rc rid]. cbn [snd] in *.
  repeat (match goal with |- context [if ?b then _ else _] => destruct b end);
    cbn [snd]; auto.
Qed.

Lemma records_jStep year rating i s j :
  0 <= year <= 100 -> limit <= rating <= 8 ->
  iStart v rating <= i <= 8 -> limit <= j < i ->
  0 <= year - ratingsDecay i rating ->
  records st Q (js_tables s) ->
  js_repairId s = 0 \/ js_repairId s ∈ map Input.repairID repairs ->
  let s' := jStep st v bridge repairs impMat year rating i
                  (year - ratingsDecay i rating) s j in
  records st Q (js_tables s') /\
  (js_repairId s' = 0 \/ js_repairId s' ∈ map Input.repairID repairs).
Proof.
  intros Hy Hr Hi Hj Hd Hs Hid. cbn zeta. unfold jStep.
  pose proof (kStep_repairId i j (year - ratingsDecay i rating) repairs
                (js_repairCost s, js_repairId s) ltac:(done) Hid) as Hk.
  destruct (foldl _ _ repairs) as [rc rid]. cbn [snd] in Hk.
  destruct (accepts _ _ _ _ _ _ _); cbn [js_tables js_repairId]; (split; [|done]);
    [|done].
  apply records_setPre; [done|]. by apply Q_transition.
Qed.

Lemma records_iBody year rating i T min :
  0 <= year <= 100 -> limit <= rating <= 8 -> iStart v rating <= i <= 8 ->
  0 <= year - ratingsDecay i rating ->
  records st Q T ->
  records st Q (iBody st v bridge repairs impMat limit year rating i
                      (year - ratingsDecay i rating) T min).1.
Proof.
  intros Hy Hr Hi Hd HT. unfold iBody. cbn [fst].
  refine (proj1 (foldl_invariant
            (fun s => records st Q (js_tables s) /\
                      (js_repairId s = 0 \/
                       js_repairId s ∈ map Input.repairID repairs))
            _ _ _ _ _)).
  - intros s j Hj [Hs Hid]. apply elem_of_seqZ in Hj.
    apply records_jStep; try done; lia.
  - split; [done|by left].
Qed.

Lemma considered_nonneg year rating i :
  i ∈ considered v ratingsDecay year rating -> 0 <= year - ratingsDecay i rating.
Proof.
  unfold considered.
  induction (seqZ (iStart v rating) (9 - iStart v rating)) as [|i0 l IH];
    simpl; [by intros ?%elem_of_nil|].
  destruct (Z.ltb_spec (year - ratingsDecay i0 rating) 0) as [?|Hge];
    [by intros ?%elem_of_nil|].
  intros [->|Hi]%elem_of_cons; [done|by apply IH].
Qed.

Lemma records_cell year rating T :
  0 <= year <= 100 -> limit <= rating <= 8 ->
  records st Q T ->
  records st Q (cell st v bridge ratingsDecay repairs impMat limit year T rating).
Proof.
  intros Hy Hr HT. rewrite cell_considered. destruct (_ && _); [done|].
  cbn zeta. apply records_setM.
  apply (foldl_invariant (fun a : tables F * F => records st Q a.1)); [|done].
  intros [T1 min1] i Hi H1. cbn [fst snd] in *.
  assert (Hi' : iStart v rating <= i <= 8).
  { apply elem_of_untilBreak, elem_of_seqZ in Hi. lia. }
  apply records_iBody; try done. by apply considered_nonneg.
Qed.

Lemma records_fill T :
  records st Q T ->
  records st Q (fill st v bridge ratingsDecay repairs impMat limit T).
Proof.
  unfold fill. apply (foldl_invariant (records st Q)). intros T1 year Hy.
  apply (foldl_invariant (records st Q)). intros T2 rating Hr.
  apply elem_of_seqZ in Hy, Hr. apply records_cell; lia.
Qed.

Lemma records_filled :
  (forall x y, Q x y (stack_preX st x y) (stack_preY st x y) (stack_preRepair st x y)) ->
  records st Q filled_.
Proof.
  intros Hst. unfold filled. apply records_fill, records_boundary, records_initM.
  intros x y. unfold getX, getY, getRepair; simpl. rewrite !lookup_empty. apply Hst.
Qed.

End Records.

Lemma planned_filled :
  decay_nonneg ratingsDecay limit ->
  (forall x y, stack_preX st x y < 0) ->
  records st (planned repairs limit) filled_.
Proof.
  intros Hd Hst. apply records_filled.
  - intros x y. by left.
  - intros year rating i j pr Hy Hr Hi Hj Hyd Hpr. right.
    assert (rating <= i) by (destruct v; simpl in Hi; lia).
    specialize (Hd i rating ltac:(lia) ltac:(lia) ltac:(lia)).
    split; [lia|]. split; [lia|done].
  - intros x y. left. apply Hst.
Qed.

Lemma collect_planned (T : tables F) (fuel : nat) :
  records st (planned repairs limit) T ->
  forall x y temp, x <= 100 -> collect st bridge fuel T x y = Some temp ->
    Forall (fun p => Pair.repairID p ∈ map Input.repairID repairs /\
                     startYear bridge <= Pair.repairYear p <= startYear bridge + 100)
           temp.
Proof.
  intros HT. induction fuel as [|fuel IH]; intros x y temp Hx; cbn [collect].
  - destruct (_ && _); [done|]. intros [= <-]. constructor.
  - destruct (Z.gtb_spec (getX st T x y) (-1)) as [Hpx|Hpx]; cbn [andb];
      [|intros [= <-]; constructor].
    destruct (Z.gtb_spec (getRepair st T x y) 0) as [Hpr|Hpr];
      [|intros [= <-]; constructor].
    destruct (collect st bridge fuel T _ _) as [temp'|] eqn:Hc; [|done].
    cbn [fmap option_fmap option_map]. intros [= <-].
    destruct (HT x y) as [?|(Hx' & Hy' & [Hr0|Hr])]; [exfalso; lia|exfalso; lia|].
    constructor; [cbn; split; [done|lia]|]. apply (IH (getX st T x y) (getY st T x y) temp'); [lia|exact Hc].
Qed.

(** Every entry appended to [optSchedule] is a repair of the catalog,
    placed in one of the 101 years of the horizon. *)
Theorem optSchedule_entries_in_catalog (fuel : nat) (old : RepairSchedule)
    (r : result F) :
  decay_nonneg ratingsDecay limit ->
  (forall x y, stack_preX st x y < 0) ->
  findOptSchedule st v bridge ratingsDecay repairs impMat limit fuel old
  = Returned r ->
  exists new : RepairSchedule,
    optSchedule r = old ++ new /\
    Forall (fun p => Pair.repairID p ∈ map Input.repairID repairs /\
                     startYear bridge <= Pair.repairYear p <= startYear bridge + 100)
           new.
Proof.
  intros Hd Hst. unfold findOptSchedule.
  destruct (finals _ _ _ _) as [[[m y] f]|]; [|done].
  destruct (collect _ _ _ _ _ _) as [temp|] eqn:Hc; [|done].
  intros [= <-]. exists (rev temp). split; [done|].
  apply Forall_rev.
  refine (collect_planned _ _ (planned_filled Hd Hst) 100 y temp _ Hc). lia.
Qed.

Lemma collect_earlier (T : tables F) (fuel : nat) :
  pointers st earlier T ->
  forall x y temp, collect st bridge fuel T x y = Some temp ->
    Forall (fun p => Pair.repairYear p < x + startYear bridge) temp /\
    StronglySorted (flip year_lt) temp.
Proof.
  intros HT. induction fuel as [|fuel IH]; intros x y temp; simpl.
  - destruct (_ && _); [done|]. intros [= <-]. split; constructor.
  - destruct (Z.gtb_spec (getX st T x y) (-1)) as [Hx|Hx]; simpl;
      [|intros [= <-]; split; constructor].
    destruct (getRepair st T x y >? 0); [|intros [= <-]; split; constructor].
    destruct (collect st bridge fuel T _ _) as [temp'|] eqn:Hc; [|done].
    simpl. intros [= <-]. destruct (IH _ _ _ Hc) as [Hlt Hs].
    assert (Hpx : getX st T x y < x) by (destruct (HT x y); lia).
    split.
    + constructor; [simpl; lia|].
      eapply Forall_impl; [exact Hlt|]. intros p Hp. simpl in Hp. lia.
    + constructor; [done|].
      eapply Forall_impl; [exact Hlt|]. intros p Hp. unfold flip, year_lt.
      cbn in *. lia.
Qed.

End SchedulerRecords.

(** In the impact variant every transition goes back by at least one year
    when each rating level takes at least a year: the entries appended to
    [optSchedule] are in strictly ascending order of [repairYear], so no two
    of them fall in the same year. *)
Theorem findOptEnvSchedule_one_repair_per_year {F : Type} {AI : ArithInf F}
    (st : stack F) (bridge : BridgeInfo F) (ratingsDecay : Z -> Z -> Z)
    (repairs : RepairEnvMat F) (impMat : ImproveMat F) (limit : Z) (fuel : nat)
    (old : RepairSchedule) (r : result F) :
  decay_positive (@Env F) ratingsDecay limit ->
  (forall x y, stack_preX st x y < 0) ->
  findOptEnvSchedule st bridge ratingsDecay repairs impMat limit fuel old
  = Returned r ->
  exists new : RepairSchedule,
    optSchedule r = old ++ new /\ strictly_ascending new.
Proof.
  intros [Hpos _] Hst. unfold findOptEnvSchedule, findOptSchedule.
  destruct (finals _ _ _ _) as [[[m y] f]|]; [|done].
  destruct (collect _ _ _ _ _ _) as [temp|] eqn:Hc; [|done].
  intros [= <-]. exists (rev temp). split; [done|].
  apply StronglySorted_rev.
  refine (proj2 (collect_earlier st bridge _ fuel _ _ _ _ Hc)).
  apply pointers_filled.
  - intros x0 y0. by left.
  - intros year rating i j Hy Hr Hi Hj Hd. right. simpl in Hi.
    specialize (Hpos i rating ltac:(lia) ltac:(lia) ltac:(lia)). lia.
  - intros x0 y0. left. apply Hst.
Qed.

(** *** The cells of the decay table the schedulers read *)

Lemma foldl_ext_in {A B : Type} (f g : A -> B -> A) (l : list B) :
  (forall a b, b ∈ l -> f a b = g a b) -> forall a, foldl f a l = foldl g a l.
Proof.
  induction l as [|b l IH]; intros Hfg a; simpl; [done|].
  rewrite (Hfg a b) by left. apply IH. intros a' b' Hb'. apply Hfg. by right.
Qed.

Section DecayRead.
Context {F : Type} {AI : ArithInf F}.
Variable st : stack F.
Variable v : variant F.
Variable bridge : BridgeInfo F.
Variable rd rd' : Z -> Z -> Z.
Variable repairs : RepairEnvMat F.
Variable impMat : ImproveMat F.
Variable limit : Z.
Hypothesis Hsame : same_decay limit rd rd'.
Hypothesis Hstart : startRating bridge <= 9.

Lemma boundary_same_decay T :
  boundary bridge rd limit T = boundary bridge rd' limit T.
Proof.
  unfold boundary. apply foldl_ext_in. intros T1 rating Hr.
  apply elem_of_countdown in Hr.
  by rewrite (Hsame (startRating bridge) (rating + 1)),
    (Hsame (startRating bridge) rating) by lia.
Qed.

Lemma iLoop_same_decay year rating (ivals : list Z) :
  limit <= rating -> (forall i, i ∈ ivals -> rating <= i <= 8) ->
  forall T min,
    iLoop st v bridge rd repairs impMat limit year rating ivals T min
    = iLoop st v bridge rd' repairs impMat limit year rating ivals T min.
Proof.
  intros Hr. induction ivals as [|i ivals IH]; intros Hi T min; [done|].
  cbn [iLoop]. rewrite (Hsame i rating) by (specialize (Hi i ltac:(left)); lia).
  destruct (_ <? 0); [done|]. destruct (iBody _ _ _ _ _ _ _ _ _ _ _ _) as [T' min'].
  apply IH. intros i' Hi'. apply Hi. by right.
Qed.

Lemma cell_same_decay year T rating :
  limit <= rating <= 8 ->
  cell st v bridge rd repairs impMat limit year T rating
  = cell st v bridge rd' repairs impMat limit year T rating.
Proof.
  intros Hr. unfold cell.
  assert (Hc : (rating <=? startRating bridge) && (rd (startRating bridge) rating >=? year)
               = (rating <=? startRating bridge)
                 && (rd' (startRating bridge) rating >=? year)).
  { destruct (Z.leb_spec rating (startRating bridge)); [|done].
    by rewrite (Hsame (startRating bridge) rating) by lia. }
  rewrite Hc. clear Hc. destruct (_ && _); [done|].
  rewrite iLoop_same_decay; [done|lia|].
  intros i Hi. apply elem_of_seqZ in Hi. destruct v; simpl in Hi; lia.
Qed.

Lemma filled_same_decay :
  filled st v bridge rd repairs impMat limit
  = filled st v bridge rd' repairs impMat limit.
Proof.
  unfold filled. rewrite boundary_same_decay. unfold fill.
  apply foldl_ext_in. intros T1 year _. apply foldl_ext_in. intros T2 rating Hr.
  apply elem_of_seqZ in Hr. apply cell_same_decay. lia.
Qed.

Lemma findOptSchedule_same_decay (fuel : nat) (old : RepairSchedule) :
  findOptSchedule st v bridge rd repairs impMat limit fuel old
  = findOptSchedule st v bridge rd' repairs impMat limit fuel old.
Proof. unfold findOptSchedule. by rewrite filled_same_decay. Qed.

End DecayRead.

(** [ratingDecay] followed by a scheduler, as in [blackBox.cpp] (lines 41-43
    and 131-151): the scheduler reads only cells of [ratingsDecay] that
    [ratingDecay] has written, so the result does not depend on what the
    uninitialised array [ratingsDecay[10][10]] held before, provided the
    start rating is at most 9. *)
Theorem findOptSchedule_after_ratingDecay {F : Type} {AI : ArithInf F}
    (st : stack F) (v : variant F) (bridge : BridgeInfo F)
    (repairs : RepairEnvMat F) (impMat : ImproveMat F) (limit : Z) (fuel : nat)
    (old : RepairSchedule) (tp : Z -> F) (coeff : F * F * F)
    (rd0 rd0' rd rd' : Z -> Z -> Z) :
  startRating bridge <= 9 ->
  ratingDecay tp rd0 coeff limit = Returned rd ->
  ratingDecay tp rd0' coeff limit = Returned rd' ->
  findOptSchedule st v bridge rd repairs impMat limit fuel old
  = findOptSchedule st v bridge rd' repairs impMat limit fuel old.
Proof.
  intros Hs Hrd Hrd'. destruct coeff as [[a b] c].
  apply ratingDecay_Returned in Hrd as [_ Hrd].
  apply ratingDecay_Returned in Hrd' as [_ Hrd'].
  apply findOptSchedule_same_decay; [|done].
  intros i j H1 H2 H3. by rewrite Hrd, Hrd' by done.
Qed.

(** *** The cells of [M] the schedulers read *)

Lemma foldl_ext_inv {A B : Type} (I : A -> Prop) (f g : A -> B -> A) (l : list B) :
  (forall a b, b ∈ l -> I a -> f a b = g a b /\ I (f a b)) ->
  forall a, I a -> foldl f a l = foldl g a l /\ I (foldl f a l).
Proof.
  induction l as [|b l IH]; intros Hfg a Ha; simpl; [done|].
  destruct (Hfg a b ltac:(left) Ha) as [<- Ha']. apply IH; [|done].
  intros a' b' Hb'. apply Hfg. by right.
Qed.

Section MRead.
Context {F : Type} {AI : ArithInf F}.
Variable st : stack F.
Variable m' : Z -> Z -> F.
Variable v : variant F.
Variable bridge : BridgeInfo F.
Variable ratingsDecay : Z -> Z -> Z.
Variable repairs : RepairEnvMat F.
Variable impMat : ImproveMat F.
Variable limit : Z.
Hypothesis Hlimit : 0 <= limit.
Hypothesis Hdecay : decay_nonneg ratingsDecay limit.

(** [st] with other indeterminate values for the cells of [M]. *)
Local Abbreviation st_ :=
  (mkStack m' (stack_preX st) (stack_preY st) (stack_preRepair st)
           (stack_optFinalCondition st) (stack_impCoeff st)).

Lemma getM_covered (T : tables F) x y :
  M_covered T -> 0 <= x <= 100 -> 0 <= y <= 8 -> getM st_ T x y = getM st T x y.
Proof.
  intros HT Hx Hy. unfold getM. by destruct (HT x y Hx Hy) as [c ->].
Qed.

Lemma M_covered_setM (T : tables F) x y c : M_covered T -> M_covered (setM T x y c).
Proof.
  intros HT x' y' Hx Hy. unfold setM; simpl.
  destruct (decide ((x, y) = (x', y'))) as [->|Hne].
  - rewrite lookup_insert_eq. by eexists.
  - rewrite lookup_insert_ne by done. by apply HT.
Qed.

Lemma M_covered_setPre (T : tables F) x y px py pr : M_covered T -> M_covered (setPre T x y px py pr).
Proof. intros HT x' y' Hx Hy. by apply HT. Qed.

Lemma initM_row (i : Z) (x y : Z) (l : list Z) : forall T : tables F,
  (x = i /\ y ∈ l) \/ is_Some (M T !! (x, y)) ->
  is_Some (M (foldl (fun (T : tables F) j => setM T i j (of_int 0)) T l) !! (x, y)).
Proof.
  induction l as [|j l IH]; intros T H; simpl.
  - destruct H as [[_ H]|H]; [by apply elem_of_nil in H|done].
  - apply IH. destruct (decide ((i, j) = (x, y))) as [[= -> ->]|Hne].
    + right. unfold setM; simpl. rewrite lookup_insert_eq. by eexists.
    + destruct H as [[-> H]|H].
      * left. split; [done|]. apply elem_of_cons in H as [->|H]; [done|done].
      * right. unfold setM; simpl. by rewrite lookup_insert_ne.
Qed.

Lemma initM_rows (x y : Z) (l : list Z) : forall T : tables F,
  (x ∈ l /\ 0 <= y <= 8) \/ is_Some (M T !! (x, y)) ->
  is_Some (M (foldl (fun (T : tables F) i =>
                       foldl (fun (T : tables F) j => setM T i j (of_int 0))
                             T (seqZ 0 9)) T l) !! (x, y)).
Proof.
  induction l as [|i l IH]; intros T H; cbn [foldl].
  - destruct H as [[H _]|H]; [by apply elem_of_nil in H|done].
  - apply IH. destruct (decide (x = i)) as [->|Hne].
    + right. apply initM_row. destruct H as [[_ Hy]|H]; [left|by right].
      split; [done|]. apply elem_of_seqZ. lia.
    + destruct H as [[H Hy]|H].
      * left. split; [|done]. apply elem_of_cons in H as [?|?]; done.
      * right. apply initM_row. by right.
Qed.

Lemma M_covered_initM (T : tables F) : M_covered (initM T).
Proof.
  intros x y Hx Hy. unfold initM. apply initM_rows. left.
  split; [|done]. apply elem_of_seqZ. lia.
Qed.

Lemma M_covered_boundary (T : tables F) :
  M_covered T -> M_covered (boundary bridge ratingsDecay limit T).
Proof.
  unfold boundary. apply (foldl_invariant (@M_covered F)). intros T1 rating _.
  apply (foldl_invariant (@M_covered F)). intros T2 year _.
  unfold boundaryRow. apply (foldl_invariant (@M_covered F)). intros T3 i _ H3.
  by apply M_covered_setPre, M_covered_setM.
Qed.

Lemma jStep_stack_M year rating i yearDecay s j :
  0 <= yearDecay <= 100 -> 0 <= j <= 8 -> M_covered (js_tables s) ->
  jStep st_ v bridge repairs impMat year rating i yearDecay s j
  = jStep st v bridge repairs impMat year rating i yearDecay s j /\
  M_covered (js_tables (jStep st_ v bridge repairs impMat year rating i yearDecay s j)).
Proof.
  intros Hyd Hj Hs.
  assert (He : jStep st_ v bridge repairs impMat year rating i yearDecay s j
               = jStep st v bridge repairs impMat year rating i yearDecay s j).
  { unfold jStep. change (kStep st_ v bridge repairs impMat)
      with (kStep st v bridge repairs impMat).
    destruct (foldl _ _ repairs) as [rc rid].
    rewrite (getM_covered _ _ _ Hs Hyd Hj).
    change (accepts st_ v) with (accepts st v). done. }
  split; [done|]. rewrite He. unfold jStep.
  destruct (foldl _ _ repairs) as [rc rid].
  destruct (accepts _ _ _ _ _ _ _); cbn [js_tables]; [by apply M_covered_setPre|done].
Qed.

Lemma iBody_stack_M year rating i yearDecay T min :
  0 <= yearDecay <= 100 -> i <= 8 -> M_covered T ->
  iBody st_ v bridge repairs impMat limit year rating i yearDecay T min
  = iBody st v bridge repairs impMat limit year rating i yearDecay T min /\
  M_covered (iBody st_ v bridge repairs impMat limit year rating i yearDecay T min).1.
Proof.
  intros Hyd Hi HT. unfold iBody.
  destruct (foldl_ext_inv (fun s => M_covered (js_tables s))
              (jStep st_ v bridge repairs impMat year rating i yearDecay)
              (jStep st v bridge repairs impMat year rating i yearDecay)
              (seqZ limit (i - limit))) with (a := mkJstate T min infinity 0)
    as [He Hc]; [|done|].
  - intros s j Hj Hs. apply elem_of_seqZ in Hj. apply jStep_stack_M; [done|lia|done].
  - rewrite <- He. split; [done|]. cbn [fst]. done.
Qed.

Lemma iLoop_stack_M year rating (ivals : list Z) :
  0 <= year <= 100 -> limit <= rating ->
  (forall i, i ∈ ivals -> rating <= i <= 8) ->
  forall T min, M_covered T ->
    iLoop st_ v bridge ratingsDecay repairs impMat limit year rating ivals T min
    = iLoop st v bridge ratingsDecay repairs impMat limit year rating ivals T min /\
    M_covered
      (iLoop st_ v bridge ratingsDecay repairs impMat limit year rating ivals T min).1.
Proof.
  intros Hy Hr. induction ivals as [|i ivals IH]; intros Hi T min HT; [done|].
  cbn [iLoop]. destruct (Z.ltb_spec (year - ratingsDecay i rating) 0) as [?|Hge];
    [done|].
  assert (Hi' : rating <= i <= 8) by (apply Hi; left).
  pose proof (Hdecay i rating ltac:(lia) ltac:(lia) ltac:(lia)) as Hd.
  destruct (iBody_stack_M year rating i (year - ratingsDecay i rating) T min)
    as [He Hc]; [lia|lia|done|].
  rewrite He in *. destruct (iBody st _ _ _ _ _ _ _ _ _ _ _) as [T' min'].
  apply IH; [|done]. intros i' Hi''. apply Hi. by right.
Qed.

Lemma cell_stack_M year T rating :
  0 <= year <= 100 -> limit <= rating <= 8 -> M_covered T ->
  cell st_ v bridge ratingsDecay repairs impMat limit year T rating
  = cell st v bridge ratingsDecay repairs impMat limit year T rating /\
  M_covered (cell st_ v bridge ratingsDecay repairs impMat limit year T rating).
Proof.
  intros Hy Hr HT. unfold cell. destruct (_ && _); [done|].
  destruct (iLoop_stack_M year rating (seqZ (iStart v rating) (9 - iStart v rating))
              Hy ltac:(lia)) with (T := T) (min := infinity) as [He Hc]; [|done|].
  - intros i Hi. apply elem_of_seqZ in Hi. destruct v; simpl in Hi; lia.
  - rewrite He in *. destruct (iLoop st _ _ _ _ _ _ _ _ _ _ _) as [T' min'].
    split; [done|]. by apply M_covered_setM.
Qed.

Lemma filled_stack_M :
  filled st_ v bridge ratingsDecay repairs impMat limit
  = filled st v bridge ratingsDecay repairs impMat limit /\
  M_covered (filled st v bridge ratingsDecay repairs impMat limit).
Proof.
  unfold filled, fill.
  destruct (foldl_ext_inv (@M_covered F)
              (fun T year =>
                 foldl (cell st_ v bridge ratingsDecay repairs impMat limit year) T
                       (seqZ limit (9 - limit)))
              (fun T year =>
                 foldl (cell st v bridge ratingsDecay repairs impMat limit year) T
                       (seqZ limit (9 - limit)))
              (seqZ 0 101))
    with (a := boundary bridge ratingsDecay limit (initM (mkTables ∅ ∅ ∅ ∅)))
    as [He Hc].
  - intros T year Hy HT. apply elem_of_seqZ in Hy.
    apply (foldl_ext_inv (@M_covered F)); [|done].
    intros T1 rating Hr HT1. apply elem_of_seqZ in Hr. apply cell_stack_M; [lia|lia|done].
  - apply M_covered_boundary, M_covered_initM.
  - split; [done|]. by rewrite <- He.
Qed.

Lemma finals_stack_M fuel T :
  M_covered T -> finals st_ limit fuel T = finals st limit fuel T.
Proof.
  intros HT. unfold finals. change (stack_optFinalCondition st_)
    with (stack_optFinalCondition st).
  apply foldl_ext_in. intros acc i Hi. apply elem_of_seqZ in Hi.
  unfold finalStep. destruct acc as [[[m o] f]|]; [|done]. cbn.
  rewrite (getM_covered T 100 i HT) by lia. done.
Qed.

(** [M] is initialised in full before it is read (lines 25-27), and with a
    decay table without negative entries and a floor of at least 0 every
    read of [M] stays inside [M[101][9]]: the result does not depend on the
    indeterminate values that cells of [M] never written would hold. *)
Theorem findOptSchedule_reads_M_initialised (fuel : nat) (old : RepairSchedule) :
  findOptSchedule st_ v bridge ratingsDecay repairs impMat limit fuel old
  = findOptSchedule st v bridge ratingsDecay repairs impMat limit fuel old.
Proof.
  unfold findOptSchedule. destruct filled_stack_M as [-> Hc].
  by rewrite (finals_stack_M fuel _ Hc).
Qed.

End MRead.

(** *** The loop over the final conditions *)

Section Finals.
Context {F : Type} {AI : ArithInf F}.
Variable st : stack F.
Variable limit : Z.
Variable fuel : nat.
Variable T : tables F.

Lemma finals_fold (l : list Z) : forall m0 o0 f0 m o f,
  foldl (finalStep st fuel T) (Some (m0, o0, f0)) l = Some (m, o, f) ->
  ((m = m0 /\ o = o0 /\ forall i, i ∈ l -> (getM st T 100 i <? m0)%fl = false) \/
   (o ∈ l /\ m = getM st T 100 o)) /\
  exists blocks,
    f = f0 ++ blocks /\
    map (fun b => (b.1.1, b.1.2)) blocks = map (fun i => (i, getM st T 100 i)) l /\
    Forall (fun b => walk st fuel T 100 b.1.1 = Some b.2) blocks.
Proof.
  induction l as [|i l IH]; intros m0 o0 f0 m o f; cbn [foldl].
  - intros [= <- <- <-]. split.
    + left. split; [done|]. split; [done|]. by intros i ?%elem_of_nil.
    + exists []. by rewrite app_nil_r.
  - unfold finalStep at 2. cbn [mbind option_bind].
    destruct (walk st fuel T 100 i) as [rows|] eqn:Hw.
    2:{ destruct (_ <? _)%fl; cbn; rewrite foldl_finalStep_None; done. }
    destruct (getM st T 100 i <? m0)%fl eqn:Hlt; cbn; intros Hf;
      destruct (IH _ _ _ _ _ _ Hf) as [Hm (blocks & -> & Hb & Hrows)]; split.
    + right. destruct Hm as [(-> & -> & _)|[Ho ->]]; [split; [left|done]|].
      split; [by right|done].
    + exists ((i, getM st T 100 i, rows) :: blocks). rewrite <- app_assoc.
      split; [done|]. split; [cbn; by rewrite Hb|]. by constructor.
    + destruct Hm as [(-> & -> & Hall)|[Ho ->]].
      * left. split; [done|]. split; [done|].
        intros i' [->|Hi']%elem_of_cons; [done|by apply Hall].
      * right. split; [by right|done].
    + exists ((i, getM st T 100 i, rows) :: blocks). rewrite <- app_assoc.
      split; [done|]. split; [cbn; by rewrite Hb|]. by constructor.
Qed.

End Finals.

(** The value returned is the entry [M[100][c]] of a final condition [c]
    of [limit..7], and the schedule is reconstructed from the cell
    [(100, c)].  When no final condition
    compares below infinity, the value returned is infinity and
    [optFinalCondition] is never assigned: the reconstruction then starts
    from the indeterminate value of that variable.  The file holds one
    block per final condition, in the order [limit..7], with that
    condition's [M[100][i]] and the rows of its walk. *)
Theorem findOptSchedule_minTotalCost {F : Type} {AI : ArithInf F} (st : stack F)
    (v : variant F) (bridge : BridgeInfo F) (ratingsDecay : Z -> Z -> Z)
    (repairs : RepairEnvMat F) (impMat : ImproveMat F) (limit : Z) (fuel : nat)
    (old : RepairSchedule) (r : result F) :
  findOptSchedule st v bridge ratingsDecay repairs impMat limit fuel old
  = Returned r ->
  let T := filled st v bridge ratingsDecay repairs impMat limit in
  exists (c : Z) (temp : RepairSchedule),
    collect st bridge fuel T 100 c = Some temp /\
    optSchedule r = old ++ rev temp /\
    ((minTotalCost r = infinity /\ c = stack_optFinalCondition st /\
      forall i, limit <= i <= 7 -> (getM st T 100 i <? infinity)%fl = false) \/
     (limit <= c <= 7 /\ minTotalCost r = getM st T 100 c)) /\
    map (fun b => (b.1.1, b.1.2)) (ofile r)
    = map (fun i => (i, getM st T 100 i)) (seqZ limit (8 - limit)) /\
    Forall (fun b => walk st fuel T 100 b.1.1 = Some b.2) (ofile r).
Proof.
  cbn zeta. unfold findOptSchedule, finals.
  destruct (foldl _ _ _) as [[[m c] f]|] eqn:Hf; [|done].
  destruct (collect _ _ _ _ _ _) as [temp|] eqn:Hc; [|done].
  intros [= <-]. exists c, temp. cbn.
  destruct (finals_fold st fuel _ _ _ _ _ _ _ _ Hf) as [Hm (blocks & -> & Hb & Hrows)].
  split; [done|]. split; [done|]. split; [|done].
  destruct Hm as [(-> & -> & Hall)|[Ho ->]].
  - left. split; [done|]. split; [done|]. intros i Hi. apply Hall, elem_of_seqZ. lia.
  - right. apply elem_of_seqZ in Ho. split; [lia|done].
Qed.

(** *** The same facts on runs in binary32 *)

(** A run of the impact variant on the sample table. *)
Lemma optSchedule_entries_in_catalog_witness :
  exists (r : result binary32) (new : RepairSchedule),
    findOptSchedule stack_sentinel Env bridge_10x8 sample_decay catalog_5 [] 4 200
                    [Pair.mk 9 1999] = Returned r /\
    optSchedule r = [Pair.mk 9 1999] ++ new /\
    Forall (fun p => Pair.repairID p ∈ map Input.repairID catalog_5 /\
                     startYear bridge_10x8 <= Pair.repairYear p
                     <= startYear bridge_10x8 + 100) new.
Proof.
  assert (Hr : exists r, findOptSchedule stack_sentinel Env bridge_10x8 sample_decay
                           catalog_5 [] 4 200 [Pair.mk 9 1999] = Returned r)
    by (vm_compute; eexists; reflexivity).
  destruct Hr as [r Hr].
  destruct (optSchedule_entries_in_catalog stack_sentinel Env bridge_10x8 sample_decay
              catalog_5 [] 4 200 [Pair.mk 9 1999] r sample_decay_nonneg) as (new & H1 & H2).
  - intros x y. simpl. lia.
  - exact Hr.
  - exists r, new. split; [exact Hr|]. split; [exact H1|exact H2].
Defined.

Lemma findOptEnvSchedule_one_repair_per_year_witness :
  exists (r : result binary32) (new : RepairSchedule),
    findOptEnvSchedule stack_sentinel bridge_10x8 sample_decay catalog_5 [] 4 200 []
    = Returned r /\
    optSchedule r = [] ++ new /\ strictly_ascending new.
Proof.
  assert (Hr : exists r, findOptEnvSchedule stack_sentinel bridge_10x8 sample_decay
                           catalog_5 [] 4 200 [] = Returned r)
    by (vm_compute; eexists; reflexivity).
  destruct Hr as [r Hr].
  destruct (findOptEnvSchedule_one_repair_per_year stack_sentinel bridge_10x8
              sample_decay catalog_5 [] 4 200 [] r (sample_decay_positive Env))
    as (new & H1 & H2).
  - intros x y. simpl. lia.
  - exact Hr.
  - exists r, new. split; [exact Hr|]. split; [exact H1|exact H2].
Defined.

(** The table of the curve [rating = 9 - t^2/100], derived into an array
    that held zeros and into one that held [i + j]. *)
Lemma findOptSchedule_after_ratingDecay_witness :
  exists rd rd' : Z -> Z -> Z,
    ratingDecay (fun _ => b32_of_int 0) (fun _ _ => 0)
      (SFdiv 24 128 (b32_of_int (-1)) (b32_of_int 100), b32_of_int 0, b32_of_int 9) 4
    = Returned rd /\
    ratingDecay (fun _ => b32_of_int 0) (fun i j => i + j)
      (SFdiv 24 128 (b32_of_int (-1)) (b32_of_int 100), b32_of_int 0, b32_of_int 9) 4
    = Returned rd' /\
    rd 3 2 <> rd' 3 2 /\
    findOptSchedule stack_sentinel Env bridge_10x8 rd catalog_5 [] 4 200 []
    = findOptSchedule stack_sentinel Env bridge_10x8 rd' catalog_5 [] 4 200 [].
Proof.
  eexists. eexists. split; [reflexivity|]. split; [reflexivity|].
  split; [vm_compute; discriminate|].
  apply (findOptSchedule_after_ratingDecay stack_sentinel Env bridge_10x8 catalog_5 []
           4 200 [] (fun _ => b32_of_int 0)
           (SFdiv 24 128 (b32_of_int (-1)) (b32_of_int 100), b32_of_int 0, b32_of_int 9)
           (fun _ _ => 0) (fun i j => i + j)).
  - simpl. lia.
  - reflexivity.
  - reflexivity.
Defined.

Lemma findOptSchedule_reads_M_initialised_witness :
  findOptSchedule
    (mkStack (fun _ _ => b32_of_int 7) (stack_preX stack_sentinel)
             (stack_preY stack_sentinel) (stack_preRepair stack_sentinel)
             (stack_optFinalCondition stack_sentinel) (stack_impCoeff stack_sentinel))
    Env bridge_10x8 sample_decay catalog_5 [] 4 200 []
  = findOptSchedule stack_sentinel Env bridge_10x8 sample_decay catalog_5 [] 4 200 [].
Proof.
  apply (findOptSchedule_reads_M_initialised stack_sentinel (fun _ _ => b32_of_int 7)
           Env bridge_10x8 sample_decay catalog_5 [] 4).
  - lia.
  - apply sample_decay_nonneg.
Defined.

Lemma findOptSchedule_minTotalCost_witness :
  exists (r : result binary32) (c : Z) (temp : RepairSchedule),
    findOptSchedule stack_sentinel Env bridge_10x8 sample_decay catalog_5 [] 4 200 []
    = Returned r /\
    collect stack_sentinel bridge_10x8 200
      (filled stack_sentinel Env bridge_10x8 sample_decay catalog_5 [] 4) 100 c
    = Some temp /\
    optSchedule r = [] ++ rev temp /\
    ((minTotalCost r = infinity /\ c = stack_optFinalCondition stack_sentinel /\
      forall i, 4 <= i <= 7 ->
        (getM stack_sentinel
              (filled stack_sentinel Env bridge_10x8 sample_decay catalog_5 [] 4)
              100 i <? infinity)%fl = false) \/
     (4 <= c <= 7 /\
      minTotalCost r
      = getM stack_sentinel
             (filled stack_sentinel Env bridge_10x8 sample_decay catalog_5 [] 4)
             100 c)).
Proof.
  assert (Hr : exists r, findOptSchedule stack_sentinel Env bridge_10x8 sample_decay
                           catalog_5 [] 4 200 [] = Returned r)
    by (vm_compute; eexists; reflexivity).
  destruct Hr as [r Hr].
  destruct (findOptSchedule_minTotalCost stack_sentinel Env bridge_10x8 sample_decay
              catalog_5 [] 4 200 [] r Hr) as (c & temp & H1 & H2 & H3 & _).
  exists r, c, temp. split; [exact Hr|]. split; [exact H1|]. split; [exact H2|exact H3].
Defined.

(** With an empty catalog no final condition is below infinity: the value
    returned is infinity, and the schedule is reconstructed from the
    rating that [optFinalCondition] happened to hold. *)
Example findOptEnvSchedule_empty_catalog :
  exists r : result binary32,
    findOptEnvSchedule stack_sentinel bridge_10x8 sample_decay [] [] 4 200 []
    = Returned r /\
    minTotalCost r = infinity /\
    map (fun b => (b.1.1, b.1.2)) (ofile r)
    = [(4, infinity); (5, infinity); (6, infinity); (7, infinity)].
Proof. eexists. split; [vm_compute; reflexivity|]. split; vm_compute; reflexivity. Qed.

(** *** No plan of value 0 *)

Section NeverFree.
Context {F : Type} {AI : ArithInf F}.
Variable st : stack F.
Variable v : variant F.
Variable bridge : BridgeInfo F.
Variable ratingsDecay : Z -> Z -> Z.
Variable repairs : RepairEnvMat F.
Variable impMat : ImproveMat F.
Variable limit : Z.

Lemma jStep_priced year rating i yearDecay s j :
  priced (js_min s) ->
  priced (js_min (jStep st v bridge repairs impMat year rating i yearDecay s j)) /\
  M (js_tables (jStep st v bridge repairs impMat year rating i yearDecay s j))
  = M (js_tables s).
Proof.
  intros Hs. unfold jStep. destruct (foldl _ _ repairs) as [rc rid].
  destruct (accepts _ _ _ _ _ _ _) eqn:Ha; cbn [js_min js_tables]; [|done].
  split; [|done]. right. unfold accepts in Ha.
  apply andb_true_iff in Ha as [Ha _]. apply andb_true_iff in Ha as [_ Ha].
  by apply negb_true_iff in Ha.
Qed.

Lemma iBody_priced year rating i yearDecay T min :
  priced min ->
  priced (iBody st v bridge repairs impMat limit year rating i yearDecay T min).2 /\
  M (iBody st v bridge repairs impMat limit year rating i yearDecay T min).1 = M T.
Proof.
  intros Hmin. unfold iBody. cbn [fst snd].
  apply (foldl_invariant (fun s => priced (js_min s) /\ M (js_tables s) = M T));
    [|done].
  intros s j _ [Hs HM]. destruct (jStep_priced year rating i yearDecay s j Hs) as [H1 H2].
  split; [done|]. by rewrite H2.
Qed.

Lemma iLoop_priced year rating (ivals : list Z) : forall T min,
  priced min ->
  priced (iLoop st v bridge ratingsDecay repairs impMat limit year rating ivals T min).2
  /\ M (iLoop st v bridge ratingsDecay repairs impMat limit year rating ivals T min).1
     = M T.
Proof.
  induction ivals as [|i ivals IH]; intros T min Hmin; [done|].
  cbn [iLoop]. destruct (_ <? 0); [done|].
  destruct (iBody_priced year rating i (year - ratingsDecay i rating) T min Hmin)
    as [H1 H2].
  destruct (iBody _ _ _ _ _ _ _ _ _ _ _ _) as [T' min']. cbn [fst snd] in H1, H2.
  destruct (IH T' min' H1) as [H3 H4]. split; [done|]. by rewrite H4.
Qed.

Lemma cell_M_other year T rating x y :
  (year, rating) <> (x, y) ->
  M (cell st v bridge ratingsDecay repairs impMat limit year T rating) !! (x, y)
  = M T !! (x, y).
Proof.
  intros Hne. unfold cell. destruct (_ && _); [done|].
  pose proof (iLoop_priced year rating (seqZ (iStart v rating) (9 - iStart v rating))
                T infinity (or_introl eq_refl)) as [_ HM].
  destruct (iLoop _ _ _ _ _ _ _ _ _ _ _ _) as [T' min']. cbn [fst] in HM.
  unfold setM; cbn [M]. rewrite lookup_insert_ne by done. by rewrite HM.
Qed.

Lemma cell_M_priced year T rating :
  on_boundary bridge ratingsDecay year rating = false ->
  exists c,
    M (cell st v bridge ratingsDecay repairs impMat limit year T rating)
    !! (year, rating) = Some c /\ priced c.
Proof.
  intros Hb. unfold cell. unfold on_boundary in Hb. rewrite Hb.
  pose proof (iLoop_priced year rating (seqZ (iStart v rating) (9 - iStart v rating))
                T infinity (or_introl eq_refl)) as [Hp _].
  destruct (iLoop _ _ _ _ _ _ _ _ _ _ _ _) as [T' min']. cbn [snd] in Hp.
  exists min'. unfold setM; cbn [M]. by rewrite lookup_insert_eq.
Qed.

Lemma row_M_priced year y (l : list Z) : forall T,
  NoDup l -> y ∈ l -> on_boundary bridge ratingsDecay year y = false ->
  exists c,
    M (foldl (cell st v bridge ratingsDecay repairs impMat limit year) T l)
    !! (year, y) = Some c /\ priced c.
Proof.
  induction l as [|a l IH]; intros T Hnd Hy Hb; [by apply elem_of_nil in Hy|].
  apply NoDup_cons in Hnd as [Ha Hnd]. cbn [foldl].
  destruct (decide (y ∈ l)) as [Hin|Hnin]; [by apply IH|].
  apply elem_of_cons in Hy as [->|Hy]; [|done].
  destruct (cell_M_priced year T a Hb) as (c & Hc & Hp). exists c. split; [|done].
  rewrite <- Hc. clear Hc IH Hnd.
  generalize (cell st v bridge ratingsDecay repairs impMat limit year T a).
  induction l as [|b l IH]; intros T1; [done|]. cbn [foldl].
  rewrite IH.
  - apply cell_M_other. intros [= ->]. apply Hnin. by left.
  - intros Hl. apply Ha. by right.
  - intros Hl. apply Hnin. by right.
Qed.

Lemma filled_M_priced (y : Z) :
  limit <= y <= 8 -> on_boundary bridge ratingsDecay 100 y = false ->
  priced (getM st (filled st v bridge ratingsDecay repairs impMat limit) 100 y).
Proof.
  intros Hy Hb. unfold filled, fill.
  assert (Hs : seqZ 0 101 = seqZ 0 100 ++ [100]) by (vm_compute; reflexivity).
  rewrite Hs, foldl_app. cbn [foldl].
  destruct (row_M_priced 100 y (seqZ limit (9 - limit))
              (foldl (fun T year =>
                        foldl (cell st v bridge ratingsDecay repairs impMat limit year)
                              T (seqZ limit (9 - limit)))
                     (boundary bridge ratingsDecay limit (initM (mkTables ∅ ∅ ∅ ∅)))
                     (seqZ 0 100)))
    as (c & Hc & Hp); [apply NoDup_seqZ|apply elem_of_seqZ; lia|done|].
  unfold getM. by rewrite Hc.
Qed.

(** The acceptance test rejects a transition whose accumulated value
    compares equal to 0 (lines 106 and 275), so the value of a cell the
    programme computes is infinity or differs from 0.  The value returned
    is therefore infinity or different from 0, unless it is the entry of
    a final condition [c] that lies on the decay path of the start
    condition at year 100 (the component reaches rating [c] only after
    the horizon without any repair): a plan of repairs that are all
    valued 0 is never returned with the value 0. *)
Theorem findOptSchedule_never_free (fuel : nat) (old : RepairSchedule) (r : result F) :
  findOptSchedule st v bridge ratingsDecay repairs impMat limit fuel old = Returned r ->
  priced (minTotalCost r) \/
  exists c, limit <= c <= 7 /\ c <= startRating bridge /\
            100 <= ratingsDecay (startRating bridge) c /\
            minTotalCost r
            = getM st (filled st v bridge ratingsDecay repairs impMat limit) 100 c.
Proof.
  unfold findOptSchedule, finals.
  destruct (foldl _ _ _) as [[[m c] f]|] eqn:Hf; [|done].
  destruct (collect _ _ _ _ _ _) as [temp|]; [|done].
  intros [= <-]. cbn [minTotalCost].
  destruct (finals_fold st fuel _ _ _ _ _ _ _ _ Hf) as [Hm _].
  destruct Hm as [(-> & _ & _)|[Ho ->]]; [left; by left|].
  apply elem_of_seqZ in Ho.
  destruct (on_boundary bridge ratingsDecay 100 c) eqn:Hb.
  - right. exists c. unfold on_boundary in Hb. apply andb_true_iff in Hb as [H1 H2].
    split; [lia|]. split; [lia|]. split; [lia|done].
  - left. apply filled_M_priced; [lia|done].
Qed.

End NeverFree.

(** A catalog whose only repair is valued 0 (repair 8 is of the seventh
    category): both variants return infinity, not 0; the impact variant
    returns a schedule together with it, the cost variant none. *)
Lemma findOptSchedule_never_free_witness :
  exists r : result binary32,
    findOptSchedule stack_sentinel Env bridge_10x8 sample_decay
                    [mkRepairEnv 8 4 6 2 1 (b32_of_int 5) (b32_of_int 6)] [] 4 200 []
    = Returned r /\
    (priced (minTotalCost r) \/
     exists c, 4 <= c <= 7 /\ c <= startRating bridge_10x8 /\
               100 <= sample_decay (startRating bridge_10x8) c /\
               minTotalCost r
               = getM stack_sentinel
                   (filled stack_sentinel Env bridge_10x8 sample_decay
                      [mkRepairEnv 8 4 6 2 1 (b32_of_int 5) (b32_of_int 6)] [] 4)
                   100 c).
Proof.
  assert (Hr : exists r, findOptSchedule stack_sentinel Env bridge_10x8 sample_decay
                 [mkRepairEnv 8 4 6 2 1 (b32_of_int 5) (b32_of_int 6)] [] 4 200 []
                 = Returned r)
    by (vm_compute; eexists; reflexivity).
  destruct Hr as [r Hr]. exists r. split; [exact Hr|].
  exact (findOptSchedule_never_free stack_sentinel Env bridge_10x8 sample_decay _ [] 4
           200 [] r Hr).
Defined.

Example findOptSchedule_zero_valued_repair :
  (exists r : result binary32,
     findOptEnvSchedule stack_sentinel bridge_10x8 sample_decay
       [mkRepairEnv 8 4 6 2 1 (b32_of_int 5) (b32_of_int 6)] [] 4 200 [] = Returned r /\
     minTotalCost r = infinity /\ optSchedule r <> []) /\
  (exists r : result binary32,
     findOptCostSchedule stack_sentinel bridge_10x8 sample_decay
       [mkRepairEnv 8 4 6 2 1 (b32_of_int 5) (b32_of_int 6)]
       {[8 := b32_of_int 120]} [] 4 200 [] = Returned r /\
     minTotalCost r = infinity /\ optSchedule r = []).
Proof.
  split; eexists; (split; [vm_compute; reflexivity|]); split; vm_compute;
    (reflexivity || discriminate).
Qed.

(** ** The input compilers *)

Section CompilerFacts.
Context {F : Type}.
Variable componentType : string.
Variable basicInfo : RepairBasicInfoMat.
Variable envMat : EnvCoefMat F.

Lemma scanBasic_spec (repairID : Z) (bs : RepairBasicInfoMat) :
  forall (countBasic countBasicType : Z) (temp : RepairEnv F),
  exists countBasic',
    countBasic <= countBasic' /\
    (countBasic' = countBasic <->
     Forall (fun b => RepairBasicInfo.repairID b <> repairID) bs) /\
    scanBasic repairID componentType bs countBasic countBasicType temp
    = match find (fun b => (RepairBasicInfo.repairID b =? repairID)
                           && String.eqb (RepairBasicInfo.component b) componentType)
                 bs with
      | Some b =>
          (countBasic', countBasicType + 1,
           mkRepairEnv (Input.repairID temp) (RepairBasicInfo.LB b)
                       (RepairBasicInfo.UB b) (RepairBasicInfo.improvement b)
                       (Input.duration temp) (Input.repairMean temp)
                       (Input.trafficMean temp))
      | None => (countBasic', countBasicType, temp)
      end.
Proof.
  induction bs as [|b bs IH]; intros cb cbt temp; simpl.
  - exists cb. split; [lia|]. split; [|done]. split; [by constructor|done].
  - destruct (Z.eqb_spec (RepairBasicInfo.repairID b) repairID) as [Hid|Hid]; simpl.
    + destruct (String.eqb _ _).
      * exists (cb + 1). split; [lia|]. split; [|done]. split; [lia|].
        intros [Hno _]%Forall_cons. done.
      * destruct (IH (cb + 1) cbt temp) as (cb' & Hle & _ & ->).
        exists cb'. split; [lia|]. split; [|done]. split; [lia|].
        intros [Hno _]%Forall_cons. done.
    + destruct (IH cb cbt temp) as (cb' & Hle & Hiff & ->).
      exists cb'. split; [lia|]. split; [|done]. rewrite Hiff, Forall_cons. tauto.
Qed.

Lemma scanEnv_spec (repairID : Z) (es : EnvCoefMat F) (temp : RepairEnv F) :
  scanEnv repairID es 0 temp
  = match find (fun e => EnvCoef.repairID e =? repairID) es with
    | Some e =>
        (1, mkRepairEnv (Input.repairID temp) (Input.LB temp) (Input.UB temp)
                        (Input.improvement temp) (Input.duration temp)
                        (EnvCoef.repairMean e) (EnvCoef.trafficMean e))
    | None => (0, temp)
    end.
Proof.
  induction es as [|e es IH]; simpl; [done|].
  by destruct (EnvCoef.repairID e =? repairID).
Qed.

Lemma find_env_None (repairID : Z) (es : EnvCoefMat F) :
  find (fun e => EnvCoef.repairID e =? repairID) es = None <->
  Forall (fun e => EnvCoef.repairID e <> repairID) es.
Proof.
  induction es as [|e es IH]; simpl; [split; [by constructor|done]|].
  rewrite Forall_cons.
  destruct (Z.eqb_spec (EnvCoef.repairID e) repairID) as [Hid|Hid]; [|tauto].
  split; [done|]. by intros [? _].
Qed.

(** One iteration of the loop of [envInfoCompiler] on an available repair:
    it raises when the repair is not documented, and otherwise pushes the
    compiled row, if there is one. *)
Lemma envInfoLoop_step (temp0 : nat -> RepairEnv F) (i : nat) (u : RepairInfo.t F)
    (us : RepairInfoMat F) (acc : RepairEnvMat F) :
  RepairInfo.avail u = true ->
  envInfoLoop temp0 componentType basicInfo envMat i (u :: us) acc
  = if decide (Forall (fun b => RepairBasicInfo.repairID b <> RepairInfo.repairID u)
                      basicInfo)
    then Raised basic_not_found
    else if decide (Forall (fun e => EnvCoef.repairID e <> RepairInfo.repairID u)
                           envMat)
    then Raised env_not_found
    else envInfoLoop temp0 componentType basicInfo envMat (S i) us
           (acc ++ option_list (compiledRow componentType basicInfo envMat u)).
Proof.
  intros Ha. cbn [envInfoLoop]. rewrite Ha. unfold compiledRow. rewrite Ha.
  destruct (scanBasic_spec (RepairInfo.repairID u) basicInfo 0 0
              (mkRepairEnv (RepairInfo.repairID u) (Input.LB (temp0 i))
                 (Input.UB (temp0 i)) (Input.improvement (temp0 i))
                 (RepairInfo.duration u) (Input.repairMean (temp0 i))
                 (Input.trafficMean (temp0 i)))) as (cb & Hle & Hiff & ->).
  destruct (decide (Forall _ basicInfo)) as [Hno|Hsome].
  - apply Hiff in Hno as ->. by destruct (find _ basicInfo).
  - assert (Hcb : cb <> 0) by (intros ->; by apply Hsome, Hiff).
    apply Z.eqb_neq in Hcb.
    destruct (decide (Forall _ envMat)) as [Hnoe|Hsomee].
    + apply find_env_None in Hnoe.
      destruct (find _ basicInfo) as [b|]; rewrite Hcb, scanEnv_spec, Hnoe; done.
    + assert (Hfe : find (fun e => EnvCoef.repairID e =? RepairInfo.repairID u) envMat
                    <> None) by (by rewrite find_env_None).
      destruct (find _ basicInfo) as [b|]; rewrite Hcb, scanEnv_spec;
        destruct (find _ envMat) as [e|]; try done; cbn.
      by rewrite app_nil_r.
Qed.

Lemma envInfoLoop_skip (temp0 : nat -> RepairEnv F) (i : nat) (u : RepairInfo.t F)
    (us : RepairInfoMat F) (acc : RepairEnvMat F) :
  RepairInfo.avail u = false ->
  envInfoLoop temp0 componentType basicInfo envMat i (u :: us) acc
  = envInfoLoop temp0 componentType basicInfo envMat (S i) us acc /\
  compiledRow componentType basicInfo envMat u = None.
Proof. intros Ha. cbn [envInfoLoop]. unfold compiledRow. by rewrite Ha. Qed.

Lemma documented_iff (u : RepairInfo.t F) :
  documented basicInfo envMat u <->
  ~ Forall (fun b => RepairBasicInfo.repairID b <> RepairInfo.repairID u) basicInfo /\
  ~ Forall (fun e => EnvCoef.repairID e <> RepairInfo.repairID u) envMat.
Proof.
  unfold documented. split.
  - intros [(b & Hb & Hib) (e & He & Hie)]. rewrite !Forall_forall.
    split; intros Hno; [by apply (Hno b)|by apply (Hno e)].
  - intros [Hb He]. split.
    + apply not_Forall_Exists in Hb; [|apply _].
      apply Exists_exists in Hb as (b & Hin & Hid). exists b. split; [done|].
      simpl in Hid. by destruct (decide (RepairBasicInfo.repairID b = RepairInfo.repairID u)).
    + apply not_Forall_Exists in He; [|apply _].
      apply Exists_exists in He as (e & Hin & Hid). exists e. split; [done|].
      simpl in Hid. by destruct (decide (EnvCoef.repairID e = RepairInfo.repairID u)).
Qed.

(** The loop in closed form. *)
Lemma envInfoLoop_Returned (temp0 : nat -> RepairEnv F) (us : RepairInfoMat F) :
  forall (i : nat) (acc out : RepairEnvMat F),
  envInfoLoop temp0 componentType basicInfo envMat i us acc = Returned out <->
  Forall (fun u => RepairInfo.avail u = true -> documented basicInfo envMat u) us /\
  out = acc ++ omap (compiledRow componentType basicInfo envMat) us.
Proof.
  induction us as [|u us IH]; intros i acc out.
  - cbn. rewrite app_nil_r. split; [intros [= <-]; by split|by intros [_ ->]].
  - rewrite Forall_cons. destruct (RepairInfo.avail u) eqn:Ha.
    + rewrite envInfoLoop_step by done. rewrite documented_iff.
      destruct (decide (Forall _ basicInfo)) as [Hno|Hsome]; [split; [done|tauto]|].
      destruct (decide (Forall _ envMat)) as [Hnoe|Hsomee]; [split; [done|tauto]|].
      rewrite IH. cbn [omap list_omap].
      destruct (compiledRow _ _ _ u) as [row|]; cbn [option_list];
        rewrite <- ?app_assoc, ?app_nil_r; cbn [app]; tauto.
    + destruct (envInfoLoop_skip temp0 i u us acc Ha) as [-> Hrow].
      rewrite IH. cbn [omap list_omap]. rewrite Hrow.
      split; intros [Hall ->]; (split; [|done]); [split; [done|exact Hall]|tauto].
Qed.

Lemma envInfoLoop_Raised (temp0 : nat -> RepairEnv F) (us : RepairInfoMat F) :
  forall (i : nat) (acc : RepairEnvMat F) (msg : string),
  envInfoLoop temp0 componentType basicInfo envMat i us acc = Raised msg <->
  exists us1 u us2,
    us = us1 ++ u :: us2 /\
    Forall (fun u => RepairInfo.avail u = true -> documented basicInfo envMat u) us1 /\
    RepairInfo.avail u = true /\
    ((msg = basic_not_found /\
      Forall (fun b => RepairBasicInfo.repairID b <> RepairInfo.repairID u) basicInfo) \/
     (msg = env_not_found /\
      ~ Forall (fun b => RepairBasicInfo.repairID b <> RepairInfo.repairID u) basicInfo /\
      Forall (fun e => EnvCoef.repairID e <> RepairInfo.repairID u) envMat)).
Proof.
  induction us as [|u us IH]; intros i acc msg.
  - cbn. split; [done|]. intros (us1 & u & us2 & Hus & _). by destruct us1.
  - destruct (RepairInfo.avail u) eqn:Ha.
    + rewrite envInfoLoop_step by done.
      destruct (decide (Forall _ basicInfo)) as [Hno|Hsome].
      { split.
        - intros [= <-]. exists [], u, us. split; [done|]. split; [constructor|].
          split; [done|]. by left.
        - intros (us1 & u' & us2 & Hus & Hdoc & Hav & Hmsg).
          destruct us1 as [|u1 us1]; injection Hus as <- ->.
          + destruct Hmsg as [[-> _]|[_ [? _]]]; done.
          + apply Forall_cons in Hdoc as [Hd _]. apply Hd, documented_iff in Ha.
            tauto. }
      destruct (decide (Forall _ envMat)) as [Hnoe|Hsomee].
      { split.
        - intros [= <-]. exists [], u, us. split; [done|]. split; [constructor|].
          split; [done|]. by right.
        - intros (us1 & u' & us2 & Hus & Hdoc & Hav & Hmsg).
          destruct us1 as [|u1 us1]; injection Hus as <- ->.
          + destruct Hmsg as [[_ ?]|[-> _]]; done.
          + apply Forall_cons in Hdoc as [Hd _]. apply Hd, documented_iff in Ha.
            tauto. }
      rewrite IH. split.
      * intros (us1 & u' & us2 & -> & Hdoc & Hrest).
        exists (u :: us1), u', us2. split; [done|]. split; [|done].
        constructor; [|done]. intros _. by apply documented_iff.
      * intros (us1 & u' & us2 & Hus & Hdoc & Hav & Hmsg).
        destruct us1 as [|u1 us1]; injection Hus as <- ->.
        -- destruct Hmsg as [[_ ?]|[_ [_ ?]]]; done.
        -- apply Forall_cons in Hdoc as [_ Hdoc]. by exists us1, u', us2.
    + destruct (envInfoLoop_skip temp0 i u us acc Ha) as [-> _]. rewrite IH. split.
      * intros (us1 & u' & us2 & -> & Hdoc & Hrest).
        exists (u :: us1), u', us2. split; [done|]. split; [|done].
        constructor; [|done]. by rewrite Ha.
      * intros (us1 & u' & us2 & Hus & Hdoc & Hav & Hmsg).
        destruct us1 as [|u1 us1]; injection Hus as <- ->.
        -- congruence.
        -- apply Forall_cons in Hdoc as [_ Hdoc]. by exists us1, u', us2.
Qed.

Lemma envInfoLoop_defined (temp0 : nat -> RepairEnv F) (us : RepairInfoMat F) :
  forall (i : nat) (acc : RepairEnvMat F),
  envInfoLoop temp0 componentType basicInfo envMat i us acc <> Undefined /\
  envInfoLoop temp0 componentType basicInfo envMat i us acc <> OutOfFuel.
Proof.
  induction us as [|u us IH]; intros i acc; [by split|].
  destruct (RepairInfo.avail u) eqn:Ha.
  - rewrite envInfoLoop_step by done.
    destruct (decide _); [by split|]. destruct (decide _); [by split|]. apply IH.
  - destruct (envInfoLoop_skip temp0 i u us acc Ha) as [-> _]. apply IH.
Qed.

End CompilerFacts.

(** [envInfoCompiler] returns exactly when every available repair is
    documented (it has a row in [basicInfo], for whatever component, and a
    row in [envMat]).  The result then holds, in the order of
    [repairUserIn], one row for each available repair that has a
    [basicInfo] row for the requested component: its bounds and improvement
    come from the first such row, its duration from the user, its means
    from the first [envMat] row with its id.  Unavailable repairs and
    repairs of other components are left out, and no field of a returned
    row is left indeterminate. *)
Theorem envInfoCompiler_Returned {F : Type} (temp0 : nat -> RepairEnv F)
    (repairUserIn : RepairInfoMat F) (componentType : string)
    (basicInfo : RepairBasicInfoMat) (envMat : EnvCoefMat F) (out : RepairEnvMat F) :
  envInfoCompiler temp0 repairUserIn componentType basicInfo envMat = Returned out <->
  Forall (fun u => RepairInfo.avail u = true -> documented basicInfo envMat u)
         repairUserIn /\
  out = omap (compiledRow componentType basicInfo envMat) repairUserIn.
Proof. unfold envInfoCompiler. by rewrite envInfoLoop_Returned. Qed.

(** [envInfoCompiler] raises exactly at the first available repair that is
    not documented: "Repair Basic Info Not Found" when [basicInfo] has no
    row with its id, "Repair Env Coeff Not Found" when it has one but
    [envMat] has none, also when the repair has no [basicInfo] row for the
    requested component and would have been left out.  No other outcome is
    possible. *)
Theorem envInfoCompiler_Raised {F : Type} (temp0 : nat -> RepairEnv F)
    (repairUserIn : RepairInfoMat F) (componentType : string)
    (basicInfo : RepairBasicInfoMat) (envMat : EnvCoefMat F) :
  (forall msg : string,
     envInfoCompiler temp0 repairUserIn componentType basicInfo envMat = Raised msg <->
     exists us1 u us2,
       repairUserIn = us1 ++ u :: us2 /\
       Forall (fun u => RepairInfo.avail u = true -> documented basicInfo envMat u)
              us1 /\
       RepairInfo.avail u = true /\
       ((msg = basic_not_found /\
         Forall (fun b => RepairBasicInfo.repairID b <> RepairInfo.repairID u)
                basicInfo) \/
        (msg = env_not_found /\
         ~ Forall (fun b => RepairBasicInfo.repairID b <> RepairInfo.repairID u)
                  basicInfo /\
         Forall (fun e => EnvCoef.repairID e <> RepairInfo.repairID u) envMat))) /\
  envInfoCompiler temp0 repairUserIn componentType basicInfo envMat <> Undefined /\
  envInfoCompiler temp0 repairUserIn componentType basicInfo envMat <> OutOfFuel.
Proof.
  unfold envInfoCompiler. split; [|apply envInfoLoop_defined].
  intros msg. apply envInfoLoop_Raised.
Qed.

Section CostFacts.
Context {F : Type}.

Lemma readRepairCost_fold (id : Z) (us : RepairInfoMat F) : forall costs : CostMap F,
  foldl (fun costs u =>
           if RepairInfo.avail u
           then <[RepairInfo.repairID u := RepairInfo.cost u]> costs
           else costs) costs us !! id
  = match last (filter (fun u => RepairInfo.avail u = true /\ RepairInfo.repairID u = id)
                       us) with
    | Some u => Some (RepairInfo.cost u)
    | None => costs !! id
    end.
Proof.
  induction us as [|u us IH]; intros costs; [done|]. cbn [foldl]. rewrite IH.
  destruct (decide (RepairInfo.avail u = true /\ RepairInfo.repairID u = id))
    as [[Ha Hid]|Hn].
  - rewrite filter_cons_True by done. rewrite last_cons.
    destruct (last (filter _ us)); [done|]. rewrite Ha, <- Hid.
    by rewrite lookup_insert_eq.
  - rewrite filter_cons_False by done.
    destruct (last (filter _ us)); [done|].
    destruct (RepairInfo.avail u) eqn:Ha; [|done].
    rewrite lookup_insert_ne; [done|]. intros Hid. by apply Hn.
Qed.

End CostFacts.

(** [readRepairCost] maps an id to the cost of the LAST available repair
    of [repairUserIn] with that id; an id that no available repair carries
    has no entry (and [costs[id]] then reads as 0 in
    [findOptCostSchedule]). *)
Theorem readRepairCost_lookup {F : Type} (repairUserIn : RepairInfoMat F) (id : Z) :
  readRepairCost repairUserIn !! id
  = RepairInfo.cost
      <$> last (filter (fun u => RepairInfo.avail u = true /\ RepairInfo.repairID u = id)
                       repairUserIn).
Proof.
  unfold readRepairCost. rewrite readRepairCost_fold.
  by destruct (last _).
Qed.

(** [blackBox.cpp] compiles the catalog and the costs from the same
    [repairUserIn] (lines 45 and 92-118): every row of the compiled catalog
    then has an entry in [costs], namely the cost of the last available
    repair with its id, so [costs[repairs[k].repairID]] in
    [findOptCostSchedule] never falls back on the default 0. *)
Theorem envInfoCompiler_rows_have_cost {F : Type} (temp0 : nat -> RepairEnv F)
    (repairUserIn : RepairInfoMat F) (componentType : string)
    (basicInfo : RepairBasicInfoMat) (envMat : EnvCoefMat F) (out : RepairEnvMat F) :
  envInfoCompiler temp0 repairUserIn componentType basicInfo envMat = Returned out ->
  forall r, r ∈ out ->
    exists u, u ∈ repairUserIn /\ RepairInfo.avail u = true /\
              RepairInfo.repairID u = Input.repairID r /\
              readRepairCost repairUserIn !! Input.repairID r
              = Some (RepairInfo.cost u).
Proof.
  unfold envInfoCompiler. intros [_ ->]%envInfoLoop_Returned r Hr. cbn [app] in Hr.
  apply list_elem_of_omap in Hr as (u0 & Hu0 & Hrow).
  assert (Hid : RepairInfo.avail u0 = true /\ RepairInfo.repairID u0 = Input.repairID r).
  { unfold compiledRow in Hrow. destruct (RepairInfo.avail u0); [|done].
    destruct (find _ basicInfo); [|done]. destruct (find _ envMat); [|done].
    cbn in Hrow. by injection Hrow as <-. }
  unfold readRepairCost. rewrite readRepairCost_fold.
  destruct (last (filter _ repairUserIn)) as [u|] eqn:Hlast.
  - apply last_Some_elem_of, list_elem_of_filter in Hlast as [[Ha Hi] Hin].
    by exists u.
  - apply last_None in Hlast.
    assert (Hin : u0 ∈ filter (fun u => RepairInfo.avail u = true /\
                                        RepairInfo.repairID u = Input.repairID r)
                              repairUserIn) by (by apply list_elem_of_filter).
    rewrite Hlast in Hin. by apply elem_of_nil in Hin.
Qed.

(** A user input with an unavailable repair, a repair of another component
    and two entries for repair 5: the catalog for "Deck" holds the two
    entries of repair 5, and [costs] gives repair 5 the cost of the second
    one. *)
Lemma envInfoCompiler_rows_have_cost_witness :
  envInfoCompiler (fun _ => mkRepairEnv 0 0 0 0 0 (b32_of_int 0) (b32_of_int 0))
                  user_repairs "Deck" basic_rows env_rows
  = Returned [mkRepairEnv 5 4 6 2 1 (b32_of_int 11) (b32_of_int 12);
              mkRepairEnv 5 4 6 2 3 (b32_of_int 11) (b32_of_int 12)] /\
  exists u, u ∈ user_repairs /\ RepairInfo.avail u = true /\
            RepairInfo.repairID u = 5 /\
            readRepairCost user_repairs !! 5 = Some (RepairInfo.cost u).
Proof.
  assert (H : envInfoCompiler
                (fun _ => mkRepairEnv 0 0 0 0 0 (b32_of_int 0) (b32_of_int 0))
                user_repairs "Deck" basic_rows env_rows
              = Returned [mkRepairEnv 5 4 6 2 1 (b32_of_int 11) (b32_of_int 12);
                          mkRepairEnv 5 4 6 2 3 (b32_of_int 11) (b32_of_int 12)])
    by (vm_compute; reflexivity).
  split; [exact H|].
  exact (envInfoCompiler_rows_have_cost _ _ _ _ _ _ H
           (mkRepairEnv 5 4 6 2 1 (b32_of_int 11) (b32_of_int 12))
           (list_elem_of_here _ _)).
Defined.

(** The cost of repair 5 in the map is that of its second entry. *)
Example readRepairCost_last_entry :
  readRepairCost user_repairs !! 5 = Some (b32_of_int 120) /\
  readRepairCost user_repairs !! 9 = None.
Proof. split; vm_compute; reflexivity. Qed.

(** The catalog for "Barrier" is empty, and a user input whose repair 6
    has no coefficients cannot be compiled for "Deck" either, although
    repair 6 is no deck repair. *)
Example envInfoCompiler_other_component :
  envInfoCompiler (fun _ => mkRepairEnv 0 0 0 0 0 (b32_of_int 0) (b32_of_int 0))
                  user_repairs "Barrier" basic_rows env_rows = Returned [] /\
  envInfoCompiler (fun _ => mkRepairEnv 0 0 0 0 0 (b32_of_int 0) (b32_of_int 0))
                  user_repairs "Deck" basic_rows
                  [EnvCoef.mk 5 (b32_of_int 11) (b32_of_int 12)]
  = Raised env_not_found.
Proof. split; vm_compute; reflexivity. Qed.

(** ** PolyFit.cpp *)

Section FitFacts.
Context {Fl : Type} {AF : Arith Fl}.

(** *** [readData] *)

Lemma readDataLoop_spec (years : list Z) (rs : list Z) :
  forall (i : Z) (x y : Z -> Fl), 0 <= i ->
  match PolyFit.readDataLoop years rs i x y with
  | Returned (n, x', y') =>
      n = i + Z.of_nat (length rs) /\
      (rs <> [] -> n <= 15 /\ n <= Z.of_nat (length years)) /\
      (forall j, i <= j < n ->
         exists yj y0 r, years !! Z.to_nat j = Some yj /\ years !! 0%nat = Some y0 /\
                         rs !! Z.to_nat (j - i) = Some r /\
                         x' j = of_int (yj - y0) /\ y' j = of_int r) /\
      (forall j, ~ (i <= j < n) -> x' j = x j /\ y' j = y j)
  | Undefined =>
      rs <> [] /\ (15 < i + Z.of_nat (length rs) \/
                   Z.of_nat (length years) < i + Z.of_nat (length rs))
  | _ => False
  end.
Proof.
  induction rs as [|r rs IH]; intros i x y Hi; cbn [PolyFit.readDataLoop].
  - split; [simpl; lia|]. split; [done|]. split; [intros j Hj; simpl in Hj; lia|done].
  - destruct (years !! Z.to_nat i) as [yi|] eqn:Hyi.
    2:{ split; [done|]. right. apply lookup_ge_None in Hyi. simpl. lia. }
    destruct (years !! 0%nat) as [y0|] eqn:Hy0.
    2:{ split; [done|]. right. apply lookup_ge_None in Hy0. simpl. lia. }
    destruct (Z.leb_spec 15 i) as [H15|H15].
    { split; [done|]. left. simpl. lia. }
    specialize (IH (i + 1) (set1 x i (of_int (yi - y0))) (set1 y i (of_int r))
                  ltac:(lia)).
    destruct (PolyFit.readDataLoop _ rs _ _ _) as [[[n x'] y']| | |]; [|done| |done].
    + destruct IH as (-> & Hb & Hin & Hout).
      apply lookup_lt_Some in Hyi as Hlen.
      split; [simpl; lia|]. split.
      { intros _. destruct rs as [|r' rs']; [simpl; lia|].
        destruct (Hb ltac:(done)) as [? ?]. simpl in *. lia. }
      split.
      * intros j Hj. destruct (decide (j = i)) as [->|Hne].
        -- exists yi, y0, r. rewrite Z.sub_diag. simpl.
           destruct (Hout i ltac:(lia)) as [-> ->]. unfold set1.
           by rewrite !decide_True.
        -- destruct (Hin j ltac:(simpl in Hj; lia)) as (yj & y0' & r' & H1 & H2 & H3 & H4).
           exists yj, y0', r'. split; [done|]. split; [done|]. split; [|done].
           replace (Z.to_nat (j - i)) with (S (Z.to_nat (j - (i + 1)))) by lia.
           done.
      * intros j Hj. destruct (Hout j ltac:(simpl in Hj; lia)) as [-> ->].
        unfold set1. rewrite !decide_False; [done|simpl in Hj; lia|simpl in Hj; lia].
    + destruct IH as [Hne Hlen]. split; [done|]. simpl. lia.
Qed.

End FitFacts.

(** [readData] returns when there are at most 15 ratings and a year for
    each of them: [n] is their number, [x[i]] is the [i]-th year counted
    from the first one and [y[i]] the [i]-th rating, and the other elements
    of the two arrays keep their contents.  With more than 15 ratings, or
    with fewer years than ratings, it writes past the end of [x] and [y],
    or reads past the end of [ratings.years]: the behaviour is undefined.
    No error is raised in any case. *)
Theorem readData_outcome {Fl : Type} {AF : Arith Fl} (x y : Z -> Fl)
    (ratings : ComponentRatingMat.t) :
  let rs := ComponentRatingMat.ratings ratings in
  let ys := ComponentRatingMat.years ratings in
  match PolyFit.readData x y ratings with
  | Returned (n, x', y') =>
      n = Z.of_nat (length rs) /\
      (rs <> [] -> n <= 15 /\ n <= Z.of_nat (length ys)) /\
      (forall j, 0 <= j < n ->
         exists yj y0 r, ys !! Z.to_nat j = Some yj /\ ys !! 0%nat = Some y0 /\
                         rs !! Z.to_nat j = Some r /\
                         x' j = of_int (yj - y0) /\ y' j = of_int r) /\
      (forall j, ~ (0 <= j < n) -> x' j = x j /\ y' j = y j)
  | Undefined =>
      rs <> [] /\ (15 < length rs \/ length ys < length rs)%nat
  | _ => False
  end.
Proof.
  cbn zeta. unfold PolyFit.readData.
  pose proof (readDataLoop_spec (ComponentRatingMat.years ratings)
                (ComponentRatingMat.ratings ratings) 0 x y ltac:(lia)) as H.
  destruct (PolyFit.readDataLoop _ _ _ _ _) as [[[n x'] y']| | |]; [|done| |done].
  - destruct H as (-> & Hb & Hin & Hout). split; [lia|]. split; [done|].
    split; [|done]. intros j Hj.
    destruct (Hin j Hj) as (yj & y0 & r & H1 & H2 & H3 & H4).
    exists yj, y0, r. by rewrite Z.sub_0_r in H3.
  - destruct H as [Hne Hlen]. split; [done|]. lia.
Qed.

(** *** [gaussianElimination] on three unknowns *)

Section Gauss3.
Context {Fl : Type} {AF : Arith Fl}.
Variable p1 : Z -> Z -> Fl.
Variable a : Z -> Fl.
Variable b : Z -> Z -> Fl.

(** The multipliers, the eliminated rows and the unknowns, as the loops
    compute them for [m = 3]. *)
Lemma gaussianElimination_3 :
  let p21 := if negb (b 1 1 =? of_int 0)%fl then (b 2 1 / b 1 1)%fl else p1 1 2 in
  let r22 := (b 2 2 - b 1 2 * p21)%fl in
  let r23 := (b 2 3 - b 1 3 * p21)%fl in
  let r24 := (b 2 4 - b 1 4 * p21)%fl in
  let p31 := if negb (b 1 1 =? of_int 0)%fl then (b 3 1 / b 1 1)%fl else p1 1 3 in
  let r32 := (b 3 2 - b 1 2 * p31)%fl in
  let r33 := (b 3 3 - b 1 3 * p31)%fl in
  let r34 := (b 3 4 - b 1 4 * p31)%fl in
  let p32 := if negb (r22 =? of_int 0)%fl then (r32 / r22)%fl else p1 2 3 in
  let s33 := (r33 - r23 * p32)%fl in
  let s34 := (r34 - r24 * p32)%fl in
  let a3 := (s34 / s33)%fl in
  let a2 := ((r24 - (of_int 0 + r23 * a3)) / r22)%fl in
  let a1 := ((b 1 4 - (of_int 0 + b 1 2 * a2 + b 1 3 * a3)) / b 1 1)%fl in
  let r := PolyFit.gaussianElimination p1 3 a b in
  r.1 1 = a1 /\ r.1 2 = a2 /\ r.1 3 = a3 /\
  r.2 1 1 = b 1 1 /\ r.2 2 2 = r22 /\ r.2 3 3 = s33.
Proof. cbv. repeat split. Qed.

End Gauss3.


(** *** [polyFit] *)

Section Augmented.
Context {Fl : Type} {AF : Arith Fl}.

(** The augmented matrix for [k = 3]: power sums of the [x[i]], the number
    of samples at [b[1][1]], and the moments of [y] in column 4. *)
Lemma augmented_3 (n : Z) (x y : Z -> Fl) (b : Z -> Z -> Fl) :
  let B := PolyFit.augmented 3 n x y b in
  (B 1 1 = of_int n /\ B 1 2 = PolyFit.f 1 n x /\ B 1 3 = PolyFit.f 2 n x /\
   B 1 4 = PolyFit.fy 0 n x y) /\
  (B 2 1 = PolyFit.f 1 n x /\ B 2 2 = PolyFit.f 2 n x /\ B 2 3 = PolyFit.f 3 n x /\
   B 2 4 = PolyFit.fy 1 n x y) /\
  (B 3 1 = PolyFit.f 2 n x /\ B 3 2 = PolyFit.f 3 n x /\ B 3 3 = PolyFit.f 4 n x /\
   B 3 4 = PolyFit.fy 2 n x y).
Proof. cbv -[PolyFit.f PolyFit.fy of_int]. repeat split. Qed.

End Augmented.

(** *** A fit without samples, in binary32 *)

(** Every comparison with a NaN is false: a NaN leading coefficient passes
    both tests of the validation. *)
Lemma validate_nan (b c : binary32) (limit : Z) :
  validate (S754_nan : binary32) b c limit = Returned tt.
Proof.
  unfold validate, vertex. cbn [fltb fmul fdiv fadd fopp fpow of_int binary32_Arith].
  change (SFltb (b32_of_int 0) S754_nan) with false. cbv iota.
  change (SFmul 24 128 (b32_of_int 4) S754_nan) with (S754_nan : spec_float).
  match goal with |- context [SFdiv 24 128 ?u S754_nan] => generalize u end.
  intros u. destruct u; reflexivity.
Qed.

(** With an empty history the matrix of the normal equations is zero; the
    first pivot is 0, so the multipliers keep their indeterminate values,
    and whatever these are the leading coefficient is 0/0 or derived from
    it: a NaN.  [ratingDecay] then raises none of its two errors. *)
Theorem ratingDecayFit_no_ratings (st : PolyFit.locals binary32) (timePoints : Z -> binary32)
    (ratingsDecay : Z -> Z -> Z) (years : list Z) (limit : Z) :
  (exists b c : binary32,
     PolyFit.polyFit st 3 (ComponentRatingMat.mk [] years)
     = Returned (S754_nan : binary32, b, c)) /\
  exists rd : Z -> Z -> Z,
    ratingDecayFit st timePoints ratingsDecay (ComponentRatingMat.mk [] years) limit
    = Returned rd.
Proof.
  assert (Hfit : exists b c : binary32,
             PolyFit.polyFit st 3 (ComponentRatingMat.mk [] years)
             = Returned (S754_nan : binary32, b, c)).
  { unfold PolyFit.polyFit. cbn [PolyFit.readData PolyFit.readDataLoop
                                 ComponentRatingMat.ratings ComponentRatingMat.years].
    destruct (gaussianElimination_3 (PolyFit.p1_0 st) (PolyFit.a0 st)
                (PolyFit.augmented 3 0 (PolyFit.x0 st) (PolyFit.y0 st) (PolyFit.b0 st)))
      as (_ & _ & -> & _).
    destruct (augmented_3 0 (PolyFit.x0 st) (PolyFit.y0 st) (PolyFit.b0 st))
      as ((-> & -> & -> & ->) & (-> & -> & -> & ->) & (-> & -> & -> & ->)).
    do 2 eexists. f_equal. f_equal. f_equal.
    unfold PolyFit.f, PolyFit.fy. cbn [seqZ Z.to_nat seq fmap list_fmap foldl].
    generalize (PolyFit.p1_0 st 1 2), (PolyFit.p1_0 st 1 3), (PolyFit.p1_0 st 2 3).
    intros g12 g13 g23.
    destruct g12 as [[]|[]| |[] m12 e12]; destruct g13 as [[]|[]| |[] m13 e13];
      destruct g23 as [[]|[]| |[] m23 e23]; reflexivity. }
  split; [exact Hfit|]. destruct Hfit as (b & c & Hfit).
  unfold ratingDecayFit. rewrite Hfit. unfold ratingDecay. rewrite validate_nan.
  by eexists.
Qed.

(** ** The improvement coefficient of [calEnvImpact] *)

Section CoefficientFacts.
Context {F : Type} {AF : Arith F}.

Lemma lookupImpCoeff_last (rating : Z) (impMat : ImproveMat F) : forall impCoeff : F,
  lookupImpCoeff impCoeff rating impMat
  = default impCoeff (coef <$> last (filter (fun e => condition e = rating) impMat)).
Proof.
  unfold lookupImpCoeff. induction impMat as [|e impMat IH]; intros g; [done|].
  cbn [foldl]. rewrite IH. destruct (Z.eqb_spec (condition e) rating) as [He|He].
  - rewrite filter_cons_True by done. rewrite last_cons.
    by destruct (last (filter _ impMat)).
  - by rewrite filter_cons_False by done.
Qed.

(** [calEnvImpact] uses the coefficient of the LAST row of [impMat] whose
    condition is the rating; when there is such a row the result does not
    depend on the indeterminate initial value of [impCoeff]. *)
Theorem calEnvImpact_last_coefficient (bridge : BridgeInfo F)
    (year repairID rating : Z) (repairs : RepairEnvMat F) (impMat : ImproveMat F)
    (e : ImpCoef F) :
  last (filter (fun e => condition e = rating) impMat) = Some e ->
  forall impCoeff : F,
    calEnvImpact impCoeff bridge year repairID rating repairs impMat
    = calEnvImpact (coef e) bridge year repairID rating repairs [].
Proof.
  intros He g. unfold calEnvImpact. rewrite lookupImpCoeff_last, He. done.
Qed.

End CoefficientFacts.

(** The matrix that [BlackBoxI::optSchedule] builds has rows for the
    ratings 4, 5 and 6 only.  For any other rating (7, or a rating below
    4 when the floor is lower) the formula of the repair's category is
    evaluated on the indeterminate value of [impCoeff]; the categories
    one, two, four, six, nine and eleven multiply by it. *)
Theorem calEnvImpact_rating_without_coefficient {F : Type} {AI : ArithInf F}
    (impCoeff : F) (bridge : BridgeInfo F) (year repairID rating : Z)
    (repairs : RepairEnvMat F) (cat : category) (r : RepairEnv F) :
  ~ 4 <= rating <= 6 ->
  categoryOf repairID = Some cat ->
  find (applies repairID rating) repairs = Some r ->
  calEnvImpact impCoeff bridge year repairID rating repairs BlackBoxI.impMat
  = formula cat bridge year r impCoeff.
Proof.
  intros Hr Hcat Hfind. unfold calEnvImpact. rewrite Hcat, Hfind.
  assert (Hl : lookupImpCoeff impCoeff rating BlackBoxI.impMat = impCoeff).
  { unfold lookupImpCoeff, BlackBoxI.impMat. cbn [foldl condition coef].
    destruct (Z.eqb_spec 4 rating); [lia|]. destruct (Z.eqb_spec 5 rating); [lia|].
    destruct (Z.eqb_spec 6 rating); [lia|]. done. }
  rewrite Hl. by destruct cat.
Qed.

Lemma calEnvImpact_last_coefficient_witness :
  forall impCoeff : binary32,
    calEnvImpact impCoeff bridge_10x8 0 4 5
                 [mkRepairEnv 4 4 7 2 1 (b32_of_int 1) (b32_of_int 0)]
                 [mkImpCoef 5 (b32_of_int 2); mkImpCoef 6 (b32_of_int 1);
                  mkImpCoef 5 (b32_of_int 3)]
    = calEnvImpact (b32_of_int 3) bridge_10x8 0 4 5
                   [mkRepairEnv 4 4 7 2 1 (b32_of_int 1) (b32_of_int 0)] [].
Proof.
  exact (calEnvImpact_last_coefficient bridge_10x8 0 4 5
           [mkRepairEnv 4 4 7 2 1 (b32_of_int 1) (b32_of_int 0)]
           [mkImpCoef 5 (b32_of_int 2); mkImpCoef 6 (b32_of_int 1);
            mkImpCoef 5 (b32_of_int 3)]
           (mkImpCoef 5 (b32_of_int 3)) eq_refl).
Defined.

(** Repair 4 (category four) at rating 7. *)
Lemma calEnvImpact_rating_without_coefficient_witness :
  calEnvImpact (b32_of_int 3) bridge_10x8 0 4 7
               [mkRepairEnv 4 4 7 2 1 (b32_of_int 1) (b32_of_int 0)] BlackBoxI.impMat
  = formula Four bridge_10x8 0 (mkRepairEnv 4 4 7 2 1 (b32_of_int 1) (b32_of_int 0))
            (b32_of_int 3).
Proof.
  apply (calEnvImpact_rating_without_coefficient (AI := binary32_ArithInf));
    [lia|reflexivity|reflexivity].
Defined.

(** The value at rating 7 follows the indeterminate coefficient: 60 for
    the value 3 and 20 for the value 1; at rating 6 it is the same for
    both. *)
Example calEnvImpact_rating_7 :
  calEnvImpact (b32_of_int 3) bridge_10x8 0 4 7
               [mkRepairEnv 4 4 7 2 1 (b32_of_int 1) (b32_of_int 0)] BlackBoxI.impMat
  = b32_of_int 60 /\
  calEnvImpact (b32_of_int 1) bridge_10x8 0 4 7
               [mkRepairEnv 4 4 7 2 1 (b32_of_int 1) (b32_of_int 0)] BlackBoxI.impMat
  = b32_of_int 20 /\
  calEnvImpact (b32_of_int 3) bridge_10x8 0 4 6
               [mkRepairEnv 4 4 7 2 1 (b32_of_int 1) (b32_of_int 0)] BlackBoxI.impMat
  = calEnvImpact (b32_of_int 1) bridge_10x8 0 4 6
                 [mkRepairEnv 4 4 7 2 1 (b32_of_int 1) (b32_of_int 0)] BlackBoxI.impMat.
Proof. repeat split; vm_compute; reflexivity. Qed.

(** ** The date of a result *)

(** [sysDate] packs a calendar date into one number from which the three
    fields can be read back; the year is read back by the division of
    [readRatings]. *)
Theorem sysDate_fields (ltm : tm) :
  -1900 <= tm_year ltm -> 0 <= tm_mon ltm <= 11 -> 1 <= tm_mday ltm <= 31 ->
  assessmentYear (sysDate ltm) = 1900 + tm_year ltm /\
  (sysDate ltm / 100) mod 100 = 1 + tm_mon ltm /\
  sysDate ltm mod 100 = tm_mday ltm.
Proof.
  intros Hy Hm Hd. unfold assessmentYear, sysDate. cbn zeta.
  rewrite Z.quot_div_nonneg by lia.
  split; [|split].
  - symmetry. apply (Z.div_unique _ _ _ ((1 + tm_mon ltm) * 100 + tm_mday ltm)); lia.
  - replace ((1900 + tm_year ltm) * 10000 + (1 + tm_mon ltm) * 100 + tm_mday ltm)
      with (((1900 + tm_year ltm) * 100 + (1 + tm_mon ltm)) * 100 + tm_mday ltm) by lia.
    rewrite Z.div_add_l by lia. rewrite (Z.div_small (tm_mday ltm)) by lia.
    rewrite Z.add_0_r. rewrite Z.add_comm, Z.mod_add by lia.
    apply Z.mod_small. lia.
  - replace ((1900 + tm_year ltm) * 10000 + (1 + tm_mon ltm) * 100 + tm_mday ltm)
      with (tm_mday ltm + ((1900 + tm_year ltm) * 100 + (1 + tm_mon ltm)) * 100) by lia.
    rewrite Z.mod_add by lia. apply Z.mod_small. lia.
Qed.

(** The dates of [sysDate] are ordered like the calendar dates. *)
Theorem sysDate_chronological (l1 l2 : tm) :
  0 <= tm_mon l1 <= 11 -> 1 <= tm_mday l1 <= 31 ->
  0 <= tm_mon l2 <= 11 -> 1 <= tm_mday l2 <= 31 ->
  (sysDate l1 < sysDate l2 <->
   tm_year l1 < tm_year l2 \/
   (tm_year l1 = tm_year l2 /\
    (tm_mon l1 < tm_mon l2 \/ (tm_mon l1 = tm_mon l2 /\ tm_mday l1 < tm_mday l2)))).
Proof. unfold sysDate. cbn zeta. lia. Qed.

Lemma sysDate_fields_witness :
  assessmentYear (sysDate (mkTm 112 11 8)) = 1900 + 112 /\
  (sysDate (mkTm 112 11 8) / 100) mod 100 = 1 + 11 /\
  sysDate (mkTm 112 11 8) mod 100 = 8.
Proof. apply (sysDate_fields (mkTm 112 11 8)); simpl; lia. Defined.

Lemma sysDate_chronological_witness :
  sysDate (mkTm 112 11 8) < sysDate (mkTm 113 0 1) <->
  112 < 113 \/ (112 = 113 /\ (11 < 0 \/ (11 = 0 /\ 8 < 1))).
Proof. apply (sysDate_chronological (mkTm 112 11 8) (mkTm 113 0 1)); simpl; lia. Defined.

(** ** [BlackBoxI::optSchedule] *)

Lemma mergeLoop_not_Raised (fuel : nat) : forall cs result msg,
  mergeLoop fuel cs result <> Raised msg.
Proof.
  induction fuel as [|fuel IH]; intros cs result msg; simpl.
  - by destruct (forallb ended cs).
  - destruct (forallb ended cs); [done|].
    destruct (pickMin 0 cs 9999 5) as [[m mi]|]; [|done].
    destruct (Nat.eqb mi 5); [done|]. destruct (cs !! mi) as [c|]; [|done].
    destruct (rest c); [done|]. apply IH.
Qed.

Section ServiceFacts.
Context {F : Type} {AI : ArithInf F}.
Variable ind : BlackBoxI.indeterminate F.
Variable fuel : nat.
Variable io : BlackBoxI.reads F.
Variable userIn : UserInput.t F.
Variable repairUserIn : RepairInfoMat F.

Lemma ratingDecayFit_Raised (st : PolyFit.locals F) (timePoints : Z -> F)
    (ratingsDecay : Z -> Z -> Z) (ratings : ComponentRatingMat.t) (limit : Z)
    (msg : string) :
  ratingDecayFit st timePoints ratingsDecay ratings limit = Raised msg ->
  msg = low_data \/ msg = high_data.
Proof.
  unfold ratingDecayFit, PolyFit.polyFit, PolyFit.readData.
  pose proof (readDataLoop_spec (ComponentRatingMat.years ratings)
                (ComponentRatingMat.ratings ratings) 0 (PolyFit.x0 st)
                (PolyFit.y0 st) ltac:(lia)) as H.
  destruct (PolyFit.readDataLoop _ _ _ _ _) as [[[n x] y]| | |]; try done.
  unfold ratingDecay, validate.
  destruct (_ >? _)%fl; [destruct (_ >? _)%fl|destruct (_ <? _)%fl]; try done;
    intros [= <-]; tauto.
Qed.

Lemma schedule_outcome (k optObj : Z) (bridge : BridgeInfo F)
    (ratingsDecay : Z -> Z -> Z) (envMat : RepairEnvMat F) (costs : CostMap F)
    (limit : Z) :
  (exists r, BlackBoxI.schedule ind k optObj bridge ratingsDecay envMat costs limit fuel
             = Returned r) \/
  BlackBoxI.schedule ind k optObj bridge ratingsDecay envMat costs limit fuel
  = OutOfFuel.
Proof.
  unfold BlackBoxI.schedule, findOptCostSchedule, findOptEnvSchedule, findOptSchedule.
  destruct (optObj =? 11).
  - destruct (finals _ _ _ _) as [[[m c] f]|]; [|by right].
    destruct (collect _ _ _ _ _ _); [left; by eexists|by right].
  - destruct (finals _ _ _ _) as [[[m c] f]|]; [|by right].
    destruct (collect _ _ _ _ _ _); [left; by eexists|by right].
Qed.

Lemma compile_Raised (temp0 : nat -> RepairEnv F) (type : string) (msg : string) :
  envInfoCompiler temp0 repairUserIn type (BlackBoxI.repairs io) (BlackBoxI.envCos io)
  = Raised msg ->
  (msg = basic_not_found \/ msg = env_not_found) /\
  exists u, u ∈ repairUserIn /\ RepairInfo.avail u = true /\
            ~ documented (BlackBoxI.repairs io) (BlackBoxI.envCos io) u.
Proof.
  unfold envInfoCompiler. intros H.
  apply envInfoLoop_Raised in H as (us1 & u & us2 & -> & _ & Ha & Hmsg).
  split; [destruct Hmsg as [[-> _]|[-> _]]; tauto|].
  exists u. split; [apply elem_of_app; right; left|]. split; [done|].
  intros [(b & Hb & Hbid) (e & He & Heid)].
  destruct Hmsg as [[_ Hall]|[_ [_ Hall]]].
  - by apply (Forall_forall _ _) with (x := b) in Hall.
  - by apply (Forall_forall _ _) with (x := e) in Hall.
Qed.

Lemma catalogs_Raised (msg : string) :
  BlackBoxI.catalogs ind io repairUserIn = Raised msg ->
  (ServerInput.componentType (BlackBoxI.serverIn io) = StructureComponentTypeOther /\
   msg = unidentified) \/
  (ServerInput.componentType (BlackBoxI.serverIn io) <> StructureComponentTypeOther /\
   (msg = basic_not_found \/ msg = env_not_found) /\
   exists u, u ∈ repairUserIn /\ RepairInfo.avail u = true /\
             ~ documented (BlackBoxI.repairs io) (BlackBoxI.envCos io) u).
Proof.
  unfold BlackBoxI.catalogs.
  destruct (ServerInput.componentType (BlackBoxI.serverIn io)) eqn:Hc;
    try (intros [= <-]; by left); intros H; right; (split; [done|]);
    repeat match type of H with
    | context [envInfoCompiler ?t repairUserIn ?ty _ _] =>
        let E := fresh "E" in
        destruct (envInfoCompiler t repairUserIn ty _ _) eqn:E;
        cbn [mbind outcome_bind] in H;
        try discriminate;
        try (injection H as <-; by eapply compile_Raised)
    end.
Qed.

(** The errors of the operation, once everything was read.  An error of
    the derivation of the decay table comes first; an unidentified
    component type is reported only after it, and the two errors of the
    catalog compilation only for an identified component type and an
    available repair that is not documented.  The schedulers and the merge
    raise nothing.  For an unidentified component type nothing is written:
    the operation raises. *)
Theorem optSchedule_Raised (msg : string) :
  BlackBoxI.optSchedule ind fuel io userIn repairUserIn = Raised msg ->
  (ratingDecayFit (BlackBoxI.fit ind) (BlackBoxI.timePoints0 ind)
                  (BlackBoxI.ratingsDecay0 ind) (BlackBoxI.ServerRatings io)
                  (UserInput.ratingLowerLimit userIn) = Raised msg /\
   (msg = low_data \/ msg = high_data)) \/
  ((exists ratingsDecay,
      ratingDecayFit (BlackBoxI.fit ind) (BlackBoxI.timePoints0 ind)
                     (BlackBoxI.ratingsDecay0 ind) (BlackBoxI.ServerRatings io)
                     (UserInput.ratingLowerLimit userIn) = Returned ratingsDecay) /\
   ((ServerInput.componentType (BlackBoxI.serverIn io) = StructureComponentTypeOther /\
     msg = unidentified) \/
    (ServerInput.componentType (BlackBoxI.serverIn io) <> StructureComponentTypeOther /\
     (msg = basic_not_found \/ msg = env_not_found) /\
     exists u, u ∈ repairUserIn /\ RepairInfo.avail u = true /\
               ~ documented (BlackBoxI.repairs io) (BlackBoxI.envCos io) u))).
Proof.
  unfold BlackBoxI.optSchedule. cbn zeta.
  destruct (ratingDecayFit _ _ _ _ _) as [rd|m| |] eqn:Hrd; cbn [mbind outcome_bind];
    try done.
  2:{ intros [= ->]. left. split; [done|]. by eapply ratingDecayFit_Raised. }
  intros H. right. split; [by eexists|].
  destruct (BlackBoxI.catalogs ind io repairUserIn) as [[[[e1 e2] e3] e4]|m| |] eqn:Hcat;
    cbn [mbind outcome_bind] in H; try done.
  2:{ injection H as ->. by apply catalogs_Raised. }
  exfalso.
  repeat match type of H with
  | context [BlackBoxI.schedule ind ?k ?o ?b ?r ?e ?c ?l fuel] =>
      let E := fresh "E" in
      destruct (schedule_outcome k o b r e c l) as [[? E]|E]; rewrite E in H;
      cbn [mbind outcome_bind] in H; try discriminate
  | context [match ServerInput.componentType ?s with _ => _ end] =>
      destruct (ServerInput.componentType s); try discriminate
  end.
  unfold mergeFourSched, mergeTrace in H.
  match type of H with
  | context [mergeLoop ?f ?cs ?res] =>
      pose proof (mergeLoop_not_Raised f cs res) as Hm;
      destruct (mergeLoop f cs res); cbn in H; try discriminate
  end.
  by eapply Hm.
Qed.

(** For a span the four schedules are merged, and [mergeFourSched] reads
    the first entry of each of them: when one of the four schedulers
    returns an empty schedule (no repair of that component type in the
    catalog, or none needed), the operation has undefined behaviour and
    writes nothing. *)
Theorem optSchedule_span_empty_schedule (r1 r2 r3 r4 : result F) :
  ServerInput.componentType (BlackBoxI.serverIn io) = StructureComponentTypeSpan ->
  BlackBoxI.span_runs ind fuel io userIn repairUserIn r1 r2 r3 r4 ->
  optSchedule r1 = [] \/ optSchedule r2 = [] \/ optSchedule r3 = [] \/
  optSchedule r4 = [] ->
  BlackBoxI.optSchedule ind fuel io userIn repairUserIn = Undefined.
Proof.
  intros Hspan (rd & e1 & e2 & e3 & e4 & Hrd & Hcat & H1 & H2 & H3 & H4) Hempty.
  unfold BlackBoxI.optSchedule. cbn zeta. rewrite Hrd. cbn [mbind outcome_bind].
  rewrite Hcat. cbn [mbind outcome_bind]. rewrite H1. cbn [mbind outcome_bind].
  rewrite Hspan, H2. cbn [mbind outcome_bind]. rewrite H3. cbn [mbind outcome_bind].
  rewrite H4. cbn [mbind outcome_bind].
  unfold mergeFourSched, mergeTrace. rewrite mergeLoop_past_the_end; [done|].
  destruct Hempty as [-> | [-> | [-> | ->]]].
  - by apply Exists_cons_hd.
  - by apply Exists_cons_tl, Exists_cons_hd.
  - by apply Exists_cons_tl, Exists_cons_tl, Exists_cons_hd.
  - by apply Exists_cons_tl, Exists_cons_tl, Exists_cons_tl, Exists_cons_hd.
Qed.

(** For a span whose four schedules are not empty (and hold no year above
    9999), the operation returns: the schedule is a rearrangement of the
    entries of the four schedules, and the value written is the sum of
    the four values, for the bridge, component, objective and date of the
    call. *)
Theorem optSchedule_span_merged (r1 r2 r3 r4 : result F) :
  ServerInput.componentType (BlackBoxI.serverIn io) = StructureComponentTypeSpan ->
  BlackBoxI.span_runs ind fuel io userIn repairUserIn r1 r2 r3 r4 ->
  optSchedule r1 <> [] -> optSchedule r2 <> [] -> optSchedule r3 <> [] ->
  optSchedule r4 <> [] ->
  Forall (fun q => Pair.repairYear q <= 9999)
         (optSchedule r1 ++ optSchedule r2 ++ optSchedule r3 ++ optSchedule r4) ->
  exists merged,
    BlackBoxI.optSchedule ind fuel io userIn repairUserIn
    = Returned
        (BlackBoxI.mkWritten
           (UserInput.bridgeID userIn) (UserInput.componentID userIn)
           (UserInput.optObject userIn - 1) (BlackBoxI.date io)
           (findEnvImpactType (BlackBoxI.impactType0 ind) (UserInput.optObject userIn))
           (findUnit (UserInput.optObject userIn))
           (minTotalCost r1 + minTotalCost r2 + minTotalCost r3 + minTotalCost r4)%fl,
         merged) /\
    merged ≡ₚ optSchedule r1 ++ optSchedule r2 ++ optSchedule r3 ++ optSchedule r4.
Proof.
  intros Hspan (rd & e1 & e2 & e3 & e4 & Hrd & Hcat & H1 & H2 & H3 & H4) N1 N2 N3 N4 Hy.
  apply Forall_app in Hy as [Hy1 Hy]. apply Forall_app in Hy as [Hy2 Hy].
  apply Forall_app in Hy as [Hy3 Hy4].
  destruct (mergeLoop_complete
              (S (length (optSchedule r1) + length (optSchedule r2)
                  + length (optSchedule r3) + length (optSchedule r4)))
              [mkCursor (optSchedule r1) false; mkCursor (optSchedule r2) false;
               mkCursor (optSchedule r3) false; mkCursor (optSchedule r4) false] [])
    as (tr & Htr & Hperm).
  - done.
  - repeat constructor; simpl; try done; by intros ->.
  - by repeat constructor.
  - simpl. lia.
  - exists (map snd tr). split.
    + unfold BlackBoxI.optSchedule. cbn zeta. rewrite Hrd. cbn [mbind outcome_bind].
      rewrite Hcat. cbn [mbind outcome_bind]. rewrite H1. cbn [mbind outcome_bind].
      rewrite Hspan, H2. cbn [mbind outcome_bind]. rewrite H3.
      cbn [mbind outcome_bind]. rewrite H4. cbn [mbind outcome_bind].
      unfold mergeFourSched, mergeTrace. rewrite Htr. done.
    + rewrite Hperm. simpl. by rewrite app_nil_r.
Qed.

End ServiceFacts.
